(** * Parking API (main.py): lots, spots, reservations and nearby search

    A shallow embedding of the FastAPI + SQLAlchemy service of [main.py].

    - The database is a record of three tables (lists of rows, in insertion
      order) with the three serial primary-key sequences.
    - A request handler runs in a small state-and-exception monad over a
      SQLAlchemy session: the rows as the session sees them, and the rows
      that have been committed.  Leaving a handler by an exception drops
      whatever was not committed ([get_db] closes the session).
    - Request bodies are validated before the handler runs, as FastAPI does
      with the pydantic models; a failed validation is the 422 answer.  An
      outcome is what the validator or the handler returns or raises; the
      encoding of a returned row as a JSON response is not modelled.
    - Requests are handled one after another: a handler runs to its commit
      before the next one starts.  Handlers that overlap in time are not
      modelled.
    - Timestamps are datetimes with an optional UTC offset in minutes
      (naive or aware).  Two aware datetimes compare as instants, a naive
      and an aware one do not compare (TypeError).  The reservation table
      keeps them as ISO strings, and the overlap query compares these
      strings character by character (the order of text under the C
      collation).
    - A Python string is the sequence of its UTF-8 bytes.  The database
      driver refuses a text with a NUL character; this is modelled where a
      lot name and a vehicle plate are inserted.
    - Floating-point values are binary64 primitive floats.  The C functions
      behind [math.sin], [math.cos], [math.asin] and [**], and [round], are
      the fields of the class [Libm]; [math.sqrt] is the IEEE square root.

    The first part gives the definitions, the second the properties. *)

From Stdlib Require Import ZArith List String Ascii Bool Lia.
From Stdlib Require Import Uint63 Floats Sorted Permutation.
Import ListNotations.

Local Open Scope Z_scope.

(* ------------------------------------------------------------------ *)
(** ** Outcomes of a request *)

(** What a handler ends with: a value, an [HTTPException] raised by the
    handler, a request that failed pydantic/FastAPI validation (answered
    422), or any other Python exception (answered 500). *)
Inductive Outcome (A : Type) : Type :=
| Ok (a : A)
| HTTPException (status_code : Z) (detail : string)
| RequestValidationError (detail : string)
| Uncaught (exc : string).

Arguments Ok {A} a.
Arguments HTTPException {A} status_code detail.
Arguments RequestValidationError {A} detail.
Arguments Uncaught {A} exc.

(** The error names of the specification, read off an outcome. *)
Inductive ErrorKind := ValidationError | NotFound | Conflict | InvalidState | OtherError.

Definition error_kind {A} (o : Outcome A) : option ErrorKind :=
  match o with
  | Ok _ => None
  | RequestValidationError _ => Some ValidationError
  | HTTPException code _ =>
      if code =? 404 then Some NotFound
      else if code =? 409 then Some Conflict
      else if code =? 400 then Some InvalidState
      else if code =? 422 then Some ValidationError
      else Some OtherError
  | Uncaught _ => Some OtherError
  end.

(* ------------------------------------------------------------------ *)
(** ** datetime and isoformat *)

(** A [datetime.datetime]: the seven fields Python keeps and the tzinfo, as
    its UTC offset in minutes ([None] for a naive datetime). *)
Module datetime.

Record t := mk {
  year : Z; month : Z; day : Z;
  hour : Z; minute : Z; second : Z; microsecond : Z;
  tzinfo : option Z
}.

(** The ranges Python's constructors enforce (day only up to 31 here; an
    offset is strictly between -24 and 24 hours). *)
Definition wf (d : t) : Prop :=
  1 <= year d <= 9999 /\ 1 <= month d <= 12 /\ 1 <= day d <= 31 /\
  0 <= hour d <= 23 /\ 0 <= minute d <= 59 /\ 0 <= second d <= 59 /\
  0 <= microsecond d <= 999999 /\
  match tzinfo d with Some o => -1440 < o < 1440 | None => True end.

Definition fields (d : t) : list Z :=
  [year d; month d; day d; hour d; minute d; second d; microsecond d].

(** Lexicographic comparison of the field tuples, what [datetime._cmp] does
    when the two offsets are the same. *)
Fixpoint cmp_fields (a b : list Z) : comparison :=
  match a, b with
  | x :: a', y :: b' =>
      match x ?= y with
      | Eq => cmp_fields a' b'
      | c => c
      end
  | [], [] => Eq
  | [], _ :: _ => Lt
  | _ :: _, [] => Gt
  end.

Definition compare (a b : t) : comparison := cmp_fields (fields a) (fields b).

(** The proleptic Gregorian ordinal of the date ([_ymd2ord]). *)
Definition is_leap (y : Z) : bool :=
  (y mod 4 =? 0) && (negb (y mod 100 =? 0) || (y mod 400 =? 0)).

Definition days_before_year (y : Z) : Z :=
  let y := y - 1 in y * 365 + y / 4 - y / 100 + y / 400.

Definition days_before_month (y m : Z) : Z :=
  nth (Z.to_nat m) [0; 0; 31; 59; 90; 120; 151; 181; 212; 243; 273; 304; 334] 0
  + (if (2 <? m) && is_leap y then 1 else 0).

Definition toordinal (d : t) : Z :=
  days_before_year (year d) + days_before_month (year d) (month d) + day d.

(** The microseconds from 0001-01-01T00:00:00 in the datetime's own clock,
    and the same instant in UTC for an offset of [o] minutes. *)
Definition clock_us (d : t) : Z :=
  ((toordinal d * 86400 + hour d * 3600 + minute d * 60 + second d) * 1000000)
  + microsecond d.

Definition utc_us (d : t) (o : Z) : Z := clock_us d - o * 60 * 1000000.

(** [_cmp]: equal offsets (or two naive datetimes) compare by fields; two
    different offsets compare the instants ([self - other]); a naive and an
    aware datetime do not compare ([None]: the [TypeError]). *)
Definition cmp (a b : t) : option comparison :=
  match tzinfo a, tzinfo b with
  | None, None => Some (compare a b)
  | Some oa, Some ob =>
      if oa =? ob then Some (compare a b)
      else Some (utc_us a oa ?= utc_us b ob)
  | _, _ => None
  end.

(** [a <= b] *)
Definition le (a b : t) : Outcome bool :=
  match cmp a b with
  | Some Gt => Ok false
  | Some _ => Ok true
  | None => Uncaught "TypeError: can't compare offset-naive and offset-aware datetimes"
  end.

(** Order in time of two datetimes that compare. *)
Definition leb (a b : t) : bool :=
  match cmp a b with Some Lt | Some Eq => true | _ => false end.

Definition ltb (a b : t) : bool :=
  match cmp a b with Some Lt => true | _ => false end.

(** One decimal digit, and ["%0wd"] for a value below [10^w]. *)
Definition digit (n : Z) : ascii := ascii_of_nat (48 + Z.to_nat (n mod 10)).

Fixpoint zfill (w : nat) (n : Z) : string :=
  match w with
  | O => EmptyString
  | S w' => (zfill w' (n / 10) ++ String (digit n) EmptyString)%string
  end.

(** [_format_offset]: nothing for a naive datetime, else the sign and
    ["%02d:%02d"] of the offset's hours and minutes. *)
Definition format_offset (off : option Z) : string :=
  match off with
  | None => EmptyString
  | Some o =>
      ((if Z.ltb o 0 then "-" else "+")
       ++ zfill 2 (Z.div (Z.abs o) 60) ++ ":" ++ zfill 2 (Z.modulo (Z.abs o) 60))%string
  end.

(** [datetime.isoformat()] with the default separator and timespec: the
    microseconds are printed only when they are not zero, the offset only
    for an aware datetime. *)
Definition isoformat (d : t) : string :=
  (zfill 4 (year d) ++ "-" ++ zfill 2 (month d) ++ "-" ++ zfill 2 (day d) ++ "T"
   ++ zfill 2 (hour d) ++ ":" ++ zfill 2 (minute d) ++ ":" ++ zfill 2 (second d)
   ++ (if Z.eqb (microsecond d) 0 then "" else "." ++ zfill 6 (microsecond d))
   ++ format_offset (tzinfo d))%string.

End datetime.

(* ------------------------------------------------------------------ *)
(** ** ORM models: the rows of the three tables *)

Module ParkingLot.
Record t := mk {
  id : Z;
  name : string;
  latitude : float;
  longitude : float
}.
End ParkingLot.

Module ParkingSpot.
Record t := mk {
  id : Z;
  lot_id : Z;
  number : string;
  type : string;
  is_available : bool
}.

Definition set_is_available (b : bool) (s : t) : t :=
  mk (id s) (lot_id s) (number s) (type s) b.
End ParkingSpot.

Module Reservation.
Record t := mk {
  id : Z;
  spot_id : Z;
  start_time : string;   (* ISO string, as the column stores it *)
  end_time : string;
  vehicle_plate : string;
  status : string
}.

Definition set_status (st : string) (r : t) : t :=
  mk (id r) (spot_id r) (start_time r) (end_time r) (vehicle_plate r) st.

Definition is_active (r : t) : bool := String.eqb (status r) "active".
End Reservation.

(** The database: the tables and the last value of each id sequence. *)
Record DB := mkDB {
  parking_lot : list ParkingLot.t;
  parking_spot : list ParkingSpot.t;
  reservation : list Reservation.t;
  parking_lot_id_seq : Z;
  parking_spot_id_seq : Z;
  reservation_id_seq : Z
}.

Definition empty_db : DB := mkDB [] [] [] 0 0 0.

(* ------------------------------------------------------------------ *)
(** ** Pydantic schemas *)

Module LotCreate.
Record t := mk { name : string; latitude : float; longitude : float }.
End LotCreate.

Module SpotCreate.
(** The body as received: [type] may be left out. *)
Record body := mk_body { body_number : string; body_type : option string }.
Record t := mk { number : string; type : string }.

(** [pattern="^(car|bike|ev)$"]. *)
Definition type_pattern (s : string) : bool :=
  String.eqb s "car" || String.eqb s "bike" || String.eqb s "ev".

(** Field validation: the default ["car"] when [type] is unset, the pattern
    otherwise. *)
Definition validate (b : body) : Outcome t :=
  match body_type b with
  | None => Ok (mk (body_number b) "car")
  | Some s =>
      if type_pattern s then Ok (mk (body_number b) s)
      else RequestValidationError "String should match pattern '^(car|bike|ev)$'"
  end.
End SpotCreate.

Module ReserveCreate.
Record t := mk {
  spot_id : Z;
  start_time : datetime.t;
  end_time : datetime.t;
  vehicle_plate : string
}.

(** The validator of [end_time]: [start_time] is declared before [end_time],
    so it is in [values]; a datetime is always truthy; an exception of
    [v <= st] other than [ValueError] is not a validation error. *)
Definition check_order (v : datetime.t) (st : option datetime.t) : Outcome datetime.t :=
  match st with
  | Some st =>
      match datetime.le v st with
      | Ok true => RequestValidationError "end_time must be after start_time"
      | Ok false => Ok v
      | HTTPException c d => HTTPException c d
      | RequestValidationError d => RequestValidationError d
      | Uncaught e => Uncaught e
      end
  | None => Ok v
  end.

Definition validate (p : t) : Outcome t :=
  match check_order (end_time p) (Some (start_time p)) with
  | Ok v => Ok (mk (spot_id p) (start_time p) v (vehicle_plate p))
  | HTTPException c d => HTTPException c d
  | RequestValidationError d => RequestValidationError d
  | Uncaught e => Uncaught e
  end.
End ReserveCreate.

(* ------------------------------------------------------------------ *)
(** ** The session monad *)

(** [view] is the database as the session's objects show it, [committed]
    what [db.commit()] has written. *)
Record Session := mkSession { view : DB; committed : DB }.

Definition M (A : Type) : Type := Session -> Outcome A * Session.

Definition ret {A} (a : A) : M A := fun s => (Ok a, s).

Definition bind {A B} (m : M A) (k : A -> M B) : M B :=
  fun s =>
    match m s with
    | (Ok a, s') => k a s'
    | (HTTPException c d, s') => (HTTPException c d, s')
    | (RequestValidationError d, s') => (RequestValidationError d, s')
    | (Uncaught e, s') => (Uncaught e, s')
    end.

Definition raise {A} (status_code : Z) (detail : string) : M A :=
  fun s => (HTTPException status_code detail, s).

Definition query {A} (f : DB -> A) : M A := fun s => (Ok (f (view s)), s).

Definition update (f : DB -> DB) : M unit :=
  fun s => (Ok tt, mkSession (f (view s)) (committed s)).

(** [db.commit()] *)
Definition commit : M unit :=
  fun s => (Ok tt, mkSession (view s) (view s)).

(** PostgreSQL text holds no NUL character: the driver refuses a string
    with one when the pending INSERT is flushed, and the handler ends with
    that exception. *)
Definition has_nul (s : string) : bool :=
  existsb (fun c => Ascii.eqb c "000"%char) (list_ascii_of_string s).

Definition flush_text (values : list string) : M unit :=
  fun s =>
    if existsb has_nul values
    then (Uncaught "ValueError: A string literal cannot contain NUL (0x00) characters.", s)
    else (Ok tt, s).

Notation "x <- m ;; k" := (bind m (fun x => k))
  (at level 61, m at next level, right associativity).
Notation "m ;;; k" := (bind m (fun _ => k))
  (at level 61, right associativity).

(** One request: a fresh session on [db]; what counts afterwards is what
    was committed. *)
Definition run {A} (m : M A) (db : DB) : Outcome A * DB :=
  let (o, s) := m (mkSession db db) in (o, committed s).

(** A validated request: the handler is not entered when validation fails. *)
Definition validated {P A} (v : Outcome P) (handler : P -> M A) (db : DB)
  : Outcome A * DB :=
  match v with
  | Ok p => run (handler p) db
  | HTTPException c d => (HTTPException c d, db)
  | RequestValidationError d => (RequestValidationError d, db)
  | Uncaught e => (Uncaught e, db)
  end.

(* ------------------------------------------------------------------ *)
(** ** Table access *)

(** [db.get(ParkingLot, id)] and its siblings: the row with that key. *)
Definition get_lot (i : Z) (db : DB) : option ParkingLot.t :=
  find (fun l => ParkingLot.id l =? i) (parking_lot db).

Definition get_spot (i : Z) (db : DB) : option ParkingSpot.t :=
  find (fun s => ParkingSpot.id s =? i) (parking_spot db).

Definition get_reservation (i : Z) (db : DB) : option Reservation.t :=
  find (fun r => Reservation.id r =? i) (reservation db).

(** [db.add(row)] flushed: the row gets the next value of its sequence. *)
Definition add_lot (n : string) (la lo : float) (db : DB) : DB :=
  let i := parking_lot_id_seq db + 1 in
  mkDB (parking_lot db ++ [ParkingLot.mk i n la lo]) (parking_spot db) (reservation db)
       i (parking_spot_id_seq db) (reservation_id_seq db).

Definition add_spot (l : Z) (n ty : string) (avail : bool) (db : DB) : DB :=
  let i := parking_spot_id_seq db + 1 in
  mkDB (parking_lot db) (parking_spot db ++ [ParkingSpot.mk i l n ty avail]) (reservation db)
       (parking_lot_id_seq db) i (reservation_id_seq db).

Definition add_reservation (sp : Z) (st et plate stat : string) (db : DB) : DB :=
  let i := reservation_id_seq db + 1 in
  mkDB (parking_lot db) (parking_spot db)
       (reservation db ++ [Reservation.mk i sp st et plate stat])
       (parking_lot_id_seq db) (parking_spot_id_seq db) i.

(** An attribute assignment on a loaded row, flushed as
    [UPDATE ... WHERE id = i]: the rows with that key change. *)
Definition mark_spot (i : Z) (b : bool) (s : ParkingSpot.t) : ParkingSpot.t :=
  if ParkingSpot.id s =? i then ParkingSpot.set_is_available b s else s.

Definition mark_reservation (i : Z) (st : string) (r : Reservation.t) : Reservation.t :=
  if Reservation.id r =? i then Reservation.set_status st r else r.

Definition set_spot_available (i : Z) (b : bool) (db : DB) : DB :=
  mkDB (parking_lot db)
       (map (mark_spot i b) (parking_spot db))
       (reservation db)
       (parking_lot_id_seq db) (parking_spot_id_seq db) (reservation_id_seq db).

Definition set_reservation_status (i : Z) (st : string) (db : DB) : DB :=
  mkDB (parking_lot db) (parking_spot db)
       (map (mark_reservation i st) (reservation db))
       (parking_lot_id_seq db) (parking_spot_id_seq db) (reservation_id_seq db).

(* ------------------------------------------------------------------ *)
(** ** Handlers *)

(** [insert] a row and hand it back as [db.refresh] shows it after the
    commit: with the id the sequence gave it. *)
Definition insert_lot (n : string) (la lo : float) : M ParkingLot.t :=
  i <- query (fun db => parking_lot_id_seq db + 1) ;;
  update (add_lot n la lo) ;;;
  ret (ParkingLot.mk i n la lo).

Definition insert_spot (l : Z) (n ty : string) (avail : bool) : M ParkingSpot.t :=
  i <- query (fun db => parking_spot_id_seq db + 1) ;;
  update (add_spot l n ty avail) ;;;
  ret (ParkingSpot.mk i l n ty avail).

Definition insert_reservation (sp : Z) (st et plate stat : string) : M Reservation.t :=
  i <- query (fun db => reservation_id_seq db + 1) ;;
  update (add_reservation sp st et plate stat) ;;;
  ret (Reservation.mk i sp st et plate stat).

(** --- Lots --- *)
Definition create_lot (payload : LotCreate.t) : M ParkingLot.t :=
  lot <- insert_lot (LotCreate.name payload) (LotCreate.latitude payload)
                    (LotCreate.longitude payload) ;;
  flush_text [LotCreate.name payload] ;;;
  commit ;;;
  ret lot.

Definition list_lots : M (list ParkingLot.t) := query parking_lot.

(** --- Spots --- *)
Definition same_number_in_lot (lot_id : Z) (number : string) (s : ParkingSpot.t) : bool :=
  (ParkingSpot.lot_id s =? lot_id) && String.eqb (ParkingSpot.number s) number.

Definition create_spot (lot_id : Z) (payload : SpotCreate.t) : M ParkingSpot.t :=
  lot <- query (get_lot lot_id) ;;
  match lot with
  | None => raise 404 "Lot not found"
  | Some _ =>
      (* ensure unique per lot *)
      exists_ <- query (fun db =>
        find (same_number_in_lot lot_id (SpotCreate.number payload)) (parking_spot db)) ;;
      match exists_ with
      | Some _ => raise 409 "Spot number already exists in this lot"
      | None =>
          spot <- insert_spot lot_id (SpotCreate.number payload)
                              (SpotCreate.type payload) true ;;
          commit ;;;
          ret spot
      end
  end.

Definition list_spots (only_available : bool) : M (list ParkingSpot.t) :=
  query (fun db =>
    if only_available then filter ParkingSpot.is_available (parking_spot db)
    else parking_spot db).

Definition release_spot (spot_id : Z) : M ParkingSpot.t :=
  spot <- query (get_spot spot_id) ;;
  match spot with
  | None => raise 404 "Spot not found"
  | Some spot =>
      update (set_spot_available (ParkingSpot.id spot) true) ;;;
      commit ;;;
      ret (ParkingSpot.set_is_available true spot)
  end.

(** --- Reservations --- *)

(** The filter of the overlap query: same spot, status active,
    [start_time <= et] and [end_time > st], on the stored ISO strings. *)
Definition overlap_filter (spot_id : Z) (st et : string) (r : Reservation.t) : bool :=
  (Reservation.spot_id r =? spot_id)
  && String.eqb (Reservation.status r) "active"
  && (String.leb (Reservation.start_time r) et
      && String.ltb st (Reservation.end_time r)).

Definition create_reservation (payload : ReserveCreate.t) : M Reservation.t :=
  spot <- query (get_spot (ReserveCreate.spot_id payload)) ;;
  match spot with
  | None => raise 404 "Spot not found"
  | Some spot =>
      (* Prevent overlap with active reservations *)
      let st := ReserveCreate.start_time payload in
      let et := ReserveCreate.end_time payload in
      overlap <- query (fun db =>
        find (overlap_filter (ReserveCreate.spot_id payload)
                             (datetime.isoformat st) (datetime.isoformat et))
             (reservation db)) ;;
      match overlap with
      | Some _ => raise 409 "Spot already reserved for the selected time range"
      | None =>
          (* mark spot unavailable *)
          update (set_spot_available (ParkingSpot.id spot) false) ;;;
          r <- insert_reservation (ReserveCreate.spot_id payload)
                 (datetime.isoformat (ReserveCreate.start_time payload))
                 (datetime.isoformat (ReserveCreate.end_time payload))
                 (ReserveCreate.vehicle_plate payload) "active" ;;
          flush_text [ReserveCreate.vehicle_plate payload] ;;;
          commit ;;;
          ret r
      end
  end.

Definition end_reservation (reservation_id : Z) : M Reservation.t :=
  r <- query (get_reservation reservation_id) ;;
  match r with
  | None => raise 404 "Reservation not found"
  | Some r =>
      if negb (String.eqb (Reservation.status r) "active")
      then raise 400 "Reservation already ended or cancelled"
      else
        update (set_reservation_status (Reservation.id r) "ended") ;;;
        (* free the spot *)
        spot <- query (get_spot (Reservation.spot_id r)) ;;
        match spot with
        | Some spot => update (set_spot_available (ParkingSpot.id spot) true)
        | None => ret tt
        end ;;;
        commit ;;;
        ret (Reservation.set_status "ended" r)
  end.

(* ------------------------------------------------------------------ *)
(** ** The operations as a client calls them *)

Definition createLot (payload : LotCreate.t) (db : DB) : Outcome ParkingLot.t * DB :=
  validated (Ok payload) create_lot db.

Definition listLots (db : DB) : Outcome (list ParkingLot.t) * DB :=
  run list_lots db.

Definition createSpot (lot_id : Z) (body : SpotCreate.body) (db : DB)
  : Outcome ParkingSpot.t * DB :=
  validated (SpotCreate.validate body) (create_spot lot_id) db.

Definition listSpots (only_available : bool) (db : DB)
  : Outcome (list ParkingSpot.t) * DB :=
  run (list_spots only_available) db.

Definition releaseSpot (spot_id : Z) (db : DB) : Outcome ParkingSpot.t * DB :=
  run (release_spot spot_id) db.

Definition createReservation (payload : ReserveCreate.t) (db : DB)
  : Outcome Reservation.t * DB :=
  validated (ReserveCreate.validate payload) create_reservation db.

Definition endReservation (reservation_id : Z) (db : DB)
  : Outcome Reservation.t * DB :=
  run (end_reservation reservation_id) db.

(** The mutating requests, and the states they reach from the empty
    database.  (Listing and search leave the database as it is.) *)
Inductive Request :=
| CreateLot (payload : LotCreate.t)
| CreateSpot (lot_id : Z) (body : SpotCreate.body)
| ReleaseSpot (spot_id : Z)
| CreateReservation (payload : ReserveCreate.t)
| EndReservation (reservation_id : Z).

Definition step (rq : Request) (db : DB) : DB :=
  match rq with
  | CreateLot p => snd (createLot p db)
  | CreateSpot l b => snd (createSpot l b db)
  | ReleaseSpot i => snd (releaseSpot i db)
  | CreateReservation p => snd (createReservation p db)
  | EndReservation i => snd (endReservation i db)
  end.

(** The states the requests reach when they are handled one after another,
    each handler running to its end before the next request starts. *)
Inductive reachable : DB -> Prop :=
| reachable_empty : reachable empty_db
| reachable_step (db : DB) (rq : Request) :
    reachable db -> reachable (step rq db).

(** Running a list of requests in order. *)
Definition steps (rqs : list Request) (db : DB) : DB :=
  fold_left (fun d rq => step rq d) rqs db.

(* ------------------------------------------------------------------ *)
(** ** Geo distance and nearby search *)

(** Exceptions without state, for the pure helpers. *)
Definition obind {A B} (o : Outcome A) (k : A -> Outcome B) : Outcome B :=
  match o with
  | Ok a => k a
  | HTTPException c d => HTTPException c d
  | RequestValidationError d => RequestValidationError d
  | Uncaught e => Uncaught e
  end.

Notation "x <-- o ;; k" := (obind o (fun x => k))
  (at level 61, o at next level, right associativity).

(** The C library under Python's [math] module and [round(x, 2)]: they are
    not code of this repository. *)
Class Libm := {
  c_sin : float -> float;
  c_cos : float -> float;
  c_asin : float -> float;
  c_pow : float -> float -> float;
  round2 : float -> float
}.

(** [float(n)] for a Python int (exact below 2^53; there [d <= n] on a
    float and an int is the comparison of [d] with [float(n)]). *)
Definition float_of_int (n : Z) : float :=
  if n <? 0 then (- PrimFloat.of_uint63 (Uint63.of_Z (- n)))%float
  else PrimFloat.of_uint63 (Uint63.of_Z n).

(** [math.pi / 180.0], the constant of [math.radians]. *)
Definition degToRad : float := (0x1.921fb54442d18p+1 / 180)%float.

(** How the [math] module wraps a one-argument C function: a NaN result of
    a non-NaN argument, or an infinite result of a finite one, is a
    [ValueError]. *)
Definition math_1 (f : float -> float) (x : float) : Outcome float :=
  let r := f x in
  if PrimFloat.is_nan r && negb (PrimFloat.is_nan x)
  then Uncaught "ValueError: math domain error"
  else if PrimFloat.is_infinity r && PrimFloat.is_finite x
  then Uncaught "ValueError: math domain error"
  else Ok r.

Module SpotNearby.
Record t := mk {
  id : Z;
  lot_id : Z;
  number : string;
  type : string;
  is_available : bool;
  distance_m : float
}.
End SpotNearby.

(** A Python dict with int keys, as an association list without repeated
    keys: assignment replaces the value of a key that is there. *)
Fixpoint dict_set {V} (k : Z) (v : V) (d : list (Z * V)) : list (Z * V) :=
  match d with
  | [] => [(k, v)]
  | (k', v') :: d' => if k' =? k then (k, v) :: d' else (k', v') :: dict_set k v d'
  end.

Fixpoint dict_get {V} (k : Z) (d : list (Z * V)) : option V :=
  match d with
  | [] => None
  | (k', v') :: d' => if k' =? k then Some v' else dict_get k d'
  end.

(** [list.sort(key=...)]: a stable sort that compares keys with [<]. *)
Fixpoint insert_by {A} (key : A -> float) (x : A) (l : list A) : list A :=
  match l with
  | [] => [x]
  | y :: l' =>
      if (key y <? key x)%float then y :: insert_by key x l'
      else x :: y :: l'
  end.

Definition sort_by {A} (key : A -> float) (l : list A) : list A :=
  fold_right (insert_by key) [] l.

Section Geo.
Context {libm : Libm}.

Definition math_radians (x : float) : float := (x * degToRad)%float.
Definition math_sin : float -> Outcome float := math_1 c_sin.
Definition math_cos : float -> Outcome float := math_1 c_cos.
Definition math_asin : float -> Outcome float := math_1 c_asin.
Definition math_sqrt : float -> Outcome float := math_1 PrimFloat.sqrt.

(** [x ** 2] on floats: C's [pow], an infinite result of a finite argument
    being an [OverflowError]. *)
Definition pow2 (x : float) : Outcome float :=
  let r := c_pow x 2 in
  if PrimFloat.is_infinity r && PrimFloat.is_finite x
  then Uncaught "OverflowError: (34, 'Numerical result out of range')"
  else Ok r.

Definition haversine_m (lat1 lon1 lat2 lon2 : float) : Outcome float :=
  let R := 6371000.0%float in
  let phi1 := math_radians lat1 in
  let phi2 := math_radians lat2 in
  let dphi := math_radians (lat2 - lat1) in
  let dl := math_radians (lon2 - lon1) in
  s1 <-- math_sin (dphi / 2) ;;
  s1sq <-- pow2 s1 ;;
  c1 <-- math_cos phi1 ;;
  c2 <-- math_cos phi2 ;;
  s2 <-- math_sin (dl / 2) ;;
  s2sq <-- pow2 s2 ;;
  let a := (s1sq + c1 * c2 * s2sq)%float in
  q <-- math_sqrt a ;;
  h <-- math_asin q ;;
  Ok (2 * R * h)%float.

(** The first loop: the ids of the lots within the buffered radius. *)
Fixpoint candidate_lots (lat lng : float) (radius_m : Z) (lots : list ParkingLot.t)
  (lot_ids_in_radius : list Z) : Outcome (list Z) :=
  match lots with
  | [] => Ok lot_ids_in_radius
  | lot :: lots' =>
      d <-- haversine_m lat lng (ParkingLot.latitude lot) (ParkingLot.longitude lot) ;;
      candidate_lots lat lng radius_m lots'
        (if (d <=? float_of_int radius_m * 1.5)%float  (* slight buffer *)
         then lot_ids_in_radius ++ [ParkingLot.id lot]
         else lot_ids_in_radius)
  end.

(** The result entry of a spot at distance [d]: the spot's columns and
    ["distance_m": round(d, 2)]. *)
Definition nearby (s : ParkingSpot.t) (d : float) : SpotNearby.t :=
  SpotNearby.mk (ParkingSpot.id s) (ParkingSpot.lot_id s) (ParkingSpot.number s)
    (ParkingSpot.type s) (ParkingSpot.is_available s) (round2 d).

(** [{l.id: l for l in lots}] *)
Definition lot_map_of (lots : list ParkingLot.t) : list (Z * ParkingLot.t) :=
  fold_left (fun m l => dict_set (ParkingLot.id l) l m) lots [].

(** The second loop: attach the distance from the lot centre. *)
Fixpoint attach_distance (lat lng : float) (radius_m : Z)
  (lot_map : list (Z * ParkingLot.t)) (spots : list ParkingSpot.t)
  (results : list SpotNearby.t) : Outcome (list SpotNearby.t) :=
  match spots with
  | [] => Ok results
  | s :: spots' =>
      match dict_get (ParkingSpot.lot_id s) lot_map with
      | None => Uncaught "KeyError"
      | Some L =>
          d <-- haversine_m lat lng (ParkingLot.latitude L) (ParkingLot.longitude L) ;;
          attach_distance lat lng radius_m lot_map spots'
            (if (d <=? float_of_int radius_m)%float
             then results ++ [nearby s d]
             else results)
      end
  end.

Definition search_spots (lat lng : float) (radius_m limit : Z) (db : DB)
  : Outcome (list SpotNearby.t) :=
  (* fetch candidate lots first to reduce work *)
  let lots := parking_lot db in
  lot_ids_in_radius <-- candidate_lots lat lng radius_m lots [] ;;
  match lot_ids_in_radius with
  | [] => Ok []
  | _ :: _ =>
      let spots :=
        filter (fun s => ParkingSpot.is_available s
                         && existsb (Z.eqb (ParkingSpot.lot_id s)) lot_ids_in_radius)
               (parking_spot db) in
      results <-- attach_distance lat lng radius_m (lot_map_of lots) spots [] ;;
      Ok (firstn (Z.to_nat limit) (sort_by SpotNearby.distance_m results))
  end.

(** The query parameters: [radius_m] in 1..20000 (default 1000), [limit] in
    1..100 (default 20). *)
Definition search_query (radius_m limit : option Z) : Outcome (Z * Z) :=
  let r := match radius_m with Some r => r | None => 1000 end in
  let l := match limit with Some l => l | None => 20 end in
  if negb ((1 <=? r) && (r <=? 20000))
  then RequestValidationError "radius_m: greater than or equal to 1, less than or equal to 20000"
  else if negb ((1 <=? l) && (l <=? 100))
  then RequestValidationError "limit: greater than or equal to 1, less than or equal to 100"
  else Ok (r, l).

Definition searchSpots (lat lng : float) (radius_m limit : option Z) (db : DB)
  : Outcome (list SpotNearby.t) * DB :=
  validated (search_query radius_m limit)
            (fun q => fun s => (search_spots lat lng (fst q) (snd q) (view s), s)) db.

(** The search in one stage, as the specification words it: every available
    spot, filtered directly by the distance of its lot; then the same
    rounding, sort and truncation. *)
Fixpoint single_stage_filter (lat lng : float) (radius_m : Z) (db : DB)
  (spots : list ParkingSpot.t) : Outcome (list SpotNearby.t) :=
  match spots with
  | [] => Ok []
  | s :: spots' =>
      match get_lot (ParkingSpot.lot_id s) db with
      | None => single_stage_filter lat lng radius_m db spots'
      | Some L =>
          d <-- haversine_m lat lng (ParkingLot.latitude L) (ParkingLot.longitude L) ;;
          rest <-- single_stage_filter lat lng radius_m db spots' ;;
          Ok (if (d <=? float_of_int radius_m)%float
              then nearby s d :: rest
              else rest)
      end
  end.

Definition single_stage_search (lat lng : float) (radius_m limit : Z) (db : DB)
  : Outcome (list SpotNearby.t) :=
  results <-- single_stage_filter lat lng radius_m db
                (filter ParkingSpot.is_available (parking_spot db)) ;;
  Ok (firstn (Z.to_nat limit) (sort_by SpotNearby.distance_m results)).

(** The distance of a lot from the query point, and the lots for which it
    can be computed. *)
Definition lot_distance (lat lng : float) (L : ParkingLot.t) : Outcome float :=
  haversine_m lat lng (ParkingLot.latitude L) (ParkingLot.longitude L).

Definition computable (lat lng : float) (lots : list ParkingLot.t) : Prop :=
  forall L, In L lots -> exists d, lot_distance lat lng L = Ok d.

(** What the first loop collects: the ids of the lots within the buffer. *)
Definition is_candidate (lat lng : float) (radius_m : Z) (lots : list ParkingLot.t)
  (k : Z) : Prop :=
  exists L d, In L lots /\ ParkingLot.id L = k /\ lot_distance lat lng L = Ok d
              /\ (d <=? float_of_int radius_m * 1.5)%float = true.

(** What the second loop appends: the entries of the spots whose lot is
    within the radius. *)
Definition within_radius (lat lng : float) (radius_m : Z)
  (lot_of : Z -> option ParkingLot.t) (spots : list ParkingSpot.t)
  (x : SpotNearby.t) : Prop :=
  exists s L d, In s spots /\ lot_of (ParkingSpot.lot_id s) = Some L
                /\ lot_distance lat lng L = Ok d
                /\ (d <=? float_of_int radius_m)%float = true
                /\ x = nearby s d.

End Geo.

(* ------------------------------------------------------------------ *)
(** ** Derived notions used by the properties *)

(** The row a successful createReservation returns, and the row the overlap
    query finds. *)
Definition reservation_of (payload : ReserveCreate.t) (db : DB) : Reservation.t :=
  Reservation.mk (reservation_id_seq db + 1) (ReserveCreate.spot_id payload)
    (datetime.isoformat (ReserveCreate.start_time payload))
    (datetime.isoformat (ReserveCreate.end_time payload))
    (ReserveCreate.vehicle_plate payload) "active".

Definition overlapping (payload : ReserveCreate.t) (db : DB) : option Reservation.t :=
  find (overlap_filter (ReserveCreate.spot_id payload)
          (datetime.isoformat (ReserveCreate.start_time payload))
          (datetime.isoformat (ReserveCreate.end_time payload)))
       (reservation db).


(** An active reservation of a spot. *)
Definition active_on (db : DB) (spot_id : Z) (r : Reservation.t) : Prop :=
  In r (reservation db) /\ Reservation.spot_id r = spot_id
  /\ Reservation.status r = "active"%string.

(** The availability invariant as the specification states it. *)
Definition availability_iff_active (db : DB) : Prop :=
  forall s, In s (parking_spot db) ->
    (ParkingSpot.is_available s = false <-> exists r, active_on db (ParkingSpot.id s) r).

(** The direction of it that the code keeps. *)
Definition unavailable_has_active (db : DB) : Prop :=
  forall s, In s (parking_spot db) -> ParkingSpot.is_available s = false ->
    exists r, active_on db (ParkingSpot.id s) r.

Definition at_most_one_active (db : DB) : Prop :=
  forall spot_id r1 r2, active_on db spot_id r1 -> active_on db spot_id r2 ->
    Reservation.id r1 = Reservation.id r2.

(** Half-open overlap of two stored windows: [s1 < e2] and [s2 < e1], on
    the ISO strings as the database compares them. *)
Definition windows_overlap (r1 r2 : Reservation.t) : bool :=
  String.ltb (Reservation.start_time r1) (Reservation.end_time r2)
  && String.ltb (Reservation.start_time r2) (Reservation.end_time r1).

Definition active_windows_disjoint (db : DB) : Prop :=
  forall spot_id r1 r2, active_on db spot_id r1 -> active_on db spot_id r2 ->
    Reservation.id r1 <> Reservation.id r2 -> windows_overlap r1 r2 = false.

(** The overlap test as the specification states it, for a stored
    reservation and a request: [existing.start < new.end] and
    [existing.end > new.start]. *)
Definition spec_overlap (existing : Reservation.t) (new : ReserveCreate.t) : bool :=
  String.ltb (Reservation.start_time existing)
             (datetime.isoformat (ReserveCreate.end_time new))
  && String.ltb (datetime.isoformat (ReserveCreate.start_time new))
                (Reservation.end_time existing).

(** Primary keys: distinct, and not beyond the sequence that issued them. *)
Definition keys_ok {A} (key : A -> Z) (rows : list A) (last : Z) : Prop :=
  NoDup (map key rows) /\ forall x, In x rows -> key x <= last.

Definition primary_keys_ok (db : DB) : Prop :=
  keys_ok ParkingLot.id (parking_lot db) (parking_lot_id_seq db)
  /\ keys_ok ParkingSpot.id (parking_spot db) (parking_spot_id_seq db)
  /\ keys_ok Reservation.id (reservation db) (reservation_id_seq db).

(** The database changes a request can commit. *)
Inductive transition (db : DB) : DB -> Prop :=
| t_lot n la lo : transition db (add_lot n la lo db)
| t_spot l n ty : transition db (add_spot l n ty true db)
| t_release i : transition db (set_spot_available i true db)
| t_reserve p :
    overlapping p db = None ->
    transition db
      (add_reservation (ReserveCreate.spot_id p)
         (datetime.isoformat (ReserveCreate.start_time p))
         (datetime.isoformat (ReserveCreate.end_time p))
         (ReserveCreate.vehicle_plate p) "active"
         (set_spot_available (ReserveCreate.spot_id p) false db))
| t_end r :
    In r (reservation db) -> Reservation.status r = "active"%string ->
    transition db
      (set_spot_available (Reservation.spot_id r) true
         (set_reservation_status (Reservation.id r) "ended" db)).

(** Comparison of result entries by their key. *)
Definition key_le {A} (key : A -> float) (a b : A) : Prop :=
  (key a <=? key b)%float = true.

(** A radius is below its buffered value; the check of one block of a
    hundred radii. *)
Definition buffer_ok (r : Z) : bool :=
  (float_of_int r <=? float_of_int r * 1.5)%float.

Definition buffer_ok_block (a : nat) : bool :=
  forallb (fun b => buffer_ok (100 * Z.of_nat a + Z.of_nat b + 1)) (seq 0 100).

(* ------------------------------------------------------------------ *)
(** ** A worked scenario: one lot, one spot X, reservation A 10:00-11:00 *)

Definition at_hour (h : Z) : datetime.t := datetime.mk 2024 1 1 h 0 0 0 None.

Definition request (h1 h2 : Z) : ReserveCreate.t :=
  ReserveCreate.mk 1 (at_hour h1) (at_hour h2) "KA01AB1234".

Definition setup : list Request :=
  [CreateLot (LotCreate.mk "Central" 0 0); CreateSpot 1 (SpotCreate.mk_body "X" None)].

Definition db_setup : DB := steps setup empty_db.

Definition db_A : DB := steps (setup ++ [CreateReservation (request 10 11)]) empty_db.

Definition db_released : DB :=
  steps (setup ++ [CreateReservation (request 10 11); ReleaseSpot 1]) empty_db.

Definition db_two : DB :=
  steps (setup ++ [CreateReservation (request 10 11); CreateReservation (request 12 13)])
        empty_db.

Definition reservation_A : Reservation.t :=
  Reservation.mk 1 1 "2024-01-01T10:00:00" "2024-01-01T11:00:00" "KA01AB1234" "active".

(** An instance of the C library that is exact at zero and a small-angle
    approximation elsewhere, for evaluating the search on examples. *)
Definition small_angle_libm : Libm := {|
  c_sin := fun x => x;
  c_cos := fun x => (1 - x * x / 2)%float;
  c_asin := fun x => x;
  c_pow := fun x _ => (x * x)%float;
  round2 := fun x => x
|}.

(** A second instance: the first terms of the series of sin, cos and asin,
    and rounding to the nearest hundredth, for evaluating the search on
    distances that are not zero. *)
Definition series_libm : Libm := {|
  c_sin := fun x => (x - x * x * x / 6 + x * x * x * x * x / 120)%float;
  c_cos := fun x => (1 - x * x / 2 + x * x * x * x / 24)%float;
  c_asin := fun x => (x + x * x * x / 6 + 3 * x * x * x * x * x / 40)%float;
  c_pow := fun x _ => (x * x)%float;
  round2 := fun x =>
    let y := ((x * 100 + 0x1p+52 - 0x1p+52) / 100)%float in
    if PrimFloat.is_nan y then x else y
|}.

(** A second scenario: four lots on the equator, at 0, about 869 m, about
    1194 m and about 3475 m east of the point (0, 0); the labels A1 and A2
    are used in several lots; a second A1 in lot 2 is refused; spot 2 is
    reserved. *)
Definition city : list Request :=
  [CreateLot (LotCreate.mk "North" 0 0.0078125);
   CreateLot (LotCreate.mk "Central" 0 0);
   CreateLot (LotCreate.mk "East" 0 0.0107421875);
   CreateLot (LotCreate.mk "Far" 0 0.03125);
   CreateSpot 1 (SpotCreate.mk_body "A1" None);
   CreateSpot 1 (SpotCreate.mk_body "A2" (Some "ev"%string));
   CreateSpot 2 (SpotCreate.mk_body "A1" (Some "bike"%string));
   CreateSpot 2 (SpotCreate.mk_body "A2" None);
   CreateSpot 3 (SpotCreate.mk_body "A1" None);
   CreateSpot 4 (SpotCreate.mk_body "A1" None);
   CreateSpot 2 (SpotCreate.mk_body "A1" None);
   CreateReservation (ReserveCreate.mk 2 (at_hour 10) (at_hour 11) "MH12XY0001")].

Definition db_city : DB := steps city empty_db.

(** What a search from (0, 0) with radius 1000 finds there: the two spots of
    the lot at the point, then the available spot of the lot 868.71 m away. *)
Definition city_nearby : list SpotNearby.t :=
  [SpotNearby.mk 3 2 "A1" "bike" true 0;
   SpotNearby.mk 4 2 "A2" "car" true 0;
   SpotNearby.mk 1 1 "A1" "car" true 0x1.b25ae147ae148p+9].

(** Case analysis on the comparisons inside [SFcompare]. *)
Ltac sf_compare_cases :=
  repeat match goal with
  | |- context [Z.compare ?a ?b] => destruct (Z.compare_spec a b)
  | |- context [Pos.compare_cont Eq ?a ?b] =>
      change (Pos.compare_cont Eq a b) with (Pos.compare a b);
      destruct (Pos.compare_spec a b)
  | H : context [Z.compare ?a ?b] |- _ => destruct (Z.compare_spec a b)
  | H : context [Pos.compare_cont Eq ?a ?b] |- _ =>
      change (Pos.compare_cont Eq a b) with (Pos.compare a b) in H;
      destruct (Pos.compare_spec a b)
  end.

(* ------------------------------------------------------------------ *)
(** ** Notions used by the properties of histories *)

(** The columns of a row that no handler assigns after the insert. *)
Definition spot_core (s : ParkingSpot.t) : Z * Z * string * string :=
  (ParkingSpot.id s, ParkingSpot.lot_id s, ParkingSpot.number s, ParkingSpot.type s).

Definition reservation_core (r : Reservation.t) : Z * Z * string * string * string :=
  (Reservation.id r, Reservation.spot_id r, Reservation.start_time r,
   Reservation.end_time r, Reservation.vehicle_plate r).

(** Foreign keys: every spot names a lot of the table, every reservation a
    spot of the table. *)
Definition foreign_keys_ok (db : DB) : Prop :=
  (forall s, In s (parking_spot db) -> get_lot (ParkingSpot.lot_id s) db <> None)
  /\ (forall r, In r (reservation db) -> get_spot (Reservation.spot_id r) db <> None).

(** Spot numbers are not repeated inside a lot. *)
Definition numbers_unique_per_lot (db : DB) : Prop :=
  forall s1 s2, In s1 (parking_spot db) -> In s2 (parking_spot db) ->
    ParkingSpot.lot_id s1 = ParkingSpot.lot_id s2 ->
    ParkingSpot.number s1 = ParkingSpot.number s2 ->
    s1 = s2.

Definition status_known (db : DB) : Prop :=
  forall r, In r (reservation db) ->
    Reservation.status r = "active"%string \/ Reservation.status r = "ended"%string.

(** [db'] extends [db]: the lots of [db] are the first lots of [db'], and so
    are its spots and reservations up to the assigned columns. *)
Definition extends (db db' : DB) : Prop :=
  (exists l, parking_lot db' = parking_lot db ++ l)
  /\ (exists l, map spot_core (parking_spot db')
                = map spot_core (parking_spot db) ++ l)
  /\ (exists l, map reservation_core (reservation db')
                = map reservation_core (reservation db) ++ l).

(** A request as Python can hold it: the datetimes of a reservation request
    are in the ranges of [datetime.datetime]. *)
Definition wf_request (rq : Request) : Prop :=
  match rq with
  | CreateReservation p =>
      datetime.wf (ReserveCreate.start_time p) /\ datetime.wf (ReserveCreate.end_time p)
  | _ => True
  end.

(** A reservation request whose two datetimes are valid and carry the UTC
    offset [tz] (in minutes; [None] for naive datetimes). *)
Definition uniform_offset (tz : option Z) (rq : Request) : Prop :=
  match rq with
  | CreateReservation p =>
      datetime.wf (ReserveCreate.start_time p) /\ datetime.wf (ReserveCreate.end_time p)
      /\ datetime.tzinfo (ReserveCreate.start_time p) = tz
      /\ datetime.tzinfo (ReserveCreate.end_time p) = tz
  | _ => True
  end.

(** The stored window of [r] read back as two datetimes of offset [tz]. *)
Definition window_of (tz : option Z) (r : Reservation.t) (s e : datetime.t) : Prop :=
  datetime.wf s /\ datetime.wf e
  /\ datetime.tzinfo s = tz /\ datetime.tzinfo e = tz
  /\ Reservation.start_time r = datetime.isoformat s
  /\ Reservation.end_time r = datetime.isoformat e.

(** Half-open overlap of two windows in time: [s1 < e2] and [s2 < e1]. *)
Definition overlap_in_time (s1 e1 s2 e2 : datetime.t) : bool :=
  datetime.ltb s1 e2 && datetime.ltb s2 e1.

Definition active_windows_disjoint_in_time (tz : option Z) (db : DB) : Prop :=
  forall spot_id r1 r2, active_on db spot_id r1 -> active_on db spot_id r2 ->
    Reservation.id r1 <> Reservation.id r2 ->
    exists s1 e1 s2 e2,
      window_of tz r1 s1 e1 /\ window_of tz r2 s2 e2
      /\ datetime.ltb s1 e1 = true /\ datetime.ltb s2 e2 = true
      /\ overlap_in_time s1 e1 s2 e2 = false.

(** A stored window that comes from two datetimes, the first before the
    second in time; its strings are in that order when the two datetimes
    carry the same UTC offset (or none). *)
Definition window_ok (r : Reservation.t) : Prop :=
  exists s e, datetime.wf s /\ datetime.wf e
              /\ Reservation.start_time r = datetime.isoformat s
              /\ Reservation.end_time r = datetime.isoformat e
              /\ datetime.ltb s e = true
              /\ (datetime.tzinfo s = datetime.tzinfo e ->
                  String.ltb (Reservation.start_time r) (Reservation.end_time r) = true).

(* ================================================================== *)
(** * Properties *)

(* ------------------------------------------------------------------ *)
(** ** What each operation computes *)

(** The handlers unfolded: the checks in the order the code makes them and
    the one database each path commits. *)

(** A comparison of two datetimes answers, or raises TypeError. *)
Lemma datetime_le_cases (a b : datetime.t) :
  datetime.le a b = Ok true \/ datetime.le a b = Ok false
  \/ datetime.le a b
     = Uncaught "TypeError: can't compare offset-naive and offset-aware datetimes".
Proof.
  unfold datetime.le. destruct (datetime.cmp a b) as [[| |]|]; auto.
Qed.

Lemma createReservation_unfold (p : ReserveCreate.t) (db : DB) :
  createReservation p db =
  match datetime.le (ReserveCreate.end_time p) (ReserveCreate.start_time p) with
  | Ok true => (RequestValidationError "end_time must be after start_time", db)
  | Ok false =>
      match get_spot (ReserveCreate.spot_id p) db with
      | None => (HTTPException 404 "Spot not found", db)
      | Some spot =>
          match overlapping p db with
          | Some _ =>
              (HTTPException 409 "Spot already reserved for the selected time range", db)
          | None =>
              if has_nul (ReserveCreate.vehicle_plate p)
              then (Uncaught
                      "ValueError: A string literal cannot contain NUL (0x00) characters.",
                    db)
              else
                (Ok (reservation_of p db),
                 add_reservation (ReserveCreate.spot_id p)
                   (datetime.isoformat (ReserveCreate.start_time p))
                   (datetime.isoformat (ReserveCreate.end_time p))
                   (ReserveCreate.vehicle_plate p) "active"
                   (set_spot_available (ParkingSpot.id spot) false db))
          end
      end
  | HTTPException c d => (HTTPException c d, db)
  | RequestValidationError d => (RequestValidationError d, db)
  | Uncaught e => (Uncaught e, db)
  end.
Proof.
  unfold createReservation, ReserveCreate.validate, ReserveCreate.check_order, overlapping.
  destruct (datetime.le _ _) as [[|]| | |]; try reflexivity.
  unfold validated, run, create_reservation, reservation_of.
  cbn [ReserveCreate.spot_id ReserveCreate.start_time ReserveCreate.end_time
       ReserveCreate.vehicle_plate].
  generalize (datetime.isoformat (ReserveCreate.start_time p))
             (datetime.isoformat (ReserveCreate.end_time p)).
  intros st et. unfold bind, query, raise; cbn.
  destruct (get_spot _ db) as [spot|]; [|reflexivity]; cbn.
  destruct (find _ (reservation db)); [reflexivity|].
  unfold flush_text. cbn [existsb view]. rewrite orb_false_r.
  destruct (has_nul (ReserveCreate.vehicle_plate p)); reflexivity.
Qed.

Lemma endReservation_unfold (i : Z) (db : DB) :
  endReservation i db =
  match get_reservation i db with
  | None => (HTTPException 404 "Reservation not found", db)
  | Some r =>
      if negb (String.eqb (Reservation.status r) "active")
      then (HTTPException 400 "Reservation already ended or cancelled", db)
      else (Ok (Reservation.set_status "ended" r),
            match get_spot (Reservation.spot_id r)
                    (set_reservation_status (Reservation.id r) "ended" db) with
            | Some spot =>
                set_spot_available (ParkingSpot.id spot) true
                  (set_reservation_status (Reservation.id r) "ended" db)
            | None => set_reservation_status (Reservation.id r) "ended" db
            end)
  end.
Proof.
  unfold endReservation, run, end_reservation, bind, query, raise; cbn.
  destruct (get_reservation i db) as [r|]; [|reflexivity]; cbn.
  destruct (String.eqb (Reservation.status r) "active"); cbn; [|reflexivity].
  unfold update; cbn.
  destruct (find _ (parking_spot db)); reflexivity.
Qed.

Lemma releaseSpot_unfold (i : Z) (db : DB) :
  releaseSpot i db =
  match get_spot i db with
  | None => (HTTPException 404 "Spot not found", db)
  | Some spot =>
      (Ok (ParkingSpot.set_is_available true spot),
       set_spot_available (ParkingSpot.id spot) true db)
  end.
Proof.
  unfold releaseSpot, run, release_spot, bind, query, raise; cbn.
  destruct (get_spot i db); reflexivity.
Qed.

Lemma createLot_unfold (p : LotCreate.t) (db : DB) :
  createLot p db =
  if has_nul (LotCreate.name p)
  then (Uncaught "ValueError: A string literal cannot contain NUL (0x00) characters.", db)
  else
    (Ok (ParkingLot.mk (parking_lot_id_seq db + 1) (LotCreate.name p)
           (LotCreate.latitude p) (LotCreate.longitude p)),
     add_lot (LotCreate.name p) (LotCreate.latitude p) (LotCreate.longitude p) db).
Proof.
  unfold createLot, validated, run, create_lot, insert_lot, bind, query, update,
    flush_text, commit, ret.
  cbn [view committed existsb]. rewrite orb_false_r.
  destruct (has_nul (LotCreate.name p)); reflexivity.
Qed.

Lemma createSpot_unfold (l : Z) (b : SpotCreate.body) (db : DB) :
  createSpot l b db =
  match SpotCreate.validate b with
  | Ok p =>
      match get_lot l db with
      | None => (HTTPException 404 "Lot not found", db)
      | Some _ =>
          match find (same_number_in_lot l (SpotCreate.number p)) (parking_spot db) with
          | Some _ => (HTTPException 409 "Spot number already exists in this lot", db)
          | None =>
              (Ok (ParkingSpot.mk (parking_spot_id_seq db + 1) l (SpotCreate.number p)
                     (SpotCreate.type p) true),
               add_spot l (SpotCreate.number p) (SpotCreate.type p) true db)
          end
      end
  | HTTPException c d => (HTTPException c d, db)
  | RequestValidationError d => (RequestValidationError d, db)
  | Uncaught e => (Uncaught e, db)
  end.
Proof.
  unfold createSpot, validated.
  destruct (SpotCreate.validate b) as [p| | |]; try reflexivity.
  unfold run, create_spot, bind, query, raise; cbn.
  destruct (get_lot l db); [|reflexivity]; cbn.
  destruct (find _ (parking_spot db)); reflexivity.
Qed.

(** [db.get] returns a row of the table, with the key asked for. *)
Lemma get_spot_Some (i : Z) (db : DB) (s : ParkingSpot.t) :
  get_spot i db = Some s -> In s (parking_spot db) /\ ParkingSpot.id s = i.
Proof.
  unfold get_spot; intros H. apply find_some in H. destruct H as [H1 H2].
  split; [assumption|]. now apply Z.eqb_eq.
Qed.

Lemma get_reservation_Some (i : Z) (db : DB) (r : Reservation.t) :
  get_reservation i db = Some r -> In r (reservation db) /\ Reservation.id r = i.
Proof.
  unfold get_reservation; intros H. apply find_some in H. destruct H as [H1 H2].
  split; [assumption|]. now apply Z.eqb_eq.
Qed.

Lemma get_lot_Some (i : Z) (db : DB) (l : ParkingLot.t) :
  get_lot i db = Some l -> In l (parking_lot db) /\ ParkingLot.id l = i.
Proof.
  unfold get_lot; intros H. apply find_some in H. destruct H as [H1 H2].
  split; [assumption|]. now apply Z.eqb_eq.
Qed.

(** What a successful createReservation has checked, and what it did. *)
Lemma createReservation_Ok (p : ReserveCreate.t) (db db' : DB) (r : Reservation.t) :
  createReservation p db = (Ok r, db') ->
  datetime.le (ReserveCreate.end_time p) (ReserveCreate.start_time p) = Ok false
  /\ (exists spot, get_spot (ReserveCreate.spot_id p) db = Some spot)
  /\ overlapping p db = None
  /\ has_nul (ReserveCreate.vehicle_plate p) = false
  /\ r = reservation_of p db
  /\ db' = add_reservation (ReserveCreate.spot_id p)
             (datetime.isoformat (ReserveCreate.start_time p))
             (datetime.isoformat (ReserveCreate.end_time p))
             (ReserveCreate.vehicle_plate p) "active"
             (set_spot_available (ReserveCreate.spot_id p) false db).
Proof.
  rewrite createReservation_unfold.
  destruct (datetime.le _ _) as [[|]| | |]; try discriminate.
  destruct (get_spot _ db) as [spot|] eqn:G; [|discriminate].
  destruct (overlapping p db); [discriminate|].
  destruct (has_nul _); [discriminate|].
  intros [= <- <-]. destruct (get_spot_Some _ _ _ G) as [_ ->].
  repeat split. now exists spot.
Qed.

(* ------------------------------------------------------------------ *)
(** ** Registries *)

(** C8 (amended). createLot validates neither the coordinates nor the name.
    For every latitude and longitude and every name the database can store
    (a text without the NUL character) it commits exactly one new lot with
    these values under the next id and returns it.  A name holding NUL is
    refused by the database driver: the request ends in an uncaught error
    (500) and nothing is stored.  No request is answered ValidationError. *)
Theorem createLot_no_validation (p : LotCreate.t) (db : DB) :
  (has_nul (LotCreate.name p) = false ->
   createLot p db =
     (Ok (ParkingLot.mk (parking_lot_id_seq db + 1) (LotCreate.name p)
            (LotCreate.latitude p) (LotCreate.longitude p)),
      mkDB (parking_lot db ++
              [ParkingLot.mk (parking_lot_id_seq db + 1) (LotCreate.name p)
                 (LotCreate.latitude p) (LotCreate.longitude p)])
           (parking_spot db) (reservation db)
           (parking_lot_id_seq db + 1) (parking_spot_id_seq db) (reservation_id_seq db)))
  /\ (has_nul (LotCreate.name p) = true ->
      (exists e, fst (createLot p db) = Uncaught e)
      /\ error_kind (fst (createLot p db)) = Some OtherError
      /\ snd (createLot p db) = db)
  /\ error_kind (fst (createLot p db)) <> Some ValidationError.
Proof.
  rewrite createLot_unfold.
  destruct (has_nul (LotCreate.name p)); (split; [|split]);
    try discriminate; try reflexivity.
  intros _. split; [eexists; reflexivity|split; reflexivity].
Qed.

Lemma createLot_no_validation_witness :
  createLot (LotCreate.mk "Central" 0 0) empty_db
  = (Ok (ParkingLot.mk 1 "Central" 0 0), mkDB [ParkingLot.mk 1 "Central" 0 0] [] [] 1 0 0)
  /\ error_kind (fst (createLot (LotCreate.mk (String "000" "Central") 0 0) empty_db))
     = Some OtherError
  /\ snd (createLot (LotCreate.mk (String "000" "Central") 0 0) empty_db) = empty_db.
Proof.
  split.
  - apply (proj1 (createLot_no_validation (LotCreate.mk "Central" 0 0) empty_db)).
    reflexivity.
  - apply (proj1 (proj2 (createLot_no_validation
                           (LotCreate.mk (String "000" "Central") 0 0) empty_db))).
    reflexivity.
Defined.

(** C8 as stated fails: latitude 91, longitude 181 and an empty name are
    accepted, and the lot is stored. *)
Lemma createLot_out_of_range_accepted :
  createLot (LotCreate.mk "" 91 181) empty_db =
    (Ok (ParkingLot.mk 1 "" 91 181),
     mkDB [ParkingLot.mk 1 "" 91 181] [] [] 1 0 0)
  /\ (91 <=? 90)%float = false
  /\ (181 <=? 180)%float = false
  /\ error_kind (fst (createLot (LotCreate.mk "" 91 181) empty_db)) <> Some ValidationError.
Proof. repeat split; try reflexivity. discriminate. Qed.




(* ------------------------------------------------------------------ *)
(** ** Row updates and lookups *)

Lemma mark_spot_id (i : Z) (b : bool) (s : ParkingSpot.t) :
  ParkingSpot.id (mark_spot i b s) = ParkingSpot.id s.
Proof. unfold mark_spot. now destruct (ParkingSpot.id s =? i). Qed.

Lemma mark_reservation_id (i : Z) (st : string) (r : Reservation.t) :
  Reservation.id (mark_reservation i st r) = Reservation.id r.
Proof. unfold mark_reservation. now destruct (Reservation.id r =? i). Qed.

Lemma mark_reservation_spot (i : Z) (st : string) (r : Reservation.t) :
  Reservation.spot_id (mark_reservation i st r) = Reservation.spot_id r.
Proof. unfold mark_reservation. now destruct (Reservation.id r =? i). Qed.

Lemma parking_spot_set_spot_available (i : Z) (b : bool) (db : DB) :
  parking_spot (set_spot_available i b db) = map (mark_spot i b) (parking_spot db).
Proof. reflexivity. Qed.

Lemma reservation_set_reservation_status (i : Z) (st : string) (db : DB) :
  reservation (set_reservation_status i st db) = map (mark_reservation i st) (reservation db).
Proof. reflexivity. Qed.

Lemma find_map_same_key {A} (key : A -> Z) (f : A -> A) (j : Z) (l : list A) :
  (forall x, key (f x) = key x) ->
  find (fun x => key x =? j) (map f l) = option_map f (find (fun x => key x =? j) l).
Proof.
  intros Hk. induction l as [|x l IH]; [reflexivity|].
  cbn. rewrite Hk. destruct (key x =? j); [reflexivity|exact IH].
Qed.

Lemma get_spot_set_spot_available (j i : Z) (b : bool) (db : DB) :
  get_spot j (set_spot_available i b db) = option_map (mark_spot i b) (get_spot j db).
Proof.
  unfold get_spot. rewrite parking_spot_set_spot_available.
  apply (find_map_same_key ParkingSpot.id). apply mark_spot_id.
Qed.

Lemma get_reservation_set_reservation_status (j i : Z) (st : string) (db : DB) :
  get_reservation j (set_reservation_status i st db)
  = option_map (mark_reservation i st) (get_reservation j db).
Proof.
  unfold get_reservation. rewrite reservation_set_reservation_status.
  apply (find_map_same_key Reservation.id). apply mark_reservation_id.
Qed.

Lemma map_mark_spot_absent (i : Z) (b : bool) (l : list ParkingSpot.t) :
  find (fun s => ParkingSpot.id s =? i) l = None -> map (mark_spot i b) l = l.
Proof.
  induction l as [|x l IH]; [reflexivity|]. cbn. unfold mark_spot at 1.
  destruct (ParkingSpot.id x =? i); [discriminate|]. intros H. now rewrite IH.
Qed.

Lemma set_spot_available_absent (i : Z) (b : bool) (db : DB) :
  get_spot i db = None -> set_spot_available i b db = db.
Proof.
  intros G. destruct db as [ls ss rs a c d]. unfold set_spot_available. cbn.
  f_equal. apply (map_mark_spot_absent i b). exact G.
Qed.

(* ------------------------------------------------------------------ *)
(** ** Reservation engine *)

Lemma overlapping_None (p : ReserveCreate.t) (db : DB) :
  overlapping p db = None <->
  (forall e, In e (reservation db) ->
     Reservation.spot_id e = ReserveCreate.spot_id p ->
     Reservation.status e = "active"%string ->
     String.leb (Reservation.start_time e)
                (datetime.isoformat (ReserveCreate.end_time p)) = true ->
     String.ltb (datetime.isoformat (ReserveCreate.start_time p))
                (Reservation.end_time e) = true -> False).
Proof.
  unfold overlapping. split.
  - intros F e He Hs Ha H1 H2. pose proof (find_none _ _ F e He) as N.
    unfold overlap_filter in N.
    apply Z.eqb_eq in Hs. apply String.eqb_eq in Ha.
    rewrite Hs, Ha, H1, H2 in N. discriminate.
  - intros H. destruct (find _ (reservation db)) as [e|] eqn:F; [|reflexivity].
    exfalso. apply find_some in F. destruct F as [He Hf].
    unfold overlap_filter in Hf.
    apply andb_true_iff in Hf. destruct Hf as [Hf H34].
    apply andb_true_iff in Hf. destruct Hf as [Hs Ha].
    apply andb_true_iff in H34. destruct H34 as [H1 H2].
    apply (H e He); [now apply Z.eqb_eq|now apply String.eqb_eq|exact H1|exact H2].
Qed.

(** C2. createReservation: [end <= start] is a ValidationError; otherwise an
    absent spot is NotFound; otherwise, when no active reservation of the
    spot is matched by the overlap query and the plate is a text the
    database stores, the request succeeds: exactly one reservation is
    appended, with the next id, status active and the spot, window and plate
    of the request, the availability of that spot is set to false, nothing
    else is touched, and the new row is returned.  Every success has this
    form, and every failure leaves the database as it was. *)
Theorem createReservation_contract (p : ReserveCreate.t) (db : DB) :
  let st := ReserveCreate.start_time p in
  let et := ReserveCreate.end_time p in
  let new := Reservation.mk (reservation_id_seq db + 1) (ReserveCreate.spot_id p)
               (datetime.isoformat st) (datetime.isoformat et)
               (ReserveCreate.vehicle_plate p) "active" in
  (datetime.le et st = Ok true ->
     error_kind (fst (createReservation p db)) = Some ValidationError) /\
  (datetime.le et st = Ok false -> get_spot (ReserveCreate.spot_id p) db = None ->
     error_kind (fst (createReservation p db)) = Some NotFound) /\
  (datetime.le et st = Ok false ->
   get_spot (ReserveCreate.spot_id p) db <> None ->
   (forall e, In e (reservation db) ->
      Reservation.spot_id e = ReserveCreate.spot_id p ->
      Reservation.status e = "active"%string ->
      String.leb (Reservation.start_time e) (datetime.isoformat et) = true ->
      String.ltb (datetime.isoformat st) (Reservation.end_time e) = true -> False) ->
   has_nul (ReserveCreate.vehicle_plate p) = false ->
     createReservation p db =
       (Ok new,
        mkDB (parking_lot db)
             (map (mark_spot (ReserveCreate.spot_id p) false) (parking_spot db))
             (reservation db ++ [new])
             (parking_lot_id_seq db) (parking_spot_id_seq db)
             (reservation_id_seq db + 1))) /\
  (forall r db', createReservation p db = (Ok r, db') ->
     r = new /\
     Reservation.id r = reservation_id_seq db + 1 /\
     Reservation.spot_id r = ReserveCreate.spot_id p /\
     Reservation.start_time r = datetime.isoformat st /\
     Reservation.end_time r = datetime.isoformat et /\
     Reservation.vehicle_plate r = ReserveCreate.vehicle_plate p /\
     Reservation.status r = "active"%string /\
     reservation db' = reservation db ++ [r] /\
     parking_spot db' = map (mark_spot (ReserveCreate.spot_id p) false) (parking_spot db) /\
     (exists s, get_spot (ReserveCreate.spot_id p) db' = Some s
                /\ ParkingSpot.is_available s = false) /\
     parking_lot db' = parking_lot db) /\
  (forall o db', createReservation p db = (o, db') -> error_kind o <> None -> db' = db).
Proof.
  intros st et new. rewrite createReservation_unfold. fold st et.
  split; [|split; [|split; [|split]]].
  - intros H. now rewrite H.
  - intros H H0. now rewrite H, H0.
  - intros H G Hfree Hnul. rewrite H.
    destruct (get_spot (ReserveCreate.spot_id p) db) as [spot|] eqn:G0; [|congruence].
    apply overlapping_None in Hfree. rewrite Hfree, Hnul.
    destruct (get_spot_Some _ _ _ G0) as [_ Hid]. rewrite Hid. reflexivity.
  - intros r db'. destruct (datetime.le et st) as [[|]| | |]; try discriminate.
    destruct (get_spot (ReserveCreate.spot_id p) db) as [spot|] eqn:G; [|discriminate].
    destruct (overlapping p db); [discriminate|].
    destruct (has_nul _); [discriminate|].
    intros E. injection E as <- <-.
    destruct (get_spot_Some _ _ _ G) as [_ Hid]. rewrite Hid.
    repeat split.
    exists (mark_spot (ReserveCreate.spot_id p) false spot). split.
    + unfold get_spot in *. cbn [parking_spot add_reservation set_spot_available].
      rewrite (find_map_same_key ParkingSpot.id); [now rewrite G|apply mark_spot_id].
    + unfold mark_spot. rewrite Hid, Z.eqb_refl. reflexivity.
  - intros o db'. destruct (datetime.le et st) as [[|]| | |]; try (now intros [= <- <-]).
    destruct (get_spot (ReserveCreate.spot_id p) db); [|now intros [= <- <-]].
    destruct (overlapping p db); [now intros [= <- <-]|].
    destruct (has_nul _); [now intros [= <- <-]|].
    intros [= <- <-] H. now contradiction H.
Qed.

Lemma createReservation_contract_witness :
  createReservation (request 12 13) db_A
  = (Ok (Reservation.mk 2 1 "2024-01-01T12:00:00" "2024-01-01T13:00:00"
           "KA01AB1234" "active"),
     db_two).
Proof.
  apply (proj1 (proj2 (proj2 (createReservation_contract (request 12 13) db_A)))).
  - reflexivity.
  - vm_compute. discriminate.
  - intros e He _ _ _ L. vm_compute in He. destruct He as [<-|[]].
    vm_compute in L. discriminate.
  - reflexivity.
Defined.

Lemma endReservation_active (i : Z) (db : DB) (r : Reservation.t) :
  get_reservation i db = Some r -> Reservation.status r = "active"%string ->
  endReservation i db =
    (Ok (Reservation.set_status "ended" r),
     set_spot_available (Reservation.spot_id r) true
       (set_reservation_status i "ended" db)).
Proof.
  intros H Hs. destruct (get_reservation_Some _ _ _ H) as [_ Hid].
  rewrite endReservation_unfold, H.
  apply String.eqb_eq in Hs. rewrite Hs. cbn [negb]. rewrite Hid. f_equal.
  destruct (get_spot _ _) as [spot|] eqn:G.
  - destruct (get_spot_Some _ _ _ G) as [_ Hsp]. now rewrite Hsp.
  - symmetry. now apply set_spot_available_absent.
Qed.

(** C5. endReservation: an absent reservation is NotFound; a status other
    than active is InvalidState; otherwise the reservation becomes ended,
    the owning spot becomes available, the ended reservation is returned,
    and a second call on the same id is InvalidState and changes nothing. *)
Theorem endReservation_contract (i : Z) (db : DB) :
  (get_reservation i db = None ->
     error_kind (fst (endReservation i db)) = Some NotFound
     /\ snd (endReservation i db) = db) /\
  (forall r, get_reservation i db = Some r -> Reservation.status r <> "active"%string ->
     error_kind (fst (endReservation i db)) = Some InvalidState
     /\ snd (endReservation i db) = db) /\
  (forall r, get_reservation i db = Some r -> Reservation.status r = "active"%string ->
     let db' := snd (endReservation i db) in
     fst (endReservation i db) = Ok (Reservation.set_status "ended" r)
     /\ get_reservation i db' = Some (Reservation.set_status "ended" r)
     /\ reservation db' = map (mark_reservation i "ended") (reservation db)
     /\ parking_spot db' = map (mark_spot (Reservation.spot_id r) true) (parking_spot db)
     /\ (forall s, In s (parking_spot db') ->
           ParkingSpot.id s = Reservation.spot_id r -> ParkingSpot.is_available s = true)
     /\ parking_lot db' = parking_lot db
     /\ error_kind (fst (endReservation i db')) = Some InvalidState
     /\ snd (endReservation i db') = db').
Proof.
  split; [|split].
  - intros H. rewrite endReservation_unfold, H. split; reflexivity.
  - intros r H Hs. rewrite endReservation_unfold, H.
    apply String.eqb_neq in Hs. rewrite Hs. split; reflexivity.
  - intros r H Hs db'.
    destruct (get_reservation_Some _ _ _ H) as [_ Hid].
    pose proof (endReservation_active i db r H Hs) as E.
    assert (G' : get_reservation i db' = Some (Reservation.set_status "ended" r)).
    { unfold db'. rewrite E. cbn [snd]. unfold get_reservation.
      cbn [reservation set_spot_available].
      fold (get_reservation i (set_reservation_status i "ended" db)).
      rewrite get_reservation_set_reservation_status, H. cbn.
      unfold mark_reservation. now rewrite Hid, Z.eqb_refl. }
    split; [now rewrite E|]. split; [exact G'|].
    split; [unfold db'; now rewrite E|]. split; [unfold db'; now rewrite E|].
    split.
    { unfold db'. rewrite E. cbn [snd]. rewrite parking_spot_set_spot_available.
      intros s Hin Hs'. apply in_map_iff in Hin. destruct Hin as [s0 [<- _]].
      rewrite mark_spot_id in Hs'. unfold mark_spot. apply Z.eqb_eq in Hs'.
      now rewrite Hs'. }
    split; [unfold db'; now rewrite E|].
    rewrite endReservation_unfold, G'. split; reflexivity.
Qed.

(* ------------------------------------------------------------------ *)
(** ** Invariants of the reachable states *)

Lemma step_transition (rq : Request) (db : DB) :
  step rq db = db \/ transition db (step rq db).
Proof.
  destruct rq as [p|l b|i|p|i]; cbn [step].
  - rewrite createLot_unfold.
    destruct (has_nul _); [now left|]. right. cbn [snd]. constructor.
  - rewrite createSpot_unfold.
    destruct (SpotCreate.validate b) as [p| | |]; try (now left).
    destruct (get_lot l db); [|now left].
    destruct (find _ (parking_spot db)); [now left|]. right. cbn [snd]. constructor.
  - rewrite releaseSpot_unfold.
    destruct (get_spot i db) as [s|] eqn:G; [|now left]. right. cbn [snd].
    destruct (get_spot_Some _ _ _ G) as [_ ->]. constructor.
  - rewrite createReservation_unfold.
    destruct (datetime.le _ _) as [[|]| | |]; try (now left).
    destruct (get_spot _ db) as [s|] eqn:G; [|now left].
    destruct (overlapping p db) eqn:O; [now left|].
    destruct (has_nul _); [now left|]. right. cbn [snd].
    destruct (get_spot_Some _ _ _ G) as [_ ->]. now constructor.
  - rewrite endReservation_unfold.
    destruct (get_reservation i db) as [r|] eqn:G; [|now left].
    destruct (String.eqb (Reservation.status r) "active") eqn:S; [|now left].
    right. cbn [negb snd].
    destruct (get_reservation_Some _ _ _ G) as [Hin _].
    apply String.eqb_eq in S.
    destruct (get_spot _ _) as [s|] eqn:G2.
    + destruct (get_spot_Some _ _ _ G2) as [_ ->]. now constructor.
    + rewrite <- (set_spot_available_absent (Reservation.spot_id r) true _ G2).
      now constructor.
Qed.

(** An invariant of the empty database that every transition keeps holds
    in every reachable state. *)
Lemma reachable_ind_transition (P : DB -> Prop) :
  P empty_db ->
  (forall db db', reachable db -> P db -> transition db db' -> P db') ->
  forall db, reachable db -> P db.
Proof.
  intros H0 Hstep db R. induction R as [|db rq R IH]; [exact H0|].
  destruct (step_transition rq db) as [E|T]; [now rewrite E|].
  now apply (Hstep db).
Qed.

Lemma keys_ok_app {A} (key : A -> Z) (rows : list A) (last : Z) (x : A) :
  key x = last + 1 -> keys_ok key rows last -> keys_ok key (rows ++ [x]) (last + 1).
Proof.
  intros Hx [Hnd Hle]. split.
  - rewrite map_app. cbn. apply NoDup_app; [exact Hnd| | ].
    + constructor; [intros []|constructor].
    + intros k Hk [<-|[]]. apply in_map_iff in Hk. destruct Hk as [y [Hy Hin]].
      specialize (Hle y Hin). lia.
  - intros y Hin. apply in_app_iff in Hin. destruct Hin as [Hin|[<-|[]]].
    + specialize (Hle y Hin). lia.
    + lia.
Qed.

Lemma keys_ok_map {A} (key : A -> Z) (f : A -> A) (rows : list A) (last : Z) :
  (forall x, key (f x) = key x) -> keys_ok key rows last -> keys_ok key (map f rows) last.
Proof.
  intros Hf [Hnd Hle]. split.
  - rewrite map_map. rewrite (map_ext _ key); [exact Hnd|exact Hf].
  - intros y Hin. apply in_map_iff in Hin. destruct Hin as [x [<- Hin]].
    rewrite Hf. now apply Hle.
Qed.

Lemma keys_ok_inj {A} (key : A -> Z) (rows : list A) (last : Z) (x y : A) :
  keys_ok key rows last -> In x rows -> In y rows -> key x = key y -> x = y.
Proof.
  intros [Hnd _]. induction rows as [|z rows IH]; [intros []|].
  cbn in Hnd. inversion Hnd as [|k ks Hnotin Hnd']; subst.
  intros [->|Hx] [->|Hy] E.
  - reflexivity.
  - exfalso. apply Hnotin. rewrite E. now apply in_map.
  - exfalso. apply Hnotin. rewrite <- E. now apply in_map.
  - now apply IH.
Qed.

Lemma transition_primary_keys_ok (db db' : DB) :
  primary_keys_ok db -> transition db db' -> primary_keys_ok db'.
Proof.
  intros (KL & KS & KR) T. destruct T as [n la lo|l n ty|i|p O|r Hin Hs];
    unfold primary_keys_ok; cbn [parking_lot parking_spot reservation
      parking_lot_id_seq parking_spot_id_seq reservation_id_seq
      add_lot add_spot add_reservation set_spot_available set_reservation_status].
  - split; [now apply keys_ok_app|]. split; [exact KS|exact KR].
  - split; [exact KL|]. split; [now apply keys_ok_app|exact KR].
  - split; [exact KL|]. split; [|exact KR].
    apply (keys_ok_map ParkingSpot.id (mark_spot i true)); [apply mark_spot_id|exact KS].
  - split; [exact KL|]. split.
    + apply (keys_ok_map ParkingSpot.id (mark_spot _ false)); [apply mark_spot_id|exact KS].
    + now apply keys_ok_app.
  - split; [exact KL|]. split.
    + apply (keys_ok_map ParkingSpot.id (mark_spot _ true)); [apply mark_spot_id|exact KS].
    + apply (keys_ok_map Reservation.id (mark_reservation _ "ended"));
        [apply mark_reservation_id|exact KR].
Qed.

Lemma reachable_primary_keys_ok (db : DB) : reachable db -> primary_keys_ok db.
Proof.
  apply reachable_ind_transition.
  - repeat split; try constructor; intros x [].
  - intros d d' _. apply transition_primary_keys_ok.
Qed.

Lemma string_ltb_leb (a b : string) : String.ltb a b = true -> String.leb a b = true.
Proof.
  unfold String.ltb, String.leb. now destruct (String.compare a b).
Qed.

Lemma active_on_mark_ended (db : DB) (i sp : Z) (r' : Reservation.t) :
  In r' (map (mark_reservation i "ended") (reservation db)) ->
  Reservation.spot_id r' = sp -> Reservation.status r' = "active"%string ->
  In r' (reservation db) /\ Reservation.id r' <> i.
Proof.
  intros Hin Hsp Hst. apply in_map_iff in Hin. destruct Hin as [r [E Hin]].
  unfold mark_reservation in E. destruct (Reservation.id r =? i) eqn:K.
  - subst r'. cbn in Hst. discriminate.
  - subst r'. split; [assumption|]. now apply Z.eqb_neq.
Qed.

Lemma transition_unavailable_has_active (db db' : DB) :
  primary_keys_ok db -> unavailable_has_active db -> transition db db' ->
  unavailable_has_active db'.
Proof.
  intros (_ & _ & KR) Inv T.
  destruct T as [n la lo|l n ty|i|p O|r Hin Hs]; intros s Hs' Hav;
    cbn [parking_spot add_lot add_spot add_reservation set_spot_available
         set_reservation_status] in Hs'.
  - destruct (Inv s Hs' Hav) as [r0 A]. exists r0. exact A.
  - apply in_app_iff in Hs'. destruct Hs' as [Hs'|[<-|[]]]; [|discriminate].
    destruct (Inv s Hs' Hav) as [r0 A]. exists r0. exact A.
  - apply in_map_iff in Hs'. destruct Hs' as [s0 [<- Hin0]].
    rewrite mark_spot_id.
    unfold mark_spot in Hav. destruct (ParkingSpot.id s0 =? i); [discriminate|].
    destruct (Inv s0 Hin0 Hav) as [r0 A]. exists r0. exact A.
  - apply in_map_iff in Hs'. destruct Hs' as [s0 [<- Hin0]].
    rewrite mark_spot_id. unfold mark_spot in Hav.
    destruct (ParkingSpot.id s0 =? ReserveCreate.spot_id p) eqn:K.
    + apply Z.eqb_eq in K. eexists. split; [|split].
      * cbn [reservation add_reservation]. apply in_app_iff. right. left. reflexivity.
      * cbn. now symmetry.
      * reflexivity.
    + destruct (Inv s0 Hin0 Hav) as [r0 (A1 & A2 & A3)]. exists r0. split; [|now split].
      cbn [reservation add_reservation set_spot_available]. apply in_app_iff. now left.
  - apply in_map_iff in Hs'. destruct Hs' as [s0 [<- Hin0]].
    rewrite mark_spot_id. unfold mark_spot in Hav.
    destruct (ParkingSpot.id s0 =? Reservation.spot_id r) eqn:K; [discriminate|].
    apply Z.eqb_neq in K.
    destruct (Inv s0 Hin0 Hav) as [r0 (A1 & A2 & A3)]. exists r0. split; [|now split].
    cbn [reservation set_spot_available set_reservation_status].
    apply in_map_iff. exists r0. split; [|assumption].
    unfold mark_reservation. destruct (Reservation.id r0 =? Reservation.id r) eqn:E;
      [|reflexivity].
    exfalso. apply K. apply Z.eqb_eq in E.
    rewrite <- (keys_ok_inj _ _ _ _ _ KR A1 Hin E). now symmetry.
Qed.

Lemma transition_active_windows_disjoint (db db' : DB) :
  primary_keys_ok db -> active_windows_disjoint db -> transition db db' ->
  active_windows_disjoint db'.
Proof.
  intros (_ & _ & KR) Inv T.
  destruct T as [n la lo|l n ty|i|p O|r Hin Hs]; intros sp r1 r2 A1 A2 Hne;
    try (apply (Inv sp); assumption).
  - (* a new reservation: the overlap query found nothing *)
    destruct A1 as (I1 & S1 & T1), A2 as (I2 & S2 & T2).
    cbn [reservation add_reservation set_spot_available] in I1, I2.
    apply in_app_iff in I1. apply in_app_iff in I2.
    assert (Hnew : forall e, In e (reservation db) -> Reservation.spot_id e = sp ->
              Reservation.status e = "active"%string -> sp = ReserveCreate.spot_id p ->
              String.leb (Reservation.start_time e)
                         (datetime.isoformat (ReserveCreate.end_time p))
              && String.ltb (datetime.isoformat (ReserveCreate.start_time p))
                            (Reservation.end_time e) = false).
    { intros e He Se Te Hsp. pose proof (find_none _ _ O e He) as N.
      unfold overlap_filter in N. rewrite Se, Te, Hsp, Z.eqb_refl in N.
      exact N. }
    destruct I1 as [I1|[<-|[]]], I2 as [I2|[<-|[]]].
    + apply (Inv sp); [now split|now split|assumption].
    + cbn in S2. specialize (Hnew r1 I1 S1 T1 (eq_sym S2)).
      unfold windows_overlap. cbn [Reservation.start_time Reservation.end_time].
      apply andb_false_iff in Hnew. apply andb_false_iff.
      destruct Hnew as [H|H]; [left|now right].
      destruct (String.ltb _ _) eqn:L; [|reflexivity].
      apply string_ltb_leb in L. congruence.
    + cbn in S1. specialize (Hnew r2 I2 S2 T2 (eq_sym S1)).
      unfold windows_overlap. cbn [Reservation.start_time Reservation.end_time].
      apply andb_false_iff in Hnew. apply andb_false_iff.
      destruct Hnew as [H|H]; [right|now left].
      destruct (String.ltb _ _) eqn:L; [|reflexivity].
      apply string_ltb_leb in L. congruence.
    + now contradiction Hne.
  - (* a reservation ended: the active ones were active before *)
    destruct A1 as (I1 & S1 & T1), A2 as (I2 & S2 & T2).
    cbn [reservation set_spot_available set_reservation_status] in I1, I2.
    destruct (active_on_mark_ended db _ sp r1 I1 S1 T1) as [J1 _].
    destruct (active_on_mark_ended db _ sp r2 I2 S2 T2) as [J2 _].
    apply (Inv sp); [now split|now split|assumption].
Qed.

Lemma reachable_steps (rqs : list Request) (db : DB) :
  reachable db -> reachable (steps rqs db).
Proof.
  revert db. induction rqs as [|rq rqs IH]; intros db R; [exact R|].
  cbn. apply IH. now constructor.
Qed.

(* ------------------------------------------------------------------ *)
(** ** The scenario evaluated: boundary requests, release, two reservations *)

(** C1: the code at the failing input.  Spot X holds the single active
    reservation A for 10:00-11:00.  A request for 09:00-10:00 ends exactly
    where A starts, so the specification's overlap test is false for it,
    and still it is answered 409 Conflict and nothing is stored.  (The
    request that starts where A ends, 11:00-12:00, is accepted, and the
    overlapping 10:00-11:00 one is refused, as the specification says.) *)
Theorem createReservation_touching_start_conflict :
  reachable db_A
  /\ reservation db_A = [reservation_A]
  /\ ReserveCreate.end_time (request 9 10) = ReserveCreate.start_time (request 10 11)
  /\ spec_overlap reservation_A (request 9 10) = false
  /\ createReservation (request 9 10) db_A =
       (HTTPException 409 "Spot already reserved for the selected time range", db_A)
  /\ error_kind (fst (createReservation (request 9 10) db_A)) = Some Conflict
  /\ error_kind (fst (createReservation (request 11 12) db_A)) = None
  /\ error_kind (fst (createReservation (request 10 11) db_A)) = Some Conflict.
Proof.
  split; [apply reachable_steps; constructor|].
  repeat split; vm_compute; reflexivity.
Qed.

(** C10: the code at the failing input.  Spot X exists, its availability is
    false, and its only active reservation (10:00-11:00) does not overlap
    the requested window 08:00-10:00 by the specification's test; the
    request is valid; creation fails with 409 Conflict. *)
Theorem createReservation_unavailable_adjacent_fails :
  (exists s, get_spot 1 db_A = Some s /\ ParkingSpot.is_available s = false)
  /\ forallb (fun e => negb (Reservation.is_active e && spec_overlap e (request 8 10)))
             (reservation db_A) = true
  /\ datetime.ltb (ReserveCreate.start_time (request 8 10))
                  (ReserveCreate.end_time (request 8 10)) = true
  /\ error_kind (fst (createReservation (request 8 10) db_A)) = Some Conflict
  /\ snd (createReservation (request 8 10) db_A) = db_A.
Proof.
  split; [eexists; split; vm_compute; reflexivity|].
  repeat split; vm_compute; reflexivity.
Qed.

(** C3 as stated fails: after releaseSpot, spot X is available while its
    reservation A is still active. *)
Lemma released_spot_breaks_availability_iff_active :
  reachable db_released /\ ~ availability_iff_active db_released.
Proof.
  split; [apply reachable_steps; constructor|].
  intros H.
  specialize (H (ParkingSpot.mk 1 1 "X" "car" true)).
  assert (Hin : In (ParkingSpot.mk 1 1 "X" "car" true) (parking_spot db_released))
    by (vm_compute; now left).
  destruct (H Hin) as [_ Hback].
  assert (E : ParkingSpot.is_available (ParkingSpot.mk 1 1 "X" "car" true) = false).
  { apply Hback. exists reservation_A. split; [vm_compute; now left|]. now split. }
  discriminate E.
Qed.

(** C3 (amended). In every state reachable by the public operations, a spot
    whose availability is false has at least one reservation with status
    active.  (The converse is not kept: releaseSpot, and ending one of
    several active reservations, make a spot available while active
    reservations remain.) *)
Theorem reachable_unavailable_has_active (db : DB) :
  reachable db -> unavailable_has_active db.
Proof.
  intros R.
  enough (H : primary_keys_ok db /\ unavailable_has_active db) by apply H.
  revert db R. apply reachable_ind_transition.
  - split; [apply (reachable_primary_keys_ok _ reachable_empty)|]. intros s [].
  - intros db db' _ [K I] T. split.
    + now apply (transition_primary_keys_ok db).
    + now apply (transition_unavailable_has_active db).
Qed.

Lemma reachable_unavailable_has_active_witness :
  reachable db_A /\ unavailable_has_active db_A.
Proof.
  split; [apply reachable_steps; constructor|].
  apply (reachable_unavailable_has_active db_A).
  apply reachable_steps; constructor.
Defined.

(** C4 as stated fails: two requests with disjoint windows leave spot X with
    two active reservations. *)
Lemma two_active_reservations_on_one_spot :
  reachable db_two /\ ~ at_most_one_active db_two.
Proof.
  split; [apply reachable_steps; constructor|].
  intros H.
  specialize (H 1 reservation_A
    (Reservation.mk 2 1 "2024-01-01T12:00:00" "2024-01-01T13:00:00" "KA01AB1234" "active")).
  cbn in H. enough (1 = 2) by lia. apply H.
  - split; [vm_compute; now left|]. now split.
  - split; [vm_compute; right; now left|]. now split.
Qed.

(** The overlap query keeps the stored windows of the active reservations
    of a spot apart, in the order of the stored strings. *)
Lemma reachable_windows_disjoint_text (db : DB) :
  reachable db -> active_windows_disjoint db.
Proof.
  intros R.
  enough (H : primary_keys_ok db /\ active_windows_disjoint db) by apply H.
  revert db R. apply reachable_ind_transition.
  - split; [apply (reachable_primary_keys_ok _ reachable_empty)|].
    intros sp r1 r2 [[] _].
  - intros db db' _ [K I] T. split.
    + now apply (transition_primary_keys_ok db).
    + now apply (transition_active_windows_disjoint db).
Qed.

(* ------------------------------------------------------------------ *)
(** ** Order of binary64 floats *)

Lemma SFleb_trans (a b c : spec_float) :
  SFleb a b = true -> SFleb b c = true -> SFleb a c = true.
Proof.
  unfold SFleb, SFcompare.
  destruct a as [sa|sa| |sa ma ea], b as [sb|sb| |sb mb eb], c as [sc|sc| |sc mc ec];
    repeat match goal with s : bool |- _ => destruct s end;
    simpl; try congruence; intros Hab Hbc;
    sf_compare_cases; simpl in *; try congruence; subst; try lia.
Qed.

Lemma SFltb_false_leb (a b : spec_float) :
  a <> S754_nan -> b <> S754_nan -> SFltb a b = false -> SFleb b a = true.
Proof.
  unfold SFleb, SFltb, SFcompare.
  destruct a as [sa|sa| |sa ma ea], b as [sb|sb| |sb mb eb];
    repeat match goal with s : bool |- _ => destruct s end;
    simpl; try congruence; intros Ha Hb H;
    sf_compare_cases; simpl in *; try congruence; subst; try lia.
Qed.

Lemma SFeqb_refl_not_nan (a : spec_float) : SFeqb a a = true <-> a <> S754_nan.
Proof.
  unfold SFeqb, SFcompare. destruct a as [s|s| |s m e]; try destruct s; simpl;
    try (split; congruence).
  - rewrite Z.compare_refl.
    change (Pos.compare_cont Eq m m) with (Pos.compare m m).
    rewrite Pos.compare_refl. simpl. split; congruence.
  - rewrite Z.compare_refl.
    change (Pos.compare_cont Eq m m) with (Pos.compare m m).
    rewrite Pos.compare_refl. split; congruence.
Qed.

Lemma is_nan_false (x : float) : PrimFloat.is_nan x = false <-> Prim2SF x <> S754_nan.
Proof.
  unfold PrimFloat.is_nan. rewrite negb_false_iff, FloatAxioms.eqb_spec.
  apply SFeqb_refl_not_nan.
Qed.

Lemma float_leb_trans (x y z : float) :
  (x <=? y)%float = true -> (y <=? z)%float = true -> (x <=? z)%float = true.
Proof. rewrite !leb_spec. apply SFleb_trans. Qed.

Lemma float_leb_not_nan (x y : float) :
  (x <=? y)%float = true -> PrimFloat.is_nan x = false /\ PrimFloat.is_nan y = false.
Proof.
  rewrite leb_spec, !is_nan_false. unfold SFleb, SFcompare.
  destruct (Prim2SF x), (Prim2SF y); simpl; try congruence; split; congruence.
Qed.

Lemma float_ltb_false_leb (x y : float) :
  PrimFloat.is_nan x = false -> PrimFloat.is_nan y = false ->
  (x <? y)%float = false -> (y <=? x)%float = true.
Proof. rewrite !is_nan_false, ltb_spec, leb_spec. apply SFltb_false_leb. Qed.

Lemma float_ltb_leb (x y : float) : (x <? y)%float = true -> (x <=? y)%float = true.
Proof.
  rewrite ltb_spec, leb_spec. unfold SFltb, SFleb.
  destruct (SFcompare _ _) as [[]|]; congruence.
Qed.

Lemma buffer_ok_range (r : Z) : 1 <= r <= 20000 -> buffer_ok r = true.
Proof.
  intros Hr.
  assert (H : forallb buffer_ok_block (seq 0 200) = true) by (vm_compute; reflexivity).
  rewrite forallb_forall in H.
  specialize (H (Z.to_nat ((r - 1) / 100))).
  unfold buffer_ok_block in H. rewrite forallb_forall in H.
  assert (A : 0 <= (r - 1) / 100 < 200)
    by (split; [apply Z.div_pos; lia | apply Z.div_lt_upper_bound; lia]).
  assert (B : 0 <= (r - 1) mod 100 < 100) by (apply Z.mod_pos_bound; lia).
  assert (E : r = 100 * Z.of_nat (Z.to_nat ((r - 1) / 100))
                  + Z.of_nat (Z.to_nat ((r - 1) mod 100)) + 1).
  { rewrite !Z2Nat.id by lia. pose proof (Z.div_mod (r - 1) 100). lia. }
  rewrite E. apply H; apply in_seq; lia.
Qed.

Lemma within_radius_within_buffer (r : Z) (d : float) :
  1 <= r <= 20000 ->
  (d <=? float_of_int r)%float = true -> (d <=? float_of_int r * 1.5)%float = true.
Proof.
  intros Hr Hd. apply (float_leb_trans _ _ _ Hd). now apply buffer_ok_range.
Qed.

(* ------------------------------------------------------------------ *)
(** ** The stable sort *)

Lemma insert_by_perm {A} (key : A -> float) (x : A) (l : list A) :
  Permutation (insert_by key x l) (x :: l).
Proof.
  induction l as [|y l IH]; [reflexivity|]. cbn.
  destruct (key y <? key x)%float; [|reflexivity].
  rewrite IH. apply perm_swap.
Qed.

Lemma sort_by_perm {A} (key : A -> float) (l : list A) :
  Permutation (sort_by key l) l.
Proof.
  induction l as [|x l IH]; [reflexivity|]. cbn.
  rewrite insert_by_perm. now constructor.
Qed.

Lemma insert_by_sorted {A} (key : A -> float) (x : A) (l : list A) :
  PrimFloat.is_nan (key x) = false ->
  Forall (fun y => PrimFloat.is_nan (key y) = false) l ->
  Sorted (key_le key) l -> Sorted (key_le key) (insert_by key x l).
Proof.
  intros Hx Hl Hs. induction l as [|y l IH]; cbn.
  - repeat constructor.
  - inversion Hl as [|y' l' Hy Hl']; subst.
    inversion Hs as [|y' l' Hs' Hhd]; subst.
    destruct (key y <? key x)%float eqn:C.
    + constructor; [now apply IH|].
      destruct l as [|z l]; cbn.
      * constructor. now apply float_ltb_leb.
      * destruct (key z <? key x)%float.
        -- constructor. now inversion Hhd.
        -- constructor. now apply float_ltb_leb.
    + constructor; [assumption|]. constructor. now apply float_ltb_false_leb.
Qed.

Lemma sort_by_sorted {A} (key : A -> float) (l : list A) :
  Forall (fun y => PrimFloat.is_nan (key y) = false) l ->
  Sorted (key_le key) (sort_by key l).
Proof.
  induction l as [|x l IH]; intros H; cbn; [constructor|].
  inversion H as [|x' l' Hx Hl]; subst.
  apply insert_by_sorted; [assumption| |now apply IH].
  apply (Permutation_Forall (Permutation_sym (sort_by_perm key l))). assumption.
Qed.

Lemma Sorted_firstn {A} (R : A -> A -> Prop) (n : nat) (l : list A) :
  Sorted R l -> Sorted R (firstn n l).
Proof.
  revert l. induction n as [|n IH]; intros l H; [constructor|].
  destruct l as [|x l]; [constructor|]. cbn.
  inversion H as [|x' l' Hs Hhd]; subst. constructor; [now apply IH|].
  destruct n; [constructor|]. destruct l as [|y l]; [constructor|].
  cbn. constructor. now inversion Hhd.
Qed.

Lemma Forall_firstn {A} (P : A -> Prop) (n : nat) (l : list A) :
  Forall P l -> Forall P (firstn n l).
Proof.
  revert l. induction n as [|n IH]; intros l H; [constructor|].
  destruct H as [|x l Hx Hl]; cbn; constructor; [assumption|now apply IH].
Qed.

(* ------------------------------------------------------------------ *)
(** ** The lot map *)

Lemma dict_get_set {V} (k k' : Z) (v : V) (d : list (Z * V)) :
  dict_get k (dict_set k' v d) = if k' =? k then Some v else dict_get k d.
Proof.
  induction d as [|[k0 v0] d IH]; cbn.
  - reflexivity.
  - destruct (k0 =? k') eqn:E0; cbn.
    + apply Z.eqb_eq in E0. subst k0. destruct (k' =? k); reflexivity.
    + destruct (k0 =? k) eqn:E1.
      * destruct (k' =? k) eqn:E2; [|reflexivity].
        apply Z.eqb_eq in E1, E2. apply Z.eqb_neq in E0. congruence.
      * exact IH.
Qed.

Lemma find_app_list {A} (f : A -> bool) (l1 l2 : list A) :
  find f (l1 ++ l2) = match find f l1 with Some x => Some x | None => find f l2 end.
Proof.
  induction l1 as [|x l1 IH]; [reflexivity|]. cbn. now destruct (f x).
Qed.

(** The dict keeps, for each id, the last lot of the list with that id. *)
Lemma lot_map_fold_get (lots : list ParkingLot.t) (m : list (Z * ParkingLot.t)) (k : Z) :
  dict_get k (fold_left (fun m l => dict_set (ParkingLot.id l) l m) lots m)
  = match find (fun l => ParkingLot.id l =? k) (rev lots) with
    | Some L => Some L
    | None => dict_get k m
    end.
Proof.
  revert m. induction lots as [|l lots IH]; intros m; [reflexivity|].
  cbn [fold_left rev]. rewrite IH, dict_get_set.
  rewrite find_app_list.
  destruct (find _ (rev lots)); [reflexivity|]. cbn.
  destruct (ParkingLot.id l =? k); reflexivity.
Qed.

Lemma find_unique {A} (key : A -> Z) (k : Z) (l : list A) (x : A) :
  NoDup (map key l) -> In x l -> key x = k -> find (fun y => key y =? k) l = Some x.
Proof.
  induction l as [|y l IH]; intros Hnd Hin Hk; [destruct Hin|].
  cbn in Hnd. inversion Hnd as [|a b Hnotin Hnd']; subst. cbn.
  destruct Hin as [->|Hin].
  - now rewrite Z.eqb_refl.
  - destruct (key y =? key x) eqn:E.
    + exfalso. apply Hnotin. apply Z.eqb_eq in E. rewrite E. now apply in_map.
    + now apply IH.
Qed.

Lemma lot_map_get_lot (db : DB) (k : Z) :
  NoDup (map ParkingLot.id (parking_lot db)) ->
  dict_get k (lot_map_of (parking_lot db)) = get_lot k db.
Proof.
  intros Hnd. unfold lot_map_of, get_lot. rewrite lot_map_fold_get. cbn [dict_get].
  destruct (find _ (rev (parking_lot db))) as [L|] eqn:F.
  - apply find_some in F. destruct F as [Hin Hk]. apply Z.eqb_eq in Hk.
    apply in_rev in Hin. symmetry. now apply find_unique.
  - destruct (find _ (parking_lot db)) as [L|] eqn:G; [|reflexivity].
    apply find_some in G. destruct G as [Hin Hk].
    apply in_rev in Hin. now rewrite (find_none _ _ F L Hin) in Hk.
Qed.

Lemma lot_map_get_In (lots : list ParkingLot.t) (k : Z) (L : ParkingLot.t) :
  dict_get k (lot_map_of lots) = Some L -> In L lots /\ ParkingLot.id L = k.
Proof.
  unfold lot_map_of. rewrite lot_map_fold_get. cbn [dict_get].
  destruct (find _ (rev lots)) as [L'|] eqn:F; [|discriminate].
  intros [= <-]. apply find_some in F. destruct F as [Hin Hk].
  split; [now apply in_rev|now apply Z.eqb_eq].
Qed.

(* ------------------------------------------------------------------ *)
(** ** Nearby search *)

Lemma obind_Ok {A B} (o : Outcome A) (k : A -> Outcome B) (b : B) :
  obind o k = Ok b -> exists a, o = Ok a /\ k a = Ok b.
Proof. destruct o; cbn; try discriminate. intros H. now exists a. Qed.

Lemma filter_no_candidates (spots : list ParkingSpot.t) :
  filter (fun s => ParkingSpot.is_available s
                   && existsb (Z.eqb (ParkingSpot.lot_id s)) []) spots = [].
Proof.
  induction spots as [|s l IH]; [reflexivity|].
  cbn [filter existsb]. rewrite andb_false_r. exact IH.
Qed.

Section GeoProperties.
Context {libm : Libm}.
Variables (lat lng : float) (radius_m : Z).

Lemma candidate_lots_Ok (lots : list ParkingLot.t) (acc ids : list Z) :
  candidate_lots lat lng radius_m lots acc = Ok ids ->
  computable lat lng lots
  /\ forall k, In k ids <-> In k acc \/ is_candidate lat lng radius_m lots k.
Proof.
  revert acc. induction lots as [|L lots IH]; intros acc H; cbn in H.
  - injection H as <-. split; [intros ? []|].
    intros k. split; [now left|]. intros [?|(? & ? & [] & _)]. assumption.
  - apply obind_Ok in H. destruct H as [d [Hd H]].
    apply IH in H. destruct H as [Hc Hids]. split.
    + intros L' [<-|Hin]; [now exists d|now apply Hc].
    + intros k. rewrite Hids. split.
      * intros [Hk|(L' & d' & Hin & Hrest)].
        -- destruct (d <=? _)%float eqn:C; [|now left].
           apply in_app_iff in Hk. destruct Hk as [Hk|[<-|[]]]; [now left|].
           right. exists L, d. repeat split; [now left|assumption|assumption].
        -- right. exists L', d'. split; [now right|assumption].
      * intros [Hk|(L' & d' & [<-|Hin] & Hid & Hd' & Hle)].
        -- left. destruct (d <=? _)%float; [apply in_app_iff; now left|assumption].
        -- left. unfold lot_distance in Hd'. rewrite Hd in Hd'. injection Hd' as <-.
           rewrite Hle. apply in_app_iff. right. now left.
        -- right. exists L', d'. repeat split; assumption.
Qed.

Lemma candidate_lots_computable (lots : list ParkingLot.t) (acc : list Z) :
  computable lat lng lots -> exists ids, candidate_lots lat lng radius_m lots acc = Ok ids.
Proof.
  revert acc. induction lots as [|L lots IH]; intros acc Hc; cbn.
  - now exists acc.
  - destruct (Hc L (or_introl eq_refl)) as [d Hd]. unfold lot_distance in Hd.
    rewrite Hd. cbn. apply IH. intros L' Hin. apply Hc. now right.
Qed.

Lemma attach_distance_Ok (m : list (Z * ParkingLot.t)) (spots : list ParkingSpot.t)
  (acc out : list SpotNearby.t) :
  attach_distance lat lng radius_m m spots acc = Ok out ->
  exists added, out = acc ++ added
                /\ Forall (within_radius lat lng radius_m (fun k => dict_get k m) spots) added.
Proof.
  revert acc. induction spots as [|s spots IH]; intros acc H; cbn in H.
  - injection H as <-. exists []. split; [now rewrite app_nil_r|constructor].
  - destruct (dict_get (ParkingSpot.lot_id s) m) as [L|] eqn:G; [|discriminate].
    apply obind_Ok in H. destruct H as [d [Hd H]].
    apply IH in H. destruct H as [added [-> Hadd]].
    assert (Hadd' : Forall (within_radius lat lng radius_m (fun k => dict_get k m)
                              (s :: spots)) added).
    { revert Hadd. apply Forall_impl. intros x (s' & L' & d' & Hin & Hrest).
      exists s', L', d'. split; [now right|assumption]. }
    destruct (d <=? float_of_int radius_m)%float eqn:C.
    + exists (nearby s d :: added). split; [now rewrite <- app_assoc|].
      constructor; [|assumption].
      exists s, L, d. repeat split; try assumption. now left.
    + exists added. split; [reflexivity|assumption].
Qed.

(** The two filters against the one: on any list of spots, the second loop
    over the available spots of candidate lots appends what the single
    filter over the available spots yields. *)
Lemma attach_distance_single_stage (db : DB) (ids : list Z) (spots : list ParkingSpot.t)
  (acc : list SpotNearby.t) :
  NoDup (map ParkingLot.id (parking_lot db)) ->
  1 <= radius_m <= 20000 ->
  computable lat lng (parking_lot db) ->
  (forall k, In k ids <-> is_candidate lat lng radius_m (parking_lot db) k) ->
  attach_distance lat lng radius_m (lot_map_of (parking_lot db))
    (filter (fun s => ParkingSpot.is_available s
                      && existsb (Z.eqb (ParkingSpot.lot_id s)) ids) spots) acc
  = (rest <-- single_stage_filter lat lng radius_m db
                (filter ParkingSpot.is_available spots) ;;
     Ok (acc ++ rest)).
Proof.
  intros Hnd Hr Hc Hids. revert acc.
  induction spots as [|s spots IH]; intros acc; cbn [filter].
  - cbn. now rewrite app_nil_r.
  - destruct (ParkingSpot.is_available s); cbn [andb]; [|apply IH].
    cbn [single_stage_filter].
    destruct (existsb (Z.eqb (ParkingSpot.lot_id s)) ids) eqn:E.
    + (* the lot is a candidate *)
      apply existsb_exists in E. destruct E as [k [Hk Ek]]. apply Z.eqb_eq in Ek. subst k.
      apply Hids in Hk. destruct Hk as (L & d & Hin & Hid & Hd & Hle).
      cbn [attach_distance]. rewrite (lot_map_get_lot db _ Hnd).
      unfold get_lot. rewrite (find_unique ParkingLot.id _ _ L Hnd Hin Hid).
      unfold lot_distance in Hd. rewrite Hd. cbn [obind]. rewrite IH.
      destruct (single_stage_filter _ _ _ _ _) as [rest| | |]; cbn [obind]; try reflexivity.
      destruct (d <=? float_of_int radius_m)%float; [|reflexivity].
      now rewrite <- app_assoc.
    + (* the lot is no candidate: the spot is not within the radius *)
      rewrite IH.
      destruct (get_lot (ParkingSpot.lot_id s) db) as [L|] eqn:G; [|reflexivity].
      destruct (get_lot_Some _ _ _ G) as [Hin Hid].
      destruct (Hc L Hin) as [d Hd]. unfold lot_distance in Hd. rewrite Hd. cbn [obind].
      destruct (single_stage_filter _ _ _ _ _) as [rest| | |]; cbn [obind]; try reflexivity.
      destruct (d <=? float_of_int radius_m)%float eqn:C; [|reflexivity].
      exfalso.
      assert (In (ParkingSpot.lot_id s) ids).
      { apply Hids. exists L, d. repeat split; try assumption.
        now apply within_radius_within_buffer. }
      assert (X : existsb (Z.eqb (ParkingSpot.lot_id s)) ids = true).
      { apply existsb_exists. exists (ParkingSpot.lot_id s). split; [assumption|].
        apply Z.eqb_refl. }
      congruence.
Qed.

Lemma search_spots_single_stage_computable (limit : Z) (db : DB) :
  NoDup (map ParkingLot.id (parking_lot db)) ->
  1 <= radius_m <= 20000 ->
  computable lat lng (parking_lot db) ->
  search_spots lat lng radius_m limit db = single_stage_search lat lng radius_m limit db.
Proof.
  intros Hnd Hr Hc. unfold search_spots, single_stage_search.
  destruct (candidate_lots_computable (parking_lot db) [] Hc) as [ids Hids].
  rewrite Hids. cbn [obind].
  destruct (candidate_lots_Ok _ _ _ Hids) as [_ Hin].
  assert (Hin' : forall k, In k ids <-> is_candidate lat lng radius_m (parking_lot db) k).
  { intros k. rewrite Hin. split; [intros [[]|H]; exact H|now right]. }
  pose proof (attach_distance_single_stage db ids (parking_spot db) [] Hnd Hr Hc Hin') as H.
  destruct ids as [|k ids].
  - assert (E := filter_no_candidates (parking_spot db)).
    rewrite E in H. cbn [attach_distance] in H.
    destruct (single_stage_filter _ _ _ _ _) as [rest| | |]; cbn in H |- *;
      try discriminate.
    injection H as <-. cbn [sort_by fold_right]. now rewrite firstn_nil.
  - rewrite H.
    destruct (single_stage_filter _ _ _ _ _) as [rest| | |]; reflexivity.
Qed.

End GeoProperties.

Section SearchContract.
Context {libm : Libm}.

(** What the [math] wrappers return when they return. *)
Lemma math_1_Ok (f : float -> float) (x r : float) : math_1 f x = Ok r -> r = f x.
Proof.
  unfold math_1. destruct (_ && _); [discriminate|].
  destruct (_ && _); [discriminate|]. now intros [= <-].
Qed.

Lemma pow2_Ok (x r : float) : pow2 x = Ok r -> r = c_pow x 2.
Proof. unfold pow2. destruct (_ && _); [discriminate|]. now intros [= <-]. Qed.

(** The value of haversine_m, written out: the haversine formula with
    R = 6371000 and angles converted by [pi / 180]. *)
Lemma haversine_m_Ok (lat1 lon1 lat2 lon2 d : float) :
  haversine_m lat1 lon1 lat2 lon2 = Ok d ->
  d = (2 * 6371000
       * c_asin (PrimFloat.sqrt
           (c_pow (c_sin ((lat2 - lat1) * (0x1.921fb54442d18p+1 / 180) / 2)) 2
            + c_cos (lat1 * (0x1.921fb54442d18p+1 / 180))
              * c_cos (lat2 * (0x1.921fb54442d18p+1 / 180))
              * c_pow (c_sin ((lon2 - lon1) * (0x1.921fb54442d18p+1 / 180) / 2)) 2)))%float.
Proof.
  unfold haversine_m, math_sin, math_cos, math_asin, math_sqrt, math_radians. intros H.
  repeat match type of H with
  | obind _ _ = Ok _ =>
      apply obind_Ok in H; let a := fresh "a" in let E := fresh "E" in
      destruct H as [a [E H]];
      first [apply math_1_Ok in E | apply pow2_Ok in E]; subst a
  end.
  injection H as <-. reflexivity.
Qed.

Lemma searchSpots_unfold (lat lng : float) (radius_m limit : option Z) (db : DB) :
  searchSpots lat lng radius_m limit db =
  match search_query radius_m limit with
  | Ok q => (search_spots lat lng (fst q) (snd q) db, db)
  | HTTPException c d => (HTTPException c d, db)
  | RequestValidationError d => (RequestValidationError d, db)
  | Uncaught e => (Uncaught e, db)
  end.
Proof.
  unfold searchSpots, validated, run.
  destruct (search_query radius_m limit) as [q| | |]; reflexivity.
Qed.

Lemma search_query_Ok (radius_m limit : option Z) (q : Z * Z) :
  search_query radius_m limit = Ok q ->
  fst q = match radius_m with Some r => r | None => 1000 end
  /\ snd q = match limit with Some l => l | None => 20 end
  /\ 1 <= fst q <= 20000 /\ 1 <= snd q <= 100.
Proof.
  unfold search_query.
  destruct (1 <=? _) eqn:A; [|discriminate].
  destruct (_ <=? 20000) eqn:B; [|discriminate].
  destruct (1 <=? match limit with Some l => l | None => 20 end) eqn:C; [|discriminate].
  destruct (_ <=? 100) eqn:D; [|discriminate].
  cbn. intros [= <-]. cbn. lia.
Qed.

(** The entries of a search result, through the handler's own helpers. *)
Lemma searchSpots_entries (lat lng : float) (radius_m limit : option Z) (db : DB)
  (results : list SpotNearby.t) :
  (forall d, PrimFloat.is_nan d = false -> PrimFloat.is_nan (round2 d) = false) ->
  fst (searchSpots lat lng radius_m limit db) = Ok results ->
  let r := match radius_m with Some r => r | None => 1000 end in
  let n := match limit with Some l => l | None => 20 end in
  Forall (fun x => exists s L d,
            In s (parking_spot db) /\ ParkingSpot.is_available s = true
            /\ In L (parking_lot db) /\ ParkingLot.id L = ParkingSpot.lot_id s
            /\ haversine_m lat lng (ParkingLot.latitude L) (ParkingLot.longitude L) = Ok d
            /\ (d <=? float_of_int r)%float = true
            /\ x = nearby s d) results
  /\ Sorted (fun a b => (SpotNearby.distance_m a <=? SpotNearby.distance_m b)%float = true)
            results
  /\ Z.of_nat (List.length results) <= n
  /\ snd (searchSpots lat lng radius_m limit db) = db.
Proof.
  intros Hround H r n. rewrite searchSpots_unfold in H |- *.
  destruct (search_query radius_m limit) as [q| | |] eqn:Q; try discriminate.
  destruct (search_query_Ok _ _ _ Q) as (Hr & Hn & Rr & Rn).
  fold r in Hr. fold n in Hn. cbn [fst snd] in H |- *. rewrite Hr, Hn in *.
  unfold search_spots in H.
  apply obind_Ok in H. destruct H as [ids [_ H]].
  assert (Hempty : results = [] ->
            Forall (fun x => exists s L d,
              In s (parking_spot db) /\ ParkingSpot.is_available s = true
              /\ In L (parking_lot db) /\ ParkingLot.id L = ParkingSpot.lot_id s
              /\ haversine_m lat lng (ParkingLot.latitude L) (ParkingLot.longitude L) = Ok d
              /\ (d <=? float_of_int r)%float = true
              /\ x = nearby s d) results
            /\ Sorted (fun a b =>
                 (SpotNearby.distance_m a <=? SpotNearby.distance_m b)%float = true) results
            /\ Z.of_nat (List.length results) <= n /\ db = db).
  { intros ->. repeat split; try constructor. cbn. lia. }
  destruct ids as [|k ids]; [apply Hempty; congruence|].
  apply obind_Ok in H. destruct H as [res0 [H E]]. injection E as <-.
  apply attach_distance_Ok in H. destruct H as [added [-> Hadd]]. cbn [app].
  assert (Hall : Forall (fun x => exists s L d,
              In s (parking_spot db) /\ ParkingSpot.is_available s = true
              /\ In L (parking_lot db) /\ ParkingLot.id L = ParkingSpot.lot_id s
              /\ haversine_m lat lng (ParkingLot.latitude L) (ParkingLot.longitude L) = Ok d
              /\ (d <=? float_of_int r)%float = true
              /\ x = nearby s d) added).
  { revert Hadd. apply Forall_impl. intros x (s & L & d & Hin & Hget & Hd & Hle & ->).
    apply filter_In in Hin. destruct Hin as [Hin Hf].
    apply andb_true_iff in Hf. destruct Hf as [Hav _].
    apply lot_map_get_In in Hget. destruct Hget as [HL Hid].
    exists s, L, d. repeat split; assumption. }
  split; [|split; [|split]].
  - apply Forall_firstn.
    apply (Permutation_Forall (Permutation_sym (sort_by_perm _ added))). exact Hall.
  - apply Sorted_firstn. apply sort_by_sorted.
    revert Hall. apply Forall_impl. intros x (s & L & d & _ & _ & _ & _ & _ & Hle & ->).
    cbn. apply Hround. now apply float_leb_not_nan in Hle.
  - pose proof (firstn_le_length (Z.to_nat n) (sort_by SpotNearby.distance_m added)). lia.
  - reflexivity.
Qed.

(** C6. When searchSpots returns a list, every entry is an available spot
    of the table together with its owning lot, whose haversine distance
    [2 R asin (sqrt (sin^2 (dphi / 2) + cos phi1 cos phi2 sin^2 (dlambda / 2)))]
    with [R = 6371000] from the query point is [<= radius_m]; the entry
    carries the columns of the spot and that distance rounded to 2 places;
    the list is ascending in the distance it carries and has at most [limit]
    entries; the database is untouched.  ([round] is assumed not to turn a
    number into NaN.) *)
Theorem searchSpots_sound (lat lng : float) (radius_m limit : option Z) (db : DB)
  (results : list SpotNearby.t) :
  (forall d, PrimFloat.is_nan d = false -> PrimFloat.is_nan (round2 d) = false) ->
  fst (searchSpots lat lng radius_m limit db) = Ok results ->
  let r := match radius_m with Some r => r | None => 1000 end in
  let n := match limit with Some l => l | None => 20 end in
  let rad := fun x => (x * (0x1.921fb54442d18p+1 / 180))%float in
  let distance := fun L =>
    (2 * 6371000
     * c_asin (PrimFloat.sqrt
         (c_pow (c_sin (rad (ParkingLot.latitude L - lat) / 2)) 2
          + c_cos (rad lat) * c_cos (rad (ParkingLot.latitude L))
            * c_pow (c_sin (rad (ParkingLot.longitude L - lng) / 2)) 2)))%float in
  Forall (fun x => exists s L,
            In s (parking_spot db) /\ ParkingSpot.is_available s = true
            /\ In L (parking_lot db) /\ ParkingLot.id L = ParkingSpot.lot_id s
            /\ (distance L <=? float_of_int r)%float = true
            /\ x = SpotNearby.mk (ParkingSpot.id s) (ParkingSpot.lot_id s)
                     (ParkingSpot.number s) (ParkingSpot.type s) true
                     (round2 (distance L))) results
  /\ Sorted (fun a b => (SpotNearby.distance_m a <=? SpotNearby.distance_m b)%float = true)
            results
  /\ Z.of_nat (List.length results) <= n
  /\ snd (searchSpots lat lng radius_m limit db) = db.
Proof.
  intros Hround H r n rad distance.
  destruct (searchSpots_entries lat lng radius_m limit db results Hround H)
    as (Hall & Hsorted & Hlen & Hdb).
  split; [|split; [exact Hsorted|split; [exact Hlen|exact Hdb]]].
  revert Hall. apply Forall_impl.
  intros x (s & L & d & Hs & Hav & HL & Hid & Hd & Hle & ->).
  apply haversine_m_Ok in Hd. change (d = distance L) in Hd. subst d.
  exists s, L. unfold nearby. rewrite Hav. repeat split; assumption.
Qed.

(** C7. On a database whose lot ids are distinct, and for a radius the
    query accepts, the two-stage search (lots within 1.5 x radius first, then
    spots within the radius) returns what the single-stage search over all
    available spots returns: whenever the two-stage search returns a list,
    the single-stage search returns the same list, and whenever the distance
    of every lot can be computed the two have the same outcome. *)
Theorem two_stage_search_is_single_stage (lat lng : float) (radius_m limit : Z) (db : DB) :
  NoDup (map ParkingLot.id (parking_lot db)) ->
  1 <= radius_m <= 20000 ->
  (forall results, search_spots lat lng radius_m limit db = Ok results ->
                   single_stage_search lat lng radius_m limit db = Ok results)
  /\ (computable lat lng (parking_lot db) ->
      search_spots lat lng radius_m limit db
      = single_stage_search lat lng radius_m limit db).
Proof.
  intros Hnd Hr. split.
  - intros results H.
    rewrite <- (search_spots_single_stage_computable lat lng radius_m limit db Hnd Hr);
      [exact H|].
    unfold search_spots in H. apply obind_Ok in H. destruct H as [ids [H _]].
    now apply candidate_lots_Ok in H.
  - now apply search_spots_single_stage_computable.
Qed.

End SearchContract.

Lemma series_round2_not_nan (d : float) :
  PrimFloat.is_nan d = false -> PrimFloat.is_nan (@round2 series_libm d) = false.
Proof.
  intros H. cbn [round2 series_libm].
  destruct (PrimFloat.is_nan ((d * 100 + 0x1p+52 - 0x1p+52) / 100)) eqn:E;
    [exact H|exact E].
Qed.

Lemma db_city_lot_ids : NoDup (map ParkingLot.id (parking_lot db_city)).
Proof. vm_compute. repeat constructor; cbn; intuition discriminate. Qed.

Lemma db_city_spot_ids : NoDup (map ParkingSpot.id (parking_spot db_city)).
Proof. vm_compute. repeat constructor; cbn; intuition discriminate. Qed.

Lemma db_city_computable : @computable series_libm 0 0 (parking_lot db_city).
Proof.
  intros L HL. vm_compute in HL.
  repeat (destruct HL as [<-|HL]; [eexists; vm_compute; reflexivity|]).
  destruct HL.
Qed.

Lemma searchSpots_sound_witness :
  let rad := fun x => (x * (0x1.921fb54442d18p+1 / 180))%float in
  let distance := fun L =>
    (2 * 6371000
     * @c_asin series_libm (PrimFloat.sqrt
         (@c_pow series_libm (@c_sin series_libm (rad (ParkingLot.latitude L - 0) / 2)) 2
          + @c_cos series_libm (rad 0) * @c_cos series_libm (rad (ParkingLot.latitude L))
            * @c_pow series_libm
                (@c_sin series_libm (rad (ParkingLot.longitude L - 0) / 2)) 2)))%float in
  Forall (fun x => exists s L,
            In s (parking_spot db_city) /\ ParkingSpot.is_available s = true
            /\ In L (parking_lot db_city) /\ ParkingLot.id L = ParkingSpot.lot_id s
            /\ (distance L <=? float_of_int 1000)%float = true
            /\ x = SpotNearby.mk (ParkingSpot.id s) (ParkingSpot.lot_id s)
                     (ParkingSpot.number s) (ParkingSpot.type s) true
                     (@round2 series_libm (distance L))) city_nearby
  /\ Sorted (fun a b => (SpotNearby.distance_m a <=? SpotNearby.distance_m b)%float = true)
            city_nearby
  /\ Z.of_nat (List.length city_nearby) <= 20
  /\ snd (@searchSpots series_libm 0 0 (Some 1000) None db_city) = db_city.
Proof.
  apply (@searchSpots_sound series_libm 0 0 (Some 1000) None db_city city_nearby).
  - exact series_round2_not_nan.
  - vm_compute. reflexivity.
Defined.

Lemma two_stage_search_is_single_stage_witness :
  @single_stage_search series_libm 0 0 1000 20 db_city = Ok city_nearby
  /\ @search_spots series_libm 0 0 1000 20 db_city
     = @single_stage_search series_libm 0 0 1000 20 db_city.
Proof.
  destruct (@two_stage_search_is_single_stage series_libm 0 0 1000 20 db_city
              db_city_lot_ids ltac:(lia)) as [H1 H2].
  split.
  - apply H1. vm_compute. reflexivity.
  - apply H2. exact db_city_computable.
Defined.

(* ------------------------------------------------------------------ *)
(** ** ISO strings compare as the datetimes do *)

Lemma string_compare_app (a1 a2 b1 b2 : string) :
  String.length a1 = String.length a2 ->
  String.compare (a1 ++ b1)%string (a2 ++ b2)%string =
  match String.compare a1 a2 with
  | Eq => String.compare b1 b2
  | c => c
  end.
Proof.
  revert a2. induction a1 as [|c1 a1 IH]; intros [|c2 a2] H; try discriminate.
  - reflexivity.
  - cbn in H |- *. destruct (Ascii.compare c1 c2); try reflexivity.
    apply IH. now injection H.
Qed.

Lemma string_compare_cons (c : ascii) (s1 s2 : string) :
  String.compare (String c s1) (String c s2) = String.compare s1 s2.
Proof.
  cbn. unfold Ascii.compare. now rewrite N.compare_refl.
Qed.

Lemma string_length_app (a b : string) :
  String.length (a ++ b)%string = (String.length a + String.length b)%nat.
Proof. induction a as [|c a IH]; cbn; [reflexivity|now rewrite IH]. Qed.

Lemma zfill_length (w : nat) (n : Z) : String.length (datetime.zfill w n) = w.
Proof.
  revert n. induction w as [|w IH]; intros n; [reflexivity|].
  cbn [datetime.zfill]. rewrite string_length_app, IH. cbn. lia.
Qed.

Lemma digit_compare (a b : Z) :
  Ascii.compare (datetime.digit a) (datetime.digit b) = (a mod 10 ?= b mod 10).
Proof.
  unfold datetime.digit.
  pose proof (Z.mod_pos_bound a 10 ltac:(lia)) as Ha.
  pose proof (Z.mod_pos_bound b 10 ltac:(lia)) as Hb.
  revert Ha Hb. generalize (a mod 10) (b mod 10). intros x y Hx Hy.
  assert (A : x = 0 \/ x = 1 \/ x = 2 \/ x = 3 \/ x = 4 \/ x = 5 \/ x = 6 \/ x = 7
              \/ x = 8 \/ x = 9) by lia.
  assert (B : y = 0 \/ y = 1 \/ y = 2 \/ y = 3 \/ y = 4 \/ y = 5 \/ y = 6 \/ y = 7
              \/ y = 8 \/ y = 9) by lia.
  clear Hx Hy.
  repeat (destruct A as [->|A]); try subst x;
    repeat (destruct B as [->|B]); try subst y; reflexivity.
Qed.

Lemma zfill_compare (w : nat) (a b : Z) :
  0 <= a < 10 ^ Z.of_nat w -> 0 <= b < 10 ^ Z.of_nat w ->
  String.compare (datetime.zfill w a) (datetime.zfill w b) = (a ?= b).
Proof.
  revert a b. induction w as [|w IH]; intros a b Ha Hb.
  - cbn in Ha, Hb. assert (a = 0) by lia. assert (b = 0) by lia. now subst.
  - rewrite Nat2Z.inj_succ, Z.pow_succ_r in Ha, Hb by lia.
    cbn [datetime.zfill].
    rewrite string_compare_app by now rewrite !zfill_length.
    rewrite IH by (split; [apply Z.div_pos; lia | apply Z.div_lt_upper_bound; lia]).
    pose proof (Z.div_mod a 10 ltac:(lia)) as Da.
    pose proof (Z.div_mod b 10 ltac:(lia)) as Db.
    pose proof (Z.mod_pos_bound a 10 ltac:(lia)) as Ma.
    pose proof (Z.mod_pos_bound b 10 ltac:(lia)) as Mb.
    destruct (Z.compare_spec (a / 10) (b / 10)) as [E|L|G].
    + cbn [String.compare]. rewrite digit_compare.
      destruct (Z.compare_spec (a mod 10) (b mod 10));
        symmetry; [apply Z.compare_eq_iff|apply Z.compare_lt_iff|apply Z.compare_gt_iff]; lia.
    + symmetry. apply Z.compare_lt_iff. lia.
    + symmetry. apply Z.compare_gt_iff. lia.
Qed.

Lemma string_compare_refl (a : string) : String.compare a a = Eq.
Proof.
  induction a as [|c a IH]; [reflexivity|]. now rewrite string_compare_cons.
Qed.

(** The UTC offset is printed after the microseconds; it is empty or starts
    with a sign, and both signs sort below the decimal point. *)
Lemma format_offset_below_point (tz : option Z) (rest : string) :
  String.compare (datetime.format_offset tz) (String "." rest) = Lt.
Proof.
  destruct tz as [o|]; [|reflexivity].
  unfold datetime.format_offset. now destruct (Z.ltb o 0).
Qed.

Lemma string_compare_antisym (a b : string) :
  String.compare b a = CompOpp (String.compare a b).
Proof. apply (String.compare_antisym b a). Qed.

(** The microsecond suffix: absent exactly when the microseconds are zero. *)
Lemma microsecond_suffix_compare (a b : Z) (tz : option Z) :
  0 <= a <= 999999 -> 0 <= b <= 999999 ->
  String.compare
    ((if Z.eqb a 0 then "" else "." ++ datetime.zfill 6 a) ++ datetime.format_offset tz)%string
    ((if Z.eqb b 0 then "" else "." ++ datetime.zfill 6 b) ++ datetime.format_offset tz)%string
  = (a ?= b).
Proof.
  intros Ha Hb.
  destruct (Z.eqb_spec a 0) as [->|Na], (Z.eqb_spec b 0) as [->|Nb].
  - apply string_compare_refl.
  - cbn [String.append]. rewrite format_offset_below_point.
    symmetry. apply Z.compare_lt_iff. lia.
  - cbn [String.append]. rewrite string_compare_antisym, format_offset_below_point.
    symmetry. apply Z.compare_gt_iff. lia.
  - cbn [String.append]. rewrite string_compare_cons.
    rewrite string_compare_app by now rewrite !zfill_length.
    rewrite zfill_compare by (cbn; lia).
    destruct (a ?= b); try reflexivity. apply string_compare_refl.
Qed.

Lemma isoformat_compare (d1 d2 : datetime.t) :
  datetime.wf d1 -> datetime.wf d2 -> datetime.tzinfo d1 = datetime.tzinfo d2 ->
  String.compare (datetime.isoformat d1) (datetime.isoformat d2) = datetime.compare d1 d2.
Proof.
  intros (Y1 & M1 & D1 & H1 & I1 & S1 & U1 & _) (Y2 & M2 & D2 & H2 & I2 & S2 & U2 & _) TZ.
  unfold datetime.isoformat, datetime.compare, datetime.fields.
  rewrite TZ.
  cbn [datetime.cmp_fields].
  repeat match goal with
  | |- context [String.compare (datetime.zfill ?w ?a ++ _)%string
                               (datetime.zfill ?w ?b ++ _)%string] =>
      rewrite (string_compare_app (datetime.zfill w a) (datetime.zfill w b))
        by (now rewrite !zfill_length);
      rewrite (zfill_compare w a b) by (cbn; lia);
      destruct (a ?= b); try reflexivity
  | |- context [String.compare (String ?c _ ++ _)%string (String ?c _ ++ _)%string] =>
      cbn [String.append]; rewrite string_compare_cons
  | |- context [String.compare (String ?c _) (String ?c _)] =>
      rewrite string_compare_cons
  end.
  rewrite microsecond_suffix_compare by assumption.
  now destruct (_ ?= _).
Qed.

(** Datetimes with the same UTC offset (or none) compare by their fields. *)
Lemma cmp_same_tzinfo (d1 d2 : datetime.t) :
  datetime.tzinfo d1 = datetime.tzinfo d2 ->
  datetime.cmp d1 d2 = Some (datetime.compare d1 d2).
Proof.
  unfold datetime.cmp. intros ->.
  destruct (datetime.tzinfo d2) as [o|]; [|reflexivity]. now rewrite Z.eqb_refl.
Qed.

Lemma string_leb_compare (a b : string) :
  String.leb a b = match String.compare a b with Gt => false | _ => true end.
Proof. unfold String.leb. now destruct (String.compare a b). Qed.

Lemma string_ltb_compare (a b : string) :
  String.ltb a b = match String.compare a b with Lt => true | _ => false end.
Proof. unfold String.ltb. now destruct (String.compare a b). Qed.

(** isoformat keeps the order of datetimes that carry the same UTC offset,
    or none: their ISO strings compare ([<=] and [<], character by
    character) as the datetimes do. *)
Theorem isoformat_preserves_order (d1 d2 : datetime.t) :
  datetime.wf d1 -> datetime.wf d2 -> datetime.tzinfo d1 = datetime.tzinfo d2 ->
  String.leb (datetime.isoformat d1) (datetime.isoformat d2) = datetime.leb d1 d2
  /\ String.ltb (datetime.isoformat d1) (datetime.isoformat d2) = datetime.ltb d1 d2.
Proof.
  intros W1 W2 TZ. rewrite string_leb_compare, string_ltb_compare.
  rewrite (isoformat_compare d1 d2 W1 W2 TZ).
  unfold datetime.leb, datetime.ltb. rewrite (cmp_same_tzinfo d1 d2 TZ).
  split; now destruct (datetime.compare d1 d2).
Qed.

Lemma isoformat_preserves_order_witness :
  String.leb (datetime.isoformat (datetime.mk 2024 1 1 9 0 0 0 (Some 330)))
             (datetime.isoformat (datetime.mk 2024 1 1 9 0 0 500000 (Some 330)))
  = datetime.leb (datetime.mk 2024 1 1 9 0 0 0 (Some 330))
                 (datetime.mk 2024 1 1 9 0 0 500000 (Some 330))
  /\ String.ltb (datetime.isoformat (datetime.mk 2024 1 1 9 0 0 0 (Some 330)))
                (datetime.isoformat (datetime.mk 2024 1 1 9 0 0 500000 (Some 330)))
     = datetime.ltb (datetime.mk 2024 1 1 9 0 0 0 (Some 330))
                    (datetime.mk 2024 1 1 9 0 0 500000 (Some 330)).
Proof.
  apply (isoformat_preserves_order (datetime.mk 2024 1 1 9 0 0 0 (Some 330))
           (datetime.mk 2024 1 1 9 0 0 500000 (Some 330)));
    [unfold datetime.wf; cbn; lia|unfold datetime.wf; cbn; lia|reflexivity].
Defined.

(** When the stored window and the requested window carry the same UTC
    offset (or none), the overlap query, which compares ISO strings, tests
    [existing.start <= new.end] and [existing.end > new.start] in time
    order: closed at the requested end, open at the requested start. *)
Theorem overlap_filter_chronological (spot_id : Z) (st et : datetime.t)
  (s e : datetime.t) (id sp : Z) (plate status : string) :
  datetime.wf st -> datetime.wf et -> datetime.wf s -> datetime.wf e ->
  datetime.tzinfo s = datetime.tzinfo et -> datetime.tzinfo st = datetime.tzinfo e ->
  overlap_filter spot_id (datetime.isoformat st) (datetime.isoformat et)
    (Reservation.mk id sp (datetime.isoformat s) (datetime.isoformat e) plate status)
  = (sp =? spot_id) && String.eqb status "active"
    && (datetime.leb s et && datetime.ltb st e).
Proof.
  intros Wst Wet Ws We T1 T2. unfold overlap_filter.
  cbn [Reservation.spot_id Reservation.status Reservation.start_time Reservation.end_time].
  rewrite string_leb_compare, string_ltb_compare.
  rewrite (isoformat_compare s et Ws Wet T1), (isoformat_compare st e Wst We T2).
  unfold datetime.leb, datetime.ltb.
  rewrite (cmp_same_tzinfo s et T1), (cmp_same_tzinfo st e T2).
  now destruct (datetime.compare s et), (datetime.compare st e).
Qed.

Lemma overlap_filter_chronological_witness :
  overlap_filter 1
    (datetime.isoformat (datetime.mk 2024 1 1 9 0 0 0 (Some (-300))))
    (datetime.isoformat (datetime.mk 2024 1 1 10 0 0 0 (Some (-300))))
    (Reservation.mk 1 1
       (datetime.isoformat (datetime.mk 2024 1 1 10 0 0 0 (Some (-300))))
       (datetime.isoformat (datetime.mk 2024 1 1 11 0 0 0 (Some (-300))))
       "KA01AB1234" "active")
  = (1 =? 1) && String.eqb "active" "active"
    && (datetime.leb (datetime.mk 2024 1 1 10 0 0 0 (Some (-300)))
                     (datetime.mk 2024 1 1 10 0 0 0 (Some (-300)))
        && datetime.ltb (datetime.mk 2024 1 1 9 0 0 0 (Some (-300)))
                        (datetime.mk 2024 1 1 11 0 0 0 (Some (-300)))).
Proof.
  apply (overlap_filter_chronological 1
           (datetime.mk 2024 1 1 9 0 0 0 (Some (-300)))
           (datetime.mk 2024 1 1 10 0 0 0 (Some (-300)))
           (datetime.mk 2024 1 1 10 0 0 0 (Some (-300)))
           (datetime.mk 2024 1 1 11 0 0 0 (Some (-300))));
    try reflexivity; unfold datetime.wf; cbn; lia.
Defined.

(** createReservation answers Conflict exactly when the request is valid,
    the spot exists, and some active reservation of the spot has
    [start_time <= end] and [end_time > start] of the request (on the stored
    strings). *)
Theorem createReservation_conflict_iff (p : ReserveCreate.t) (db : DB) :
  error_kind (fst (createReservation p db)) = Some Conflict <->
  datetime.le (ReserveCreate.end_time p) (ReserveCreate.start_time p) = Ok false
  /\ get_spot (ReserveCreate.spot_id p) db <> None
  /\ exists e, In e (reservation db)
       /\ Reservation.spot_id e = ReserveCreate.spot_id p
       /\ Reservation.status e = "active"%string
       /\ String.leb (Reservation.start_time e)
                     (datetime.isoformat (ReserveCreate.end_time p)) = true
       /\ String.ltb (datetime.isoformat (ReserveCreate.start_time p))
                     (Reservation.end_time e) = true.
Proof.
  rewrite createReservation_unfold.
  destruct (datetime_le_cases (ReserveCreate.end_time p) (ReserveCreate.start_time p))
    as [E|[E|E]]; rewrite E;
    try (split; [discriminate|intros [? _]; discriminate]).
  destruct (get_spot _ db) as [spot|];
    [|split; [discriminate|intros (_ & H & _); congruence]].
  unfold overlapping. destruct (find _ (reservation db)) as [e|] eqn:F;
    cbn [fst error_kind].
  - split; [intros _|reflexivity]. split; [reflexivity|]. split; [discriminate|].
    apply find_some in F. destruct F as [Hin Hf]. unfold overlap_filter in Hf.
    rewrite !andb_true_iff in Hf. destruct Hf as [[A B] [C D]].
    exists e. repeat split; try assumption; [now apply Z.eqb_eq|now apply String.eqb_eq].
  - split; [destruct (has_nul _); discriminate|].
    intros (_ & _ & e & Hin & A & B & C & D).
    pose proof (find_none _ _ F e Hin) as N. unfold overlap_filter in N.
    rewrite A, B, C, D, Z.eqb_refl in N. discriminate.
Qed.

(** create_reservation never reads the availability flag: changing the flag
    of any spot changes neither the answer nor the row returned. *)
Theorem createReservation_ignores_availability (p : ReserveCreate.t) (db : DB)
  (i : Z) (b : bool) :
  fst (createReservation p (set_spot_available i b db)) = fst (createReservation p db).
Proof.
  rewrite !createReservation_unfold.
  destruct (datetime.le _ _) as [[|]| | |]; try reflexivity.
  rewrite get_spot_set_spot_available.
  destruct (get_spot _ db) as [spot|]; [|reflexivity]. cbn [option_map].
  unfold overlapping. cbn [reservation set_spot_available].
  destruct (find _ (reservation db)); [reflexivity|].
  destruct (has_nul _); reflexivity.
Qed.

(** releaseSpot: NotFound when the spot is absent; otherwise the spot is
    returned with availability true, whatever its reservations, and nothing
    else changes. *)
Theorem releaseSpot_contract (i : Z) (db : DB) :
  (get_spot i db = None ->
     error_kind (fst (releaseSpot i db)) = Some NotFound /\ snd (releaseSpot i db) = db)
  /\ (forall s, get_spot i db = Some s ->
        fst (releaseSpot i db) = Ok (ParkingSpot.set_is_available true s)
        /\ parking_spot (snd (releaseSpot i db)) = map (mark_spot i true) (parking_spot db)
        /\ reservation (snd (releaseSpot i db)) = reservation db
        /\ parking_lot (snd (releaseSpot i db)) = parking_lot db).
Proof.
  rewrite releaseSpot_unfold. split.
  - intros ->. split; reflexivity.
  - intros s G. rewrite G. destruct (get_spot_Some _ _ _ G) as [_ ->]. repeat split.
Qed.

Lemma get_reservation_added (db : DB) (sp : Z) (st et plate stat : string) :
  keys_ok Reservation.id (reservation db) (reservation_id_seq db) ->
  get_reservation (reservation_id_seq db + 1) (add_reservation sp st et plate stat db)
  = Some (Reservation.mk (reservation_id_seq db + 1) sp st et plate stat).
Proof.
  intros [_ Hle]. unfold get_reservation. cbn [reservation add_reservation].
  rewrite find_app_list.
  destruct (find _ (reservation db)) as [r|] eqn:F.
  - apply find_some in F. destruct F as [Hin Hk]. apply Z.eqb_eq in Hk.
    specialize (Hle r Hin). lia.
  - cbn. now rewrite Z.eqb_refl.
Qed.

(** Round trip: in a reachable state, ending a reservation right after
    creating it returns it with status ended and leaves its spot available. *)
Theorem create_then_end (p : ReserveCreate.t) (db db' : DB) (r : Reservation.t) :
  reachable db ->
  createReservation p db = (Ok r, db') ->
  fst (endReservation (Reservation.id r) db') = Ok (Reservation.set_status "ended" r)
  /\ Reservation.status (Reservation.set_status "ended" r) = "ended"%string
  /\ exists s, get_spot (Reservation.spot_id r) (snd (endReservation (Reservation.id r) db'))
               = Some s
               /\ ParkingSpot.is_available s = true.
Proof.
  intros R H.
  destruct (createReservation_Ok _ _ _ _ H) as (_ & [spot G] & _ & _ & -> & ->).
  destruct (get_spot_Some _ _ _ G) as [_ Hid].
  destruct (reachable_primary_keys_ok db R) as (_ & _ & KR).
  set (db1 := set_spot_available (ReserveCreate.spot_id p) false db).
  assert (Hget : get_reservation (reservation_id_seq db + 1)
                   (add_reservation (ReserveCreate.spot_id p)
                      (datetime.isoformat (ReserveCreate.start_time p))
                      (datetime.isoformat (ReserveCreate.end_time p))
                      (ReserveCreate.vehicle_plate p) "active" db1)
                 = Some (reservation_of p db)).
  { apply (get_reservation_added db1). exact KR. }
  pose proof (endReservation_active _ _ _ Hget eq_refl) as E.
  cbn [Reservation.spot_id reservation_of] in E.
  cbn [Reservation.id Reservation.spot_id reservation_of]. rewrite E. cbn [fst snd].
  split; [reflexivity|]. split; [reflexivity|].
  exists (ParkingSpot.set_is_available true spot).
  split; [|reflexivity].
  unfold get_spot. cbn [parking_spot add_reservation set_spot_available
                        set_reservation_status]. unfold db1.
  rewrite parking_spot_set_spot_available, map_map.
  rewrite (find_map_same_key ParkingSpot.id).
  - fold (get_spot (ReserveCreate.spot_id p) db). rewrite G. cbn [option_map].
    unfold mark_spot. rewrite Hid, Z.eqb_refl.
    cbn [ParkingSpot.id ParkingSpot.set_is_available].
    rewrite Hid, Z.eqb_refl. destruct spot; cbn in *; now subst.
  - intros x. now rewrite !mark_spot_id.
Qed.

Lemma create_then_end_witness :
  fst (endReservation 1 db_A)
  = Ok (Reservation.set_status "ended" reservation_A)
  /\ Reservation.status (Reservation.set_status "ended" reservation_A) = "ended"%string
  /\ exists s, get_spot 1 (snd (endReservation 1 db_A)) = Some s
               /\ ParkingSpot.is_available s = true.
Proof.
  apply (create_then_end (request 10 11) db_setup db_A reservation_A).
  - apply reachable_steps. constructor.
  - vm_compute. reflexivity.
Defined.

(* ================================================================== *)
(** * Further properties of the handlers *)

(* ------------------------------------------------------------------ *)
(** ** Induction over the requests, with what each handler checked *)

Lemma step_preserves_for (P : DB -> Prop) (rq : Request) :
  (forall db n la lo, P db -> P (add_lot n la lo db)) ->
  (forall db l n ty, P db -> get_lot l db <> None ->
     find (same_number_in_lot l n) (parking_spot db) = None ->
     P (add_spot l n ty true db)) ->
  (forall db i s, P db -> get_spot i db = Some s -> P (set_spot_available i true db)) ->
  (forall db p s, rq = CreateReservation p -> P db ->
     datetime.le (ReserveCreate.end_time p) (ReserveCreate.start_time p) = Ok false ->
     get_spot (ReserveCreate.spot_id p) db = Some s ->
     overlapping p db = None ->
     P (add_reservation (ReserveCreate.spot_id p)
          (datetime.isoformat (ReserveCreate.start_time p))
          (datetime.isoformat (ReserveCreate.end_time p))
          (ReserveCreate.vehicle_plate p) "active"
          (set_spot_available (ReserveCreate.spot_id p) false db))) ->
  (forall db r, P db -> In r (reservation db) ->
     Reservation.status r = "active"%string ->
     P (set_spot_available (Reservation.spot_id r) true
          (set_reservation_status (Reservation.id r) "ended" db))) ->
  forall db, P db -> P (step rq db).
Proof.
  intros Hlot Hspot Hrel Hres Hend db HP.
  destruct rq as [p|l b|i|p|i]; cbn [step].
  - rewrite createLot_unfold. destruct (has_nul _); [exact HP|]. cbn [snd]. now apply Hlot.
  - rewrite createSpot_unfold.
    destruct (SpotCreate.validate b) as [p| | |]; try exact HP.
    destruct (get_lot l db) eqn:G; [|exact HP].
    destruct (find _ (parking_spot db)) eqn:F; [exact HP|]. cbn [snd].
    apply Hspot; [exact HP|congruence|exact F].
  - rewrite releaseSpot_unfold.
    destruct (get_spot i db) as [s|] eqn:G; [|exact HP]. cbn [snd].
    destruct (get_spot_Some _ _ _ G) as [_ E]. rewrite E. now apply (Hrel db i s).
  - rewrite createReservation_unfold.
    destruct (datetime.le _ _) as [[|]| | |] eqn:V; try exact HP.
    destruct (get_spot _ db) as [s|] eqn:G; [|exact HP].
    destruct (overlapping p db) eqn:O; [exact HP|].
    destruct (has_nul _); [exact HP|]. cbn [snd].
    destruct (get_spot_Some _ _ _ G) as [_ E]. rewrite E. now apply (Hres db p s).
  - rewrite endReservation_unfold.
    destruct (get_reservation i db) as [r|] eqn:G; [|exact HP].
    destruct (String.eqb (Reservation.status r) "active") eqn:S; [|exact HP].
    cbn [negb snd]. destruct (get_reservation_Some _ _ _ G) as [Hin _].
    apply String.eqb_eq in S.
    destruct (get_spot _ _) as [s|] eqn:G2.
    + destruct (get_spot_Some _ _ _ G2) as [_ E]. rewrite E. now apply Hend.
    + rewrite <- (set_spot_available_absent (Reservation.spot_id r) true _ G2).
      now apply Hend.
Qed.

Lemma step_preserves (P : DB -> Prop) :
  (forall db n la lo, P db -> P (add_lot n la lo db)) ->
  (forall db l n ty, P db -> get_lot l db <> None ->
     find (same_number_in_lot l n) (parking_spot db) = None ->
     P (add_spot l n ty true db)) ->
  (forall db i s, P db -> get_spot i db = Some s -> P (set_spot_available i true db)) ->
  (forall db p s, P db ->
     datetime.le (ReserveCreate.end_time p) (ReserveCreate.start_time p) = Ok false ->
     get_spot (ReserveCreate.spot_id p) db = Some s ->
     overlapping p db = None ->
     P (add_reservation (ReserveCreate.spot_id p)
          (datetime.isoformat (ReserveCreate.start_time p))
          (datetime.isoformat (ReserveCreate.end_time p))
          (ReserveCreate.vehicle_plate p) "active"
          (set_spot_available (ReserveCreate.spot_id p) false db))) ->
  (forall db r, P db -> In r (reservation db) ->
     Reservation.status r = "active"%string ->
     P (set_spot_available (Reservation.spot_id r) true
          (set_reservation_status (Reservation.id r) "ended" db))) ->
  forall rq db, P db -> P (step rq db).
Proof.
  intros Hlot Hspot Hrel Hres Hend rq.
  apply step_preserves_for; try assumption.
  intros db p s _. apply Hres.
Qed.

Lemma mark_spot_lot_id (i : Z) (b : bool) (s : ParkingSpot.t) :
  ParkingSpot.lot_id (mark_spot i b s) = ParkingSpot.lot_id s.
Proof. unfold mark_spot. now destruct (ParkingSpot.id s =? i). Qed.

Lemma get_lot_add_spot (k l : Z) (n ty : string) (b : bool) (db : DB) :
  get_lot k (add_spot l n ty b db) = get_lot k db.
Proof. reflexivity. Qed.

Lemma find_app_Some {A} (f : A -> bool) (l1 l2 : list A) :
  find f l1 <> None -> find f (l1 ++ l2) <> None.
Proof. rewrite find_app_list. now destruct (find f l1). Qed.

Lemma get_spot_mark_exists (k i : Z) (b : bool) (db : DB) :
  get_spot k db <> None -> get_spot k (set_spot_available i b db) <> None.
Proof.
  rewrite get_spot_set_spot_available. now destruct (get_spot k db).
Qed.

(* ------------------------------------------------------------------ *)
(** ** Keys, references and labels in the reachable states *)

Lemma step_foreign_keys_ok (rq : Request) (db : DB) :
  foreign_keys_ok db -> foreign_keys_ok (step rq db).
Proof.
  apply step_preserves; clear db.
  - intros db n la lo [HS HR]. split; [|exact HR].
    intros s Hs. specialize (HS s Hs). unfold get_lot in *.
    cbn [parking_lot add_lot]. now apply find_app_Some.
  - intros db l n ty [HS HR] Hl _. split.
    + intros s Hs. cbn [parking_spot add_spot] in Hs. apply in_app_iff in Hs.
      rewrite get_lot_add_spot. destruct Hs as [Hs|[<-|[]]]; [now apply HS|exact Hl].
    + intros r Hr. specialize (HR r Hr). unfold get_spot in *.
      cbn [parking_spot add_spot]. now apply find_app_Some.
  - intros db i s0 [HS HR] _. split.
    + intros s Hs. cbn [parking_spot set_spot_available] in Hs.
      apply in_map_iff in Hs. destruct Hs as [s1 [<- Hs1]].
      rewrite mark_spot_lot_id. now apply (HS s1).
    + intros r Hr. apply get_spot_mark_exists. now apply HR.
  - intros db p s0 [HS HR] _ G _. split.
    + intros s Hs. cbn [parking_spot add_reservation set_spot_available] in Hs.
      apply in_map_iff in Hs. destruct Hs as [s1 [<- Hs1]].
      rewrite mark_spot_lot_id. now apply (HS s1).
    + intros r Hr. cbn [reservation add_reservation set_spot_available] in Hr.
      unfold get_spot. cbn [parking_spot add_reservation].
      fold (get_spot (Reservation.spot_id r)
              (set_spot_available (ReserveCreate.spot_id p) false db)).
      apply get_spot_mark_exists. apply in_app_iff in Hr.
      destruct Hr as [Hr|[<-|[]]]; [now apply HR|]. cbn. congruence.
  - intros db r0 [HS HR] _ _. split.
    + intros s Hs. cbn [parking_spot set_reservation_status set_spot_available] in Hs.
      apply in_map_iff in Hs. destruct Hs as [s1 [<- Hs1]].
      rewrite mark_spot_lot_id. now apply (HS s1).
    + intros r Hr. cbn [reservation set_reservation_status set_spot_available] in Hr.
      apply in_map_iff in Hr. destruct Hr as [r1 [<- Hr1]].
      rewrite mark_reservation_spot. apply get_spot_mark_exists.
      unfold get_spot. cbn [parking_spot set_reservation_status]. now apply HR.
Qed.

(** In every reachable state each spot belongs to a lot that exists and each
    reservation to a spot that exists: create_spot and create_reservation
    check the parent row, and no handler deletes a row. *)
Theorem reachable_foreign_keys_ok (db : DB) :
  reachable db -> foreign_keys_ok db.
Proof.
  intros R. induction R as [|db rq R IH].
  - split; intros x [].
  - now apply step_foreign_keys_ok.
Qed.

Lemma reachable_foreign_keys_ok_witness :
  reachable db_two /\ foreign_keys_ok db_two.
Proof.
  split; [apply reachable_steps; constructor|].
  apply (reachable_foreign_keys_ok db_two).
  apply reachable_steps; constructor.
Defined.

Lemma mark_spot_number (i : Z) (b : bool) (s : ParkingSpot.t) :
  ParkingSpot.number (mark_spot i b s) = ParkingSpot.number s.
Proof. unfold mark_spot. now destruct (ParkingSpot.id s =? i). Qed.

Lemma numbers_unique_map_mark (i : Z) (b : bool) (db : DB) (spots : list ParkingSpot.t) :
  (forall s1 s2, In s1 spots -> In s2 spots ->
     ParkingSpot.lot_id s1 = ParkingSpot.lot_id s2 ->
     ParkingSpot.number s1 = ParkingSpot.number s2 -> s1 = s2) ->
  forall s1 s2, In s1 (map (mark_spot i b) spots) -> In s2 (map (mark_spot i b) spots) ->
     ParkingSpot.lot_id s1 = ParkingSpot.lot_id s2 ->
     ParkingSpot.number s1 = ParkingSpot.number s2 -> s1 = s2.
Proof.
  intros H s1 s2 H1 H2 Hl Hn.
  apply in_map_iff in H1. destruct H1 as [a [<- Ha]].
  apply in_map_iff in H2. destruct H2 as [c [<- Hc]].
  rewrite !mark_spot_lot_id in Hl. rewrite !mark_spot_number in Hn.
  now rewrite (H a c Ha Hc Hl Hn).
Qed.

Lemma step_numbers_unique_per_lot (rq : Request) (db : DB) :
  numbers_unique_per_lot db -> numbers_unique_per_lot (step rq db).
Proof.
  apply step_preserves; clear db; unfold numbers_unique_per_lot.
  - intros db n la lo H. exact H.
  - intros db l n ty H _ F s1 s2 H1 H2 Hl Hn.
    cbn [parking_spot add_spot] in H1, H2.
    apply in_app_iff in H1. apply in_app_iff in H2.
    assert (Hnew : forall s, In s (parking_spot db) -> ParkingSpot.lot_id s = l ->
                     ParkingSpot.number s = n -> False).
    { intros s Hs El En. pose proof (find_none _ _ F s Hs) as N.
      unfold same_number_in_lot in N.
      rewrite El, En, Z.eqb_refl, String.eqb_refl in N. discriminate. }
    destruct H1 as [H1|[<-|[]]], H2 as [H2|[<-|[]]].
    + now apply H.
    + exfalso. now apply (Hnew s1 H1).
    + exfalso. apply (Hnew s2 H2); now symmetry.
    + reflexivity.
  - intros db i s H _. cbn [parking_spot set_spot_available].
    now apply (numbers_unique_map_mark i true db).
  - intros db p s H _ _ _. cbn [parking_spot add_reservation set_spot_available].
    now apply (numbers_unique_map_mark _ false db).
  - intros db r H _ _. cbn [parking_spot set_reservation_status set_spot_available].
    now apply (numbers_unique_map_mark _ true db).
Qed.

(** With requests handled one after another, a spot number occurs at most
    once in a lot in every reachable state (the same number may occur in
    different lots). *)
Theorem reachable_numbers_unique_per_lot (db : DB) :
  reachable db -> numbers_unique_per_lot db.
Proof.
  intros R. induction R as [|db rq R IH].
  - intros s1 s2 [].
  - now apply step_numbers_unique_per_lot.
Qed.

Lemma reachable_numbers_unique_per_lot_witness :
  map (fun s => (ParkingSpot.lot_id s, ParkingSpot.number s)) (parking_spot db_city)
  = [(1, "A1"); (1, "A2"); (2, "A1"); (2, "A2"); (3, "A1"); (4, "A1")]%string
  /\ error_kind (fst (createSpot 2 (SpotCreate.mk_body "A1" None) db_city)) = Some Conflict
  /\ numbers_unique_per_lot db_city.
Proof.
  split; [vm_compute; reflexivity|]. split; [vm_compute; reflexivity|].
  apply (reachable_numbers_unique_per_lot db_city).
  apply reachable_steps; constructor.
Defined.

(** In every reachable state the status of a reservation is "active" or
    "ended": rows are inserted as active and end_reservation is the only
    assignment to the column. *)
Theorem reachable_status_known (db : DB) :
  reachable db -> status_known db.
Proof.
  intros R. induction R as [|db rq R IH]; [intros r []|].
  revert IH. apply step_preserves; clear; unfold status_known.
  - intros db n la lo H. exact H.
  - intros db l n ty H _ _. exact H.
  - intros db i s H _. exact H.
  - intros db p s H _ _ _ r Hr.
    cbn [reservation add_reservation set_spot_available] in Hr.
    apply in_app_iff in Hr. destruct Hr as [Hr|[<-|[]]]; [now apply H|now left].
  - intros db r0 H _ _ r Hr.
    cbn [reservation set_reservation_status set_spot_available] in Hr.
    apply in_map_iff in Hr. destruct Hr as [r1 [<- Hr1]].
    unfold mark_reservation. destruct (Reservation.id r1 =? _); [now right|now apply H].
Qed.

Lemma reachable_status_known_witness :
  reachable db_two /\ status_known db_two.
Proof.
  split; [apply reachable_steps; constructor|].
  apply (reachable_status_known db_two).
  apply reachable_steps; constructor.
Defined.

Lemma find_key_iff {A} (key : A -> Z) (rows : list A) (k : Z) (x : A) :
  NoDup (map key rows) ->
  (find (fun y => key y =? k) rows = Some x <-> In x rows /\ key x = k).
Proof.
  intros Hnd. split.
  - intros F. apply find_some in F. destruct F as [Hin Hk].
    split; [assumption|now apply Z.eqb_eq].
  - intros [Hin Hk]. now apply find_unique.
Qed.

(** In every reachable state the ids of each table are distinct, so
    [db.get] finds a row exactly when the table holds it under that id. *)
Theorem reachable_get_iff (db : DB) :
  reachable db ->
  (forall i l, get_lot i db = Some l <-> In l (parking_lot db) /\ ParkingLot.id l = i)
  /\ (forall i s, get_spot i db = Some s
                  <-> In s (parking_spot db) /\ ParkingSpot.id s = i)
  /\ (forall i r, get_reservation i db = Some r
                  <-> In r (reservation db) /\ Reservation.id r = i).
Proof.
  intros R. destruct (reachable_primary_keys_ok db R) as ([KL _] & [KS _] & [KR _]).
  split; [|split]; intros i x.
  - now apply (find_key_iff ParkingLot.id).
  - now apply (find_key_iff ParkingSpot.id).
  - now apply (find_key_iff Reservation.id).
Qed.

Lemma reachable_get_iff_witness :
  reachable db_two /\
  ((forall i l, get_lot i db_two = Some l <-> In l (parking_lot db_two) /\ ParkingLot.id l = i)
   /\ (forall i s, get_spot i db_two = Some s
                   <-> In s (parking_spot db_two) /\ ParkingSpot.id s = i)
   /\ (forall i r, get_reservation i db_two = Some r
                   <-> In r (reservation db_two) /\ Reservation.id r = i)).
Proof.
  split; [apply reachable_steps; constructor|].
  apply (reachable_get_iff db_two).
  apply reachable_steps; constructor.
Defined.

(* ------------------------------------------------------------------ *)
(** ** What no request does *)

Lemma steps_preserves (P : DB -> Prop) :
  (forall rq db, P db -> P (step rq db)) ->
  forall rqs db, P db -> P (steps rqs db).
Proof.
  intros H rqs. induction rqs as [|rq rqs IH]; intros db HP; [exact HP|].
  cbn. apply IH. now apply H.
Qed.

Lemma spot_core_mark (i : Z) (b : bool) (s : ParkingSpot.t) :
  spot_core (mark_spot i b s) = spot_core s.
Proof. unfold mark_spot. now destruct (ParkingSpot.id s =? i). Qed.

Lemma reservation_core_mark (i : Z) (st : string) (r : Reservation.t) :
  reservation_core (mark_reservation i st r) = reservation_core r.
Proof. unfold mark_reservation. now destruct (Reservation.id r =? i). Qed.

Lemma map_core_mark_spot (i : Z) (b : bool) (l : list ParkingSpot.t) :
  map spot_core (map (mark_spot i b) l) = map spot_core l.
Proof. rewrite map_map. apply map_ext. apply spot_core_mark. Qed.

Lemma map_core_mark_reservation (i : Z) (st : string) (l : list Reservation.t) :
  map reservation_core (map (mark_reservation i st) l) = map reservation_core l.
Proof. rewrite map_map. apply map_ext. apply reservation_core_mark. Qed.

Lemma step_extends (db0 : DB) (rq : Request) (d : DB) :
  extends db0 d -> extends db0 (step rq d).
Proof.
  apply step_preserves; clear d; unfold extends.
  - intros d n la lo ([l1 H1] & H2 & H3). split; [|now split].
    cbn [parking_lot add_lot]. rewrite H1, <- app_assoc. now eexists.
  - intros d l n ty (H1 & [l2 H2] & H3) _ _. split; [exact H1|]. split; [|exact H3].
    cbn [parking_spot add_spot]. rewrite map_app, H2, <- app_assoc. now eexists.
  - intros d i s (H1 & [l2 H2] & H3) _. split; [exact H1|]. split; [|exact H3].
    cbn [parking_spot set_spot_available]. rewrite map_core_mark_spot. now exists l2.
  - intros d p s (H1 & [l2 H2] & [l3 H3]) _ _ _. split; [exact H1|]. split.
    + cbn [parking_spot add_reservation set_spot_available].
      rewrite map_core_mark_spot. now exists l2.
    + cbn [reservation add_reservation set_spot_available].
      rewrite map_app, H3, <- app_assoc. now eexists.
  - intros d r (H1 & [l2 H2] & [l3 H3]) _ _. split; [exact H1|]. split.
    + cbn [parking_spot set_reservation_status set_spot_available].
      rewrite map_core_mark_spot. now exists l2.
    + cbn [reservation set_reservation_status set_spot_available].
      rewrite map_core_mark_reservation. now exists l3.
Qed.

(** The tables only grow, whatever requests follow: lots are never changed
    or removed; spots keep id, lot, number and type (only the availability
    flag is assigned); reservations keep id, spot, window and plate (only
    the status is assigned).  New rows go to the end. *)
Theorem steps_append_only (rqs : list Request) (db : DB) :
  extends db (steps rqs db).
Proof.
  apply (steps_preserves (extends db)).
  - apply step_extends.
  - split; [|split]; exists []; now rewrite app_nil_r.
Qed.

(** "ended" is final: a reservation row with status "ended" stays in the
    table unchanged, whatever requests follow. *)
Theorem ended_reservation_is_final (rqs : list Request) (db : DB) (r : Reservation.t) :
  In r (reservation db) -> Reservation.status r = "ended"%string ->
  In r (reservation (steps rqs db)).
Proof.
  intros Hin Hst. revert rqs db Hin.
  apply (steps_preserves (fun d => In r (reservation d))).
  intros rq d. apply (step_preserves (fun d => In r (reservation d))); clear d.
  - intros d n la lo H. exact H.
  - intros d l n ty H _ _. exact H.
  - intros d i s H _. exact H.
  - intros d p s H _ _ _. cbn [reservation add_reservation set_spot_available].
    apply in_app_iff. now left.
  - intros d r0 H _ _. cbn [reservation set_reservation_status set_spot_available].
    apply in_map_iff. exists r. split; [|exact H].
    unfold mark_reservation. destruct (Reservation.id r =? _); [|reflexivity].
    destruct r. cbn in Hst |- *. now rewrite Hst.
Qed.

Lemma ended_reservation_is_final_witness :
  In (Reservation.set_status "ended" reservation_A)
     (reservation (steps [CreateReservation (request 10 11); EndReservation 1]
                         (snd (endReservation 1 db_A)))).
Proof.
  apply (ended_reservation_is_final
           [CreateReservation (request 10 11); EndReservation 1]
           (snd (endReservation 1 db_A))
           (Reservation.set_status "ended" reservation_A)).
  - vm_compute. now left.
  - reflexivity.
Defined.

(* ------------------------------------------------------------------ *)
(** ** How the operations compose *)

Lemma get_spot_add_reservation (k sp : Z) (st et plate stat : string) (db : DB) :
  get_spot k (add_reservation sp st et plate stat db) = get_spot k db.
Proof. reflexivity. Qed.

Lemma overlapping_app (p : ReserveCreate.t) (db db' : DB) (extra : list Reservation.t) :
  reservation db' = reservation db ++ extra ->
  Forall (fun e => Reservation.spot_id e <> ReserveCreate.spot_id p
                   \/ Reservation.status e <> "active"%string) extra ->
  overlapping p db' = overlapping p db.
Proof.
  intros E H. unfold overlapping. rewrite E, find_app_list. clear E.
  destruct (find _ (reservation db)); [reflexivity|].
  induction H as [|e extra He _ IH]; [reflexivity|]. cbn [find].
  unfold overlap_filter at 1. destruct He as [He|He].
  - apply Z.eqb_neq in He. rewrite He. cbn [andb]. exact IH.
  - apply String.eqb_neq in He. rewrite He, andb_false_r. cbn [andb]. exact IH.
Qed.

Lemma createReservation_kind (p : ReserveCreate.t) (db db' : DB) :
  (get_spot (ReserveCreate.spot_id p) db' = None
   <-> get_spot (ReserveCreate.spot_id p) db = None) ->
  overlapping p db' = overlapping p db ->
  error_kind (fst (createReservation p db')) = error_kind (fst (createReservation p db)).
Proof.
  intros G O. rewrite !createReservation_unfold, O.
  destruct (datetime.le _ _) as [[|]| | |]; try reflexivity.
  destruct (get_spot _ db') eqn:G1, (get_spot _ db) eqn:G2.
  - destruct (overlapping p db); [reflexivity|]. destruct (has_nul _); reflexivity.
  - destruct G as [_ G]. now discriminate G.
  - destruct G as [G _]. now discriminate G.
  - reflexivity.
Qed.

(** Reservations are per spot: whether a request for one spot is accepted,
    and with which error it is refused, does not depend on a request for
    another spot having been handled before it. *)
Theorem createReservation_other_spot_independent (p q : ReserveCreate.t) (db : DB) :
  ReserveCreate.spot_id q <> ReserveCreate.spot_id p ->
  error_kind (fst (createReservation p (snd (createReservation q db))))
  = error_kind (fst (createReservation p db)).
Proof.
  intros Hne. rewrite (createReservation_unfold q db).
  destruct (datetime.le _ _) as [[|]| | |]; try reflexivity.
  destruct (get_spot (ReserveCreate.spot_id q) db) as [s|]; [|reflexivity].
  destruct (overlapping q db); [reflexivity|].
  destruct (has_nul _); [reflexivity|]. cbn [snd].
  apply createReservation_kind.
  - rewrite get_spot_add_reservation, get_spot_set_spot_available.
    destruct (get_spot _ db); cbn; split; congruence.
  - apply (overlapping_app p db _ [reservation_of q db]); [reflexivity|].
    constructor; [|constructor]. now left.
Qed.

Lemma createReservation_other_spot_independent_witness :
  fst (createReservation (ReserveCreate.mk 3 (at_hour 10) (at_hour 11) "KA01AB1234") db_city)
  = Ok (Reservation.mk 2 3 "2024-01-01T10:00:00" "2024-01-01T11:00:00" "KA01AB1234" "active")
  /\ error_kind (fst (createReservation
                        (ReserveCreate.mk 2 (at_hour 10) (at_hour 12) "DL03CD0002") db_city))
     = Some Conflict
  /\ error_kind (fst (createReservation
                        (ReserveCreate.mk 2 (at_hour 10) (at_hour 12) "DL03CD0002")
                        (snd (createReservation
                                (ReserveCreate.mk 3 (at_hour 10) (at_hour 11) "KA01AB1234")
                                db_city))))
     = error_kind (fst (createReservation
                          (ReserveCreate.mk 2 (at_hour 10) (at_hour 12) "DL03CD0002")
                          db_city)).
Proof.
  split; [vm_compute; reflexivity|]. split; [vm_compute; reflexivity|].
  apply (createReservation_other_spot_independent
           (ReserveCreate.mk 2 (at_hour 10) (at_hour 12) "DL03CD0002")
           (ReserveCreate.mk 3 (at_hour 10) (at_hour 11) "KA01AB1234") db_city).
  cbn. lia.
Defined.

Lemma map_mark_reservation_absent (i : Z) (st : string) (l : list Reservation.t) :
  (forall r, In r l -> Reservation.id r <> i) -> map (mark_reservation i st) l = l.
Proof.
  induction l as [|x l IH]; intros H; [reflexivity|]. cbn.
  rewrite IH by (intros r Hr; apply H; now right).
  unfold mark_reservation.
  destruct (Z.eqb_spec (Reservation.id x) i) as [E|_]; [|reflexivity].
  exfalso. now apply (H x (or_introl eq_refl)).
Qed.

(** A reservation that was created and ended at once leaves no trace on
    what can be booked: in a reachable state, every later request is
    accepted or refused as it would have been before the two calls. *)
Theorem create_then_end_restores_bookability (p p' : ReserveCreate.t) (db db1 : DB)
  (r : Reservation.t) :
  reachable db ->
  createReservation p db = (Ok r, db1) ->
  error_kind (fst (createReservation p' (snd (endReservation (Reservation.id r) db1))))
  = error_kind (fst (createReservation p' db)).
Proof.
  intros R H.
  destruct (createReservation_Ok _ _ _ _ H) as (_ & [spot G] & _ & _ & -> & ->).
  destruct (reachable_primary_keys_ok db R) as (_ & _ & KR).
  set (db0 := set_spot_available (ReserveCreate.spot_id p) false db).
  assert (Hget : get_reservation (reservation_id_seq db + 1)
                   (add_reservation (ReserveCreate.spot_id p)
                      (datetime.isoformat (ReserveCreate.start_time p))
                      (datetime.isoformat (ReserveCreate.end_time p))
                      (ReserveCreate.vehicle_plate p) "active" db0)
                 = Some (reservation_of p db)).
  { apply (get_reservation_added db0). exact KR. }
  cbn [Reservation.id reservation_of].
  rewrite (endReservation_active _ _ _ Hget eq_refl). cbn [snd].
  apply createReservation_kind.
  - rewrite get_spot_set_spot_available.
    unfold get_spot at 1. cbn [parking_spot set_reservation_status add_reservation].
    fold (get_spot (ReserveCreate.spot_id p') db0). unfold db0.
    rewrite get_spot_set_spot_available.
    destruct (get_spot (ReserveCreate.spot_id p') db); cbn [option_map];
      split; intros X; try reflexivity; discriminate X.
  - apply (overlapping_app p' db _ [Reservation.set_status "ended" (reservation_of p db)]).
    + cbn [reservation set_spot_available set_reservation_status add_reservation db0].
      rewrite map_app. cbn [map]. f_equal.
      * apply map_mark_reservation_absent. intros e He.
        destruct KR as [_ Hle]. specialize (Hle e He). lia.
      * unfold mark_reservation. cbn [Reservation.id].
        now rewrite Z.eqb_refl.
    + constructor; [|constructor]. right. cbn. discriminate.
Qed.

Lemma create_then_end_restores_bookability_witness :
  error_kind (fst (createReservation (request 10 11) (snd (endReservation 1 db_A))))
  = error_kind (fst (createReservation (request 10 11) db_setup)).
Proof.
  apply (create_then_end_restores_bookability (request 10 11) (request 10 11)
           db_setup db_A reservation_A).
  - apply reachable_steps. constructor.
  - vm_compute. reflexivity.
Defined.

Lemma mark_spot_idem (i : Z) (b : bool) (s : ParkingSpot.t) :
  mark_spot i b (mark_spot i b s) = mark_spot i b s.
Proof.
  unfold mark_spot. destruct (ParkingSpot.id s =? i) eqn:E; [|now rewrite E].
  cbn [ParkingSpot.id ParkingSpot.set_is_available]. now rewrite E.
Qed.

(** releaseSpot is idempotent: a second call answers as the first did and
    leaves the database of the first. *)
Theorem releaseSpot_idempotent (i : Z) (db : DB) :
  releaseSpot i (snd (releaseSpot i db)) = releaseSpot i db.
Proof.
  rewrite (releaseSpot_unfold i db).
  destruct (get_spot i db) as [s|] eqn:G; cbn [snd].
  - destruct (get_spot_Some _ _ _ G) as [_ Hid]. rewrite Hid.
    rewrite releaseSpot_unfold, get_spot_set_spot_available, G. cbn [option_map].
    rewrite mark_spot_id, Hid. f_equal.
    + unfold mark_spot. now rewrite Hid, Z.eqb_refl.
    + destruct db as [ls ss rs a b c]. unfold set_spot_available.
      cbn [parking_lot parking_spot reservation parking_lot_id_seq
           parking_spot_id_seq reservation_id_seq].
      f_equal. rewrite map_map. apply map_ext. apply mark_spot_idem.
  - rewrite releaseSpot_unfold, G. reflexivity.
Qed.

Lemma filter_available_mark_false (k : Z) (l : list ParkingSpot.t) :
  filter ParkingSpot.is_available (map (mark_spot k false) l)
  = filter (fun s => ParkingSpot.is_available s && negb (ParkingSpot.id s =? k)) l.
Proof.
  induction l as [|s l IH]; [reflexivity|]. cbn [map filter]. rewrite IH.
  unfold mark_spot. destruct (ParkingSpot.id s =? k); cbn.
  - now rewrite andb_false_r.
  - now rewrite andb_true_r.
Qed.

(** The listing of available spots follows the reservations: after a
    successful createReservation it has lost exactly the spot that was
    reserved, and after a successful endReservation or releaseSpot the spot
    concerned is listed again.  Listing changes nothing. *)
Theorem listSpots_follows_reservations (db : DB) :
  (forall b, snd (listSpots b db) = db)
  /\ (forall p r db', createReservation p db = (Ok r, db') ->
        fst (listSpots true db')
        = Ok (filter (fun s => ParkingSpot.is_available s
                               && negb (ParkingSpot.id s =? ReserveCreate.spot_id p))
                     (parking_spot db)))
  /\ (forall i r db' s, endReservation i db = (Ok r, db') ->
        In s (parking_spot db') -> ParkingSpot.id s = Reservation.spot_id r ->
        exists l, fst (listSpots true db') = Ok l /\ In s l)
  /\ (forall i s0 db' s, releaseSpot i db = (Ok s0, db') ->
        In s (parking_spot db') -> ParkingSpot.id s = i ->
        exists l, fst (listSpots true db') = Ok l /\ In s l).
Proof.
  split; [reflexivity|]. split; [|split].
  - intros p r db' H.
    destruct (createReservation_Ok _ _ _ _ H) as (_ & _ & _ & _ & _ & ->).
    unfold listSpots, run, list_spots, query.
    cbn [fst view parking_spot add_reservation set_spot_available].
    now rewrite filter_available_mark_false.
  - intros i r db' s H Hin Hs.
    destruct (get_reservation i db) as [r0|] eqn:G;
      [|rewrite endReservation_unfold, G in H; discriminate].
    destruct (String.eqb_spec (Reservation.status r0) "active") as [A|A].
    + rewrite (endReservation_active i db r0 G A) in H. injection H as <- <-.
      cbn [Reservation.spot_id Reservation.set_status] in Hs.
      eexists. split; [reflexivity|]. apply filter_In. split; [exact Hin|].
      cbn [parking_spot set_spot_available set_reservation_status] in Hin.
      apply in_map_iff in Hin. destruct Hin as [s1 [<- _]].
      rewrite mark_spot_id in Hs. unfold mark_spot. apply Z.eqb_eq in Hs.
      now rewrite Hs.
    + rewrite endReservation_unfold, G in H. apply String.eqb_neq in A.
      rewrite A in H. discriminate.
  - intros i s0 db' s H Hin Hs. rewrite releaseSpot_unfold in H.
    destruct (get_spot i db) as [s1|] eqn:G; [|discriminate].
    injection H as _ <-. destruct (get_spot_Some _ _ _ G) as [_ Hid].
    rewrite Hid in Hin.
    eexists. split; [reflexivity|]. apply filter_In. rewrite Hid. split; [exact Hin|].
    cbn [parking_spot set_spot_available] in Hin.
    apply in_map_iff in Hin. destruct Hin as [s2 [<- _]].
    rewrite mark_spot_id in Hs. unfold mark_spot. apply Z.eqb_eq in Hs.
    now rewrite Hs.
Qed.

Lemma find_added_key {A} (key : A -> Z) (rows : list A) (last : Z) (x : A) :
  keys_ok key rows last -> key x = last + 1 ->
  find (fun y => key y =? last + 1) (rows ++ [x]) = Some x.
Proof.
  intros [_ Hle] Hx. rewrite find_app_list.
  destruct (find _ rows) as [y|] eqn:F.
  - apply find_some in F. destruct F as [Hin Hk]. apply Z.eqb_eq in Hk.
    specialize (Hle y Hin). lia.
  - cbn. now rewrite Hx, Z.eqb_refl.
Qed.

(** Insert and lookup: in a reachable state, a row that a create operation
    returns is the row [db.get] finds under its id afterwards, and a new lot
    is the last entry of the lot listing. *)
Theorem created_rows_are_found (db : DB) :
  reachable db ->
  (forall p lot db', createLot p db = (Ok lot, db') ->
     get_lot (ParkingLot.id lot) db' = Some lot
     /\ fst (listLots db') = Ok (parking_lot db ++ [lot]))
  /\ (forall l b s db', createSpot l b db = (Ok s, db') ->
        get_spot (ParkingSpot.id s) db' = Some s)
  /\ (forall p r db', createReservation p db = (Ok r, db') ->
        get_reservation (Reservation.id r) db' = Some r).
Proof.
  intros R. destruct (reachable_primary_keys_ok db R) as (KL & KS & KR).
  split; [|split].
  - intros p lot db' H. rewrite createLot_unfold in H.
    destruct (has_nul _); [discriminate|]. injection H as <- <-.
    split; [|reflexivity].
    unfold get_lot. cbn [parking_lot add_lot ParkingLot.id].
    now apply (find_added_key ParkingLot.id _ _ _ KL).
  - intros l b s db' H. rewrite createSpot_unfold in H.
    destruct (SpotCreate.validate b) as [q| | |]; try discriminate.
    destruct (get_lot l db); [|discriminate].
    destruct (find _ (parking_spot db)); [discriminate|].
    injection H as <- <-.
    unfold get_spot. cbn [parking_spot add_spot ParkingSpot.id].
    now apply (find_added_key ParkingSpot.id _ _ _ KS).
  - intros p r db' H.
    destruct (createReservation_Ok _ _ _ _ H) as (_ & _ & _ & _ & -> & ->).
    cbn [Reservation.id reservation_of].
    now apply (get_reservation_added (set_spot_available _ false db)).
Qed.

Lemma created_rows_are_found_witness :
  reachable db_setup /\
  ((forall p lot db', createLot p db_setup = (Ok lot, db') ->
      get_lot (ParkingLot.id lot) db' = Some lot
      /\ fst (listLots db') = Ok (parking_lot db_setup ++ [lot]))
   /\ (forall l b s db', createSpot l b db_setup = (Ok s, db') ->
         get_spot (ParkingSpot.id s) db' = Some s)
   /\ (forall p r db', createReservation p db_setup = (Ok r, db') ->
         get_reservation (Reservation.id r) db' = Some r)).
Proof.
  split; [apply reachable_steps; constructor|].
  apply (created_rows_are_found db_setup).
  apply reachable_steps; constructor.
Defined.

(* ------------------------------------------------------------------ *)
(** ** Request validation and the stored windows *)

Lemma cmp_fields_antisym (a b : list Z) :
  datetime.cmp_fields b a = CompOpp (datetime.cmp_fields a b).
Proof.
  revert b. induction a as [|x a IH]; intros [|y b]; try reflexivity.
  cbn. rewrite (Z.compare_antisym x y).
  destruct (x ?= y); cbn; [apply IH|reflexivity|reflexivity].
Qed.

Lemma cmp_antisym (a b : datetime.t) :
  datetime.cmp b a = option_map CompOpp (datetime.cmp a b).
Proof.
  unfold datetime.cmp, datetime.compare.
  destruct (datetime.tzinfo a) as [oa|], (datetime.tzinfo b) as [ob|]; try reflexivity.
  - rewrite (Z.eqb_sym ob oa). destruct (oa =? ob); cbn [option_map]; f_equal.
    + apply cmp_fields_antisym.
    + apply Z.compare_antisym.
  - cbn [option_map]. f_equal. apply cmp_fields_antisym.
Qed.

Lemma datetime_le_false_ltb (a b : datetime.t) :
  datetime.le a b = Ok false <-> datetime.ltb b a = true.
Proof.
  unfold datetime.le, datetime.ltb. rewrite (cmp_antisym a b).
  destruct (datetime.cmp a b) as [[| |]|]; cbn; split; congruence.
Qed.

Lemma datetime_le_true_leb (a b : datetime.t) :
  datetime.le a b = Ok true <-> datetime.leb a b = true.
Proof.
  unfold datetime.le, datetime.leb.
  destruct (datetime.cmp a b) as [[| |]|]; cbn; split; congruence.
Qed.

Lemma datetime_le_TypeError (a b : datetime.t) :
  datetime.le a b
  = Uncaught "TypeError: can't compare offset-naive and offset-aware datetimes"
  <-> ((datetime.tzinfo a = None /\ datetime.tzinfo b <> None)
       \/ (datetime.tzinfo a <> None /\ datetime.tzinfo b = None)).
Proof.
  unfold datetime.le, datetime.cmp.
  destruct (datetime.tzinfo a) as [oa|], (datetime.tzinfo b) as [ob|].
  - destruct (oa =? ob); [destruct (datetime.compare a b)|destruct (_ ?= _)];
      (split; [discriminate|intros [[? _]|[_ ?]]; discriminate]).
  - split; [intros _; right; split; [discriminate|reflexivity]|reflexivity].
  - split; [intros _; left; split; [reflexivity|discriminate]|reflexivity].
  - destruct (datetime.compare a b);
      (split; [discriminate|intros [[_ ?]|[? _]]; congruence]).
Qed.

(** The pydantic validator has three outcomes.  It accepts exactly the
    requests whose end is strictly after their start, and hands them on
    unchanged; it answers the validation error exactly when the end is at or
    before the start; and when one of the two datetimes carries a UTC offset
    and the other does not, the comparison raises TypeError, which is not a
    validation error. *)
Theorem ReserveCreate_validate_iff (p : ReserveCreate.t) :
  let st := ReserveCreate.start_time p in
  let et := ReserveCreate.end_time p in
  (ReserveCreate.validate p = Ok p <-> datetime.ltb st et = true)
  /\ (ReserveCreate.validate p
      = RequestValidationError "end_time must be after start_time"
      <-> datetime.leb et st = true)
  /\ (ReserveCreate.validate p
      = Uncaught "TypeError: can't compare offset-naive and offset-aware datetimes"
      <-> ((datetime.tzinfo st = None /\ datetime.tzinfo et <> None)
           \/ (datetime.tzinfo st <> None /\ datetime.tzinfo et = None)))
  /\ (datetime.ltb st et = true \/ datetime.leb et st = true
      \/ ((datetime.tzinfo st = None /\ datetime.tzinfo et <> None)
          \/ (datetime.tzinfo st <> None /\ datetime.tzinfo et = None))).
Proof.
  intros st et.
  rewrite <- (datetime_le_false_ltb et st), <- (datetime_le_true_leb et st).
  assert (T : datetime.le et st
              = Uncaught "TypeError: can't compare offset-naive and offset-aware datetimes"
              <-> ((datetime.tzinfo st = None /\ datetime.tzinfo et <> None)
                   \/ (datetime.tzinfo st <> None /\ datetime.tzinfo et = None))).
  { rewrite datetime_le_TypeError. tauto. }
  rewrite <- T.
  unfold ReserveCreate.validate, ReserveCreate.check_order. fold st et.
  destruct (datetime_le_cases et st) as [E|[E|E]]; rewrite E.
  - repeat split; try discriminate; auto.
  - repeat split; try discriminate; auto. now destruct p.
  - repeat split; try discriminate; auto.
Qed.

Lemma ReserveCreate_validate_iff_witness :
  ReserveCreate.validate (request 10 11) = Ok (request 10 11)
  /\ ReserveCreate.validate (request 11 11)
     = RequestValidationError "end_time must be after start_time"
  /\ ReserveCreate.validate
       (ReserveCreate.mk 1 (at_hour 10) (datetime.mk 2024 1 1 11 0 0 0 (Some 0)) "KA01AB1234")
     = Uncaught "TypeError: can't compare offset-naive and offset-aware datetimes".
Proof.
  split; [|split].
  - apply (proj1 (ReserveCreate_validate_iff (request 10 11))). reflexivity.
  - apply (proj1 (proj2 (ReserveCreate_validate_iff (request 11 11)))). reflexivity.
  - apply (proj1 (proj2 (proj2 (ReserveCreate_validate_iff
             (ReserveCreate.mk 1 (at_hour 10) (datetime.mk 2024 1 1 11 0 0 0 (Some 0))
                "KA01AB1234"))))).
    left. split; [reflexivity|discriminate].
Defined.

Lemma cmp_fields_eq (a b : list Z) : datetime.cmp_fields a b = Eq -> a = b.
Proof.
  revert b. induction a as [|x a IH]; intros [|y b]; cbn; try discriminate;
    [reflexivity|].
  destruct (Z.compare_spec x y) as [E|E|E]; try discriminate.
  intros H. subst. f_equal. now apply IH.
Qed.

Lemma string_app_inj (a1 a2 b1 b2 : string) :
  String.length a1 = String.length a2 ->
  (a1 ++ b1 = a2 ++ b2)%string -> a1 = a2 /\ b1 = b2.
Proof.
  revert a2. induction a1 as [|c1 a1 IH]; intros [|c2 a2] L E; try discriminate.
  - now split.
  - cbn in L, E. injection E as -> E. injection L as L.
    destruct (IH a2 L E) as [-> ->]. now split.
Qed.

Lemma string_cons_inj (c : ascii) (a b : string) : String c a = String c b -> a = b.
Proof. now intros [= ->]. Qed.

Lemma zfill_inj (w : nat) (a b : Z) :
  0 <= a < 10 ^ Z.of_nat w -> 0 <= b < 10 ^ Z.of_nat w ->
  datetime.zfill w a = datetime.zfill w b -> a = b.
Proof.
  intros Ha Hb E. pose proof (zfill_compare w a b Ha Hb) as C.
  rewrite E, string_compare_refl in C. symmetry in C. now apply Z.compare_eq_iff.
Qed.

(** The printed offset determines the offset. *)
Lemma format_offset_inj (t1 t2 : option Z) :
  match t1 with Some o => -1440 < o < 1440 | None => True end ->
  match t2 with Some o => -1440 < o < 1440 | None => True end ->
  datetime.format_offset t1 = datetime.format_offset t2 -> t1 = t2.
Proof.
  unfold datetime.format_offset.
  destruct t1 as [o1|], t2 as [o2|]; intros B1 B2 E.
  - assert (H : (o1 <? 0) = (o2 <? 0) /\ Z.abs o1 / 60 = Z.abs o2 / 60
                /\ Z.abs o1 mod 60 = Z.abs o2 mod 60).
    { apply string_app_inj in E; [|now destruct (o1 <? 0), (o2 <? 0)].
      destruct E as [Es E].
      apply string_app_inj in E; [|now rewrite !zfill_length].
      destruct E as [Eh E]. cbn [String.append] in E. apply string_cons_inj in E.
      split; [now destruct (o1 <? 0), (o2 <? 0)|].
      assert (Q1 : 0 <= Z.abs o1 / 60 < 100)
        by (split; [apply Z.div_pos; lia|apply Z.div_lt_upper_bound; lia]).
      assert (Q2 : 0 <= Z.abs o2 / 60 < 100)
        by (split; [apply Z.div_pos; lia|apply Z.div_lt_upper_bound; lia]).
      pose proof (Z.mod_pos_bound (Z.abs o1) 60 ltac:(lia)) as R1.
      pose proof (Z.mod_pos_bound (Z.abs o2) 60 ltac:(lia)) as R2.
      split; apply (zfill_inj 2); try assumption;
        try (change (10 ^ Z.of_nat 2) with 100; lia). }
    destruct H as (Hs & Hd & Hm).
    pose proof (Z.div_mod (Z.abs o1) 60 ltac:(lia)) as D1.
    pose proof (Z.div_mod (Z.abs o2) 60 ltac:(lia)) as D2.
    f_equal. destruct (Z.ltb_spec o1 0), (Z.ltb_spec o2 0); try discriminate; lia.
  - destruct (o1 <? 0); discriminate.
  - destruct (o2 <? 0); discriminate.
  - reflexivity.
Qed.

(** isoformat loses nothing: two well-formed datetimes, naive or aware,
    with the same ISO string are the same datetime with the same offset, so
    a stored window determines the instants of the request. *)
Theorem isoformat_injective (d1 d2 : datetime.t) :
  datetime.wf d1 -> datetime.wf d2 ->
  datetime.isoformat d1 = datetime.isoformat d2 -> d1 = d2.
Proof.
  intros (Y1 & M1 & D1 & H1 & I1 & S1 & U1 & T1) (Y2 & M2 & D2 & H2 & I2 & S2 & U2 & T2).
  unfold datetime.isoformat. intros E.
  destruct d1 as [y1 m1 d1 h1 i1 s1 u1 t1], d2 as [y2 m2 d2 h2 i2 s2 u2 t2].
  cbn [datetime.year datetime.month datetime.day datetime.hour datetime.minute
       datetime.second datetime.microsecond datetime.tzinfo] in *.
  apply string_app_inj in E; [|now rewrite !zfill_length]. destruct E as [Ey E].
  cbn [String.append] in E. apply string_cons_inj in E.
  apply string_app_inj in E; [|now rewrite !zfill_length]. destruct E as [Em E].
  cbn [String.append] in E. apply string_cons_inj in E.
  apply string_app_inj in E; [|now rewrite !zfill_length]. destruct E as [Ed E].
  cbn [String.append] in E. apply string_cons_inj in E.
  apply string_app_inj in E; [|now rewrite !zfill_length]. destruct E as [Eh E].
  cbn [String.append] in E. apply string_cons_inj in E.
  apply string_app_inj in E; [|now rewrite !zfill_length]. destruct E as [Ei E].
  cbn [String.append] in E. apply string_cons_inj in E.
  apply string_app_inj in E; [|now rewrite !zfill_length]. destruct E as [Es E].
  apply zfill_inj in Ey; [|cbn; lia|cbn; lia].
  apply zfill_inj in Em; [|cbn; lia|cbn; lia].
  apply zfill_inj in Ed; [|cbn; lia|cbn; lia].
  apply zfill_inj in Eh; [|cbn; lia|cbn; lia].
  apply zfill_inj in Ei; [|cbn; lia|cbn; lia].
  apply zfill_inj in Es; [|cbn; lia|cbn; lia].
  subst y2 m2 d2 h2 i2 s2.
  assert (X : u1 = u2 /\ t1 = t2).
  { destruct (Z.eqb_spec u1 0) as [->|N1], (Z.eqb_spec u2 0) as [->|N2];
      cbn [String.append] in E.
    - split; [reflexivity|]. now apply format_offset_inj.
    - exfalso. unfold datetime.format_offset in E.
      destruct t1 as [o|]; [destruct (o <? 0)|]; discriminate.
    - exfalso. unfold datetime.format_offset in E.
      destruct t2 as [o|]; [destruct (o <? 0)|]; discriminate.
    - apply string_cons_inj in E.
      apply string_app_inj in E; [|now rewrite !zfill_length]. destruct E as [Eu E].
      split; [apply (zfill_inj 6); [cbn; lia|cbn; lia|exact Eu]|].
      now apply format_offset_inj. }
  destruct X as [-> ->]. reflexivity.
Qed.

Lemma isoformat_injective_witness :
  datetime.mk 2024 1 1 9 0 0 0 (Some 330)
  = datetime.mk (2000 + 24) 1 1 9 0 0 0 (Some (6 * 60 - 30)).
Proof.
  apply (isoformat_injective (datetime.mk 2024 1 1 9 0 0 0 (Some 330))
           (datetime.mk (2000 + 24) 1 1 9 0 0 0 (Some (6 * 60 - 30))));
    [unfold datetime.wf; cbn; lia | unfold datetime.wf; cbn; lia | reflexivity].
Defined.

Lemma step_window_ok (rq : Request) (db : DB) :
  wf_request rq ->
  (forall r, In r (reservation db) -> window_ok r) ->
  forall r, In r (reservation (step rq db)) -> window_ok r.
Proof.
  intros W. apply (step_preserves_for (fun d => forall r, In r (reservation d) -> window_ok r));
    clear db.
  - intros db n la lo H. exact H.
  - intros db l n ty H _ _. exact H.
  - intros db i s H _. exact H.
  - intros db p s -> H V _ _ r Hr.
    cbn [reservation add_reservation set_spot_available] in Hr.
    apply in_app_iff in Hr. destruct Hr as [Hr|[<-|[]]]; [now apply H|].
    destruct W as [W1 W2]. apply datetime_le_false_ltb in V.
    exists (ReserveCreate.start_time p), (ReserveCreate.end_time p).
    split; [exact W1|]. split; [exact W2|]. split; [reflexivity|].
    split; [reflexivity|]. split; [exact V|].
    intros TZ. cbn [Reservation.start_time Reservation.end_time].
    rewrite string_ltb_compare, (isoformat_compare _ _ W1 W2 TZ).
    unfold datetime.ltb in V. rewrite (cmp_same_tzinfo _ _ TZ) in V. exact V.
  - intros db r0 H _ _ r Hr.
    cbn [reservation set_reservation_status set_spot_available] in Hr.
    apply in_map_iff in Hr. destruct Hr as [r1 [<- Hr1]].
    destruct (H r1 Hr1) as (s & e & Ws & We & Es & Ee & L & O).
    exists s, e. unfold mark_reservation.
    destruct (Reservation.id r1 =? _);
      (split; [exact Ws|]; split; [exact We|]; split; [exact Es|]; split; [exact Ee|];
       split; [exact L|exact O]).
Qed.

(** After any sequence of requests with well-formed datetimes, every stored
    window is the ISO form of a start and an end with the start before the
    end in time; when the two carry the same UTC offset (or none), the
    start string is also below the end string. *)
Theorem stored_windows_ok (rqs : list Request) :
  Forall wf_request rqs ->
  forall r, In r (reservation (steps rqs empty_db)) ->
    exists s e, datetime.wf s /\ datetime.wf e
                /\ Reservation.start_time r = datetime.isoformat s
                /\ Reservation.end_time r = datetime.isoformat e
                /\ datetime.ltb s e = true
                /\ (datetime.tzinfo s = datetime.tzinfo e ->
                    String.ltb (Reservation.start_time r) (Reservation.end_time r) = true).
Proof.
  intros W.
  assert (H : forall db, (forall r, In r (reservation db) -> window_ok r) ->
                forall r, In r (reservation (steps rqs db)) -> window_ok r).
  { induction W as [|rq rqs Wrq _ IH]; intros db Hdb; [exact Hdb|].
    cbn [steps fold_left]. apply IH. now apply step_window_ok. }
  intros r Hr. apply (H empty_db); [intros ? []|exact Hr].
Qed.

Lemma step_window_of (tz : option Z) (rq : Request) (db : DB) :
  uniform_offset tz rq ->
  (forall r, In r (reservation db) ->
     exists s e, window_of tz r s e /\ datetime.ltb s e = true) ->
  forall r, In r (reservation (step rq db)) ->
    exists s e, window_of tz r s e /\ datetime.ltb s e = true.
Proof.
  intros W.
  apply (step_preserves_for
           (fun d => forall r, In r (reservation d) ->
                       exists s e, window_of tz r s e /\ datetime.ltb s e = true));
    clear db.
  - intros db n la lo H. exact H.
  - intros db l n ty H _ _. exact H.
  - intros db i s H _. exact H.
  - intros db p s -> H V _ _ r Hr.
    cbn [reservation add_reservation set_spot_available] in Hr.
    apply in_app_iff in Hr. destruct Hr as [Hr|[<-|[]]]; [now apply H|].
    destruct W as (W1 & W2 & T1 & T2). apply datetime_le_false_ltb in V.
    exists (ReserveCreate.start_time p), (ReserveCreate.end_time p).
    split; [|exact V]. unfold window_of. cbn [Reservation.start_time Reservation.end_time].
    split; [exact W1|]. split; [exact W2|]. split; [exact T1|]. split; [exact T2|].
    split; reflexivity.
  - intros db r0 H _ _ r Hr.
    cbn [reservation set_reservation_status set_spot_available] in Hr.
    apply in_map_iff in Hr. destruct Hr as [r1 [<- Hr1]].
    destruct (H r1 Hr1) as (s & e & Hw & L).
    exists s, e. unfold mark_reservation.
    destruct (Reservation.id r1 =? _); split; assumption.
Qed.

(** C4 (amended).  With requests handled one after another, any two
    different active reservations of one spot have stored windows that do
    not overlap in the order the overlap query uses, the character order of
    the stored ISO strings.  When every reservation request carries valid
    datetimes with one and the same UTC offset (or none), that order is the
    order in time: the two windows are those of two pairs of datetimes,
    each start before its end, that do not overlap in time.  A spot may
    have several active reservations. *)
Theorem reachable_active_windows_disjoint :
  (forall db, reachable db -> active_windows_disjoint db)
  /\ (forall tz rqs, Forall (uniform_offset tz) rqs ->
        active_windows_disjoint_in_time tz (steps rqs empty_db)).
Proof.
  split; [exact reachable_windows_disjoint_text|].
  intros tz rqs W.
  assert (H : forall db,
            (forall r, In r (reservation db) ->
               exists s e, window_of tz r s e /\ datetime.ltb s e = true) ->
            forall r, In r (reservation (steps rqs db)) ->
              exists s e, window_of tz r s e /\ datetime.ltb s e = true).
  { induction W as [|rq rqs Wrq _ IH]; intros db Hdb; [exact Hdb|].
    cbn [steps fold_left]. apply IH. now apply step_window_of. }
  specialize (H empty_db (fun r (F : In r []) => match F with end)).
  pose proof (reachable_windows_disjoint_text (steps rqs empty_db)
                (reachable_steps rqs empty_db reachable_empty)) as D.
  intros sp r1 r2 A1 A2 Hne. specialize (D sp r1 r2 A1 A2 Hne).
  destruct A1 as (I1 & _), A2 as (I2 & _).
  destruct (H r1 I1) as (s1 & e1 & Hw1 & L1).
  destruct (H r2 I2) as (s2 & e2 & Hw2 & L2).
  exists s1, e1, s2, e2.
  split; [exact Hw1|]. split; [exact Hw2|]. split; [exact L1|]. split; [exact L2|].
  destruct Hw1 as (Ws1 & We1 & Ts1 & Te1 & Es1 & Ee1).
  destruct Hw2 as (Ws2 & We2 & Ts2 & Te2 & Es2 & Ee2).
  unfold windows_overlap in D. rewrite Es1, Ee1, Es2, Ee2 in D.
  rewrite !string_ltb_compare in D.
  rewrite (isoformat_compare s1 e2 Ws1 We2), (isoformat_compare s2 e1 Ws2 We1) in D
    by congruence.
  unfold overlap_in_time, datetime.ltb.
  rewrite (cmp_same_tzinfo s1 e2), (cmp_same_tzinfo s2 e1) by congruence.
  exact D.
Qed.

Lemma reachable_active_windows_disjoint_witness :
  active_windows_disjoint db_two /\ active_windows_disjoint_in_time None db_two.
Proof.
  split.
  - apply (proj1 reachable_active_windows_disjoint db_two).
    apply reachable_steps; constructor.
  - apply (proj2 reachable_active_windows_disjoint None
             (setup ++ [CreateReservation (request 10 11);
                        CreateReservation (request 12 13)])).
    repeat constructor; unfold datetime.wf; cbn; lia.
Defined.

Lemma stored_windows_ok_witness :
  exists s e, datetime.wf s /\ datetime.wf e
              /\ Reservation.start_time reservation_A = datetime.isoformat s
              /\ Reservation.end_time reservation_A = datetime.isoformat e
              /\ datetime.ltb s e = true
              /\ (datetime.tzinfo s = datetime.tzinfo e ->
                  String.ltb (Reservation.start_time reservation_A)
                             (Reservation.end_time reservation_A) = true).
Proof.
  apply (stored_windows_ok
           (setup ++ [CreateReservation (request 10 11);
                      CreateReservation
                        (ReserveCreate.mk 1 (datetime.mk 2024 1 2 23 0 0 0 (Some 0))
                           (datetime.mk 2024 1 2 20 0 0 0 (Some (-300))) "KA01AB1234")])).
  - unfold wf_request. repeat constructor; unfold datetime.wf; cbn; lia.
  - vm_compute. now left.
Defined.

(** Requests with different UTC offsets.  The overlap query compares the
    stored strings, not the instants: after a reservation of spot 1 for
    10:00-11:00 at +00:00, a request for 15:30-16:30 at +05:00 (which is
    10:30-11:30 at +00:00) is accepted, so the spot has two active
    reservations whose windows overlap in time. *)
Theorem mixed_offsets_double_booking :
  let a1 := datetime.mk 2024 1 1 10 0 0 0 (Some 0) in
  let a2 := datetime.mk 2024 1 1 11 0 0 0 (Some 0) in
  let b1 := datetime.mk 2024 1 1 15 30 0 0 (Some 300) in
  let b2 := datetime.mk 2024 1 1 16 30 0 0 (Some 300) in
  let db1 := snd (createReservation (ReserveCreate.mk 1 a1 a2 "KA01AB1234") db_setup) in
  reservation db1
  = [Reservation.mk 1 1 "2024-01-01T10:00:00+00:00" "2024-01-01T11:00:00+00:00"
       "KA01AB1234" "active"]
  /\ fst (createReservation (ReserveCreate.mk 1 b1 b2 "MH12XY0001") db1)
     = Ok (Reservation.mk 2 1 "2024-01-01T15:30:00+05:00" "2024-01-01T16:30:00+05:00"
             "MH12XY0001" "active")
  /\ datetime.ltb a1 a2 = true /\ datetime.ltb b1 b2 = true
  /\ overlap_in_time a1 a2 b1 b2 = true.
Proof. vm_compute. repeat split. Qed.

(** With different offsets the stored start can sort above the stored end:
    23:00 at +00:00 to 20:00 at -05:00 (01:00 the next day at +00:00) is a
    valid request, and its start string is not below its end string. *)
Theorem mixed_offsets_strings_out_of_order :
  let s := datetime.mk 2024 1 2 23 0 0 0 (Some 0) in
  let e := datetime.mk 2024 1 2 20 0 0 0 (Some (-300)) in
  datetime.ltb s e = true
  /\ fst (createReservation (ReserveCreate.mk 1 s e "KA01AB1234") db_setup)
     = Ok (Reservation.mk 1 1 "2024-01-02T23:00:00+00:00" "2024-01-02T20:00:00-05:00"
             "KA01AB1234" "active")
  /\ String.ltb "2024-01-02T23:00:00+00:00" "2024-01-02T20:00:00-05:00" = false.
Proof. vm_compute. repeat split. Qed.

(* ------------------------------------------------------------------ *)
(** ** More on the nearby search *)

Section SearchProperties.
Context {libm : Libm}.
Variables (lat lng : float).

Lemma single_stage_filter_complete (radius_m : Z) (db : DB) (spots : list ParkingSpot.t)
  (res : list SpotNearby.t) :
  single_stage_filter lat lng radius_m db spots = Ok res ->
  (List.length res <= List.length spots)%nat
  /\ forall s L d, In s spots -> get_lot (ParkingSpot.lot_id s) db = Some L ->
       lot_distance lat lng L = Ok d ->
       (d <=? float_of_int radius_m)%float = true ->
       In (nearby s d) res.
Proof.
  revert res. induction spots as [|s0 spots IH]; intros res H; cbn in H.
  - injection H as <-. split; [cbn; lia|]. intros s L d [].
  - destruct (get_lot (ParkingSpot.lot_id s0) db) as [L0|] eqn:G.
    + apply obind_Ok in H. destruct H as [d0 [Hd0 H]].
      apply obind_Ok in H. destruct H as [rest [Hrest H]]. injection H as <-.
      destruct (IH rest Hrest) as [Hlen Hin]. split.
      * destruct (d0 <=? _)%float; cbn [List.length]; lia.
      * intros s L d [<-|Hs] HL Hd Hle.
        -- rewrite G in HL. injection HL as <-.
           unfold lot_distance in Hd. rewrite Hd0 in Hd. injection Hd as <-.
           rewrite Hle. now left.
        -- specialize (Hin s L d Hs HL Hd Hle).
           destruct (d0 <=? _)%float; [now right|assumption].
    + destruct (IH res H) as [Hlen Hin]. split; [cbn [List.length]; lia|].
      intros s L d [<-|Hs] HL Hd Hle; [congruence|now apply (Hin s L d)].
Qed.

Lemma single_stage_filter_sound (radius_m : Z) (db : DB) (spots : list ParkingSpot.t)
  (res : list SpotNearby.t) :
  single_stage_filter lat lng radius_m db spots = Ok res ->
  Forall (fun x => exists s L d,
            In s spots /\ get_lot (ParkingSpot.lot_id s) db = Some L
            /\ lot_distance lat lng L = Ok d
            /\ (d <=? float_of_int radius_m)%float = true
            /\ x = nearby s d) res
  /\ (forall x, In x res -> In (SpotNearby.id x) (map ParkingSpot.id spots))
  /\ (NoDup (map ParkingSpot.id spots) -> NoDup (map SpotNearby.id res)).
Proof.
  revert res. induction spots as [|s0 spots IH]; intros res H; cbn in H.
  - injection H as <-. split; [constructor|]. split; [intros x []|intros _; constructor].
  - assert (Hweak : forall res',
              Forall (fun x => exists s L d,
                 In s spots /\ get_lot (ParkingSpot.lot_id s) db = Some L
                 /\ lot_distance lat lng L = Ok d
                 /\ (d <=? float_of_int radius_m)%float = true
                 /\ x = nearby s d) res' ->
              Forall (fun x => exists s L d,
                 In s (s0 :: spots) /\ get_lot (ParkingSpot.lot_id s) db = Some L
                 /\ lot_distance lat lng L = Ok d
                 /\ (d <=? float_of_int radius_m)%float = true
                 /\ x = nearby s d) res').
    { intros res'. apply Forall_impl. intros x (s & L & d & Hs & R).
      exists s, L, d. split; [now right|exact R]. }
    destruct (get_lot (ParkingSpot.lot_id s0) db) as [L0|] eqn:G.
    + apply obind_Ok in H. destruct H as [d0 [Hd0 H]].
      apply obind_Ok in H. destruct H as [rest [Hrest H]]. injection H as <-.
      destruct (IH rest Hrest) as (Hall & Hids & Hnd).
      destruct (d0 <=? float_of_int radius_m)%float eqn:Hle.
      * split; [|split].
        -- constructor; [|now apply Hweak].
           exists s0, L0, d0. split; [now left|]. repeat split; assumption.
        -- intros x [<-|Hx]; [now left|]. right. now apply Hids.
        -- intros Hn. cbn in Hn |- *. inversion Hn as [|a l Hnotin Hn']; subst.
           constructor; [|now apply Hnd].
           intros Hin. apply in_map_iff in Hin. destruct Hin as [x [Ex Hx]].
           apply Hnotin. rewrite <- Ex. now apply Hids.
      * split; [now apply Hweak|]. split.
        -- intros x Hx. right. now apply Hids.
        -- intros Hn. cbn in Hn. inversion Hn; subst. now apply Hnd.
    + destruct (IH res H) as (Hall & Hids & Hnd).
      split; [now apply Hweak|]. split.
      * intros x Hx. right. now apply Hids.
      * intros Hn. cbn in Hn. inversion Hn; subst. now apply Hnd.
Qed.

Lemma available_spot_ids_distinct (spots : list ParkingSpot.t) :
  NoDup (map ParkingSpot.id spots) ->
  NoDup (map ParkingSpot.id (filter ParkingSpot.is_available spots)).
Proof.
  intros H. induction spots as [|s spots IH]; [constructor|].
  cbn [map] in H. inversion H as [|k ks Hnotin Hnd]; subst.
  cbn [filter]. destruct (ParkingSpot.is_available s); [|now apply IH].
  cbn [map]. constructor; [|now apply IH].
  intros Hin. apply Hnotin. apply in_map_iff in Hin. destruct Hin as [y [E Hy]].
  apply filter_In in Hy. rewrite <- E. apply in_map. tauto.
Qed.

(** The search returns the nearest matches and misses none.  For distinct
    lot ids and spot ids and a radius the query accepts, the result is the
    first [limit] entries of a list that (1) holds exactly the entries of
    the available spots whose lot is at haversine distance [<= radius_m]
    from the query point, each with the spot's columns and the distance
    rounded to 2 places, (2) holds no spot twice, and (3) is ascending in
    the distance it carries.  When [limit] is at least the number of spots
    the result is that whole list.  ([round] is assumed not to turn a number
    into NaN.) *)
Theorem search_spots_complete (radius_m limit : Z) (db : DB) (res : list SpotNearby.t) :
  NoDup (map ParkingLot.id (parking_lot db)) ->
  NoDup (map ParkingSpot.id (parking_spot db)) ->
  1 <= radius_m <= 20000 ->
  (forall d, PrimFloat.is_nan d = false -> PrimFloat.is_nan (round2 d) = false) ->
  search_spots lat lng radius_m limit db = Ok res ->
  let rad := fun x => (x * (0x1.921fb54442d18p+1 / 180))%float in
  let distance := fun L =>
    (2 * 6371000
     * c_asin (PrimFloat.sqrt
         (c_pow (c_sin (rad (ParkingLot.latitude L - lat) / 2)) 2
          + c_cos (rad lat) * c_cos (rad (ParkingLot.latitude L))
            * c_pow (c_sin (rad (ParkingLot.longitude L - lng) / 2)) 2)))%float in
  exists ranking,
    res = firstn (Z.to_nat limit) ranking
    /\ (forall x, In x ranking <->
          exists s L,
            In s (parking_spot db) /\ ParkingSpot.is_available s = true
            /\ In L (parking_lot db) /\ ParkingLot.id L = ParkingSpot.lot_id s
            /\ (distance L <=? float_of_int radius_m)%float = true
            /\ x = SpotNearby.mk (ParkingSpot.id s) (ParkingSpot.lot_id s)
                     (ParkingSpot.number s) (ParkingSpot.type s) true
                     (round2 (distance L)))
    /\ NoDup (map SpotNearby.id ranking)
    /\ Sorted (fun a b => (SpotNearby.distance_m a <=? SpotNearby.distance_m b)%float = true)
              ranking
    /\ (Z.of_nat (List.length (parking_spot db)) <= limit -> res = ranking).
Proof.
  intros Hnd Hsp Hr Hround H rad distance.
  assert (Hc : computable lat lng (parking_lot db)).
  { unfold search_spots in H. apply obind_Ok in H. destruct H as [ids [H _]].
    now apply candidate_lots_Ok in H. }
  rewrite (search_spots_single_stage_computable lat lng radius_m limit db Hnd Hr Hc) in H.
  unfold single_stage_search in H. apply obind_Ok in H.
  destruct H as [res0 [H0 H]]. injection H as <-.
  destruct (single_stage_filter_complete _ _ _ _ H0) as [Hlen Hin].
  destruct (single_stage_filter_sound _ _ _ _ H0) as (Hall & _ & Hids).
  assert (Hdist : forall L d, lot_distance lat lng L = Ok d -> d = distance L).
  { intros L d Hd. unfold lot_distance in Hd. now apply haversine_m_Ok in Hd. }
  exists (sort_by SpotNearby.distance_m res0). split; [reflexivity|].
  split; [|split; [|split]].
  - intros x. split.
    + intros Hx. apply (Permutation_in _ (sort_by_perm _ res0)) in Hx.
      rewrite Forall_forall in Hall.
      destruct (Hall x Hx) as (s & L & d & Hs & HL & Hd & Hle & ->).
      apply filter_In in Hs. destruct Hs as [Hs Hav].
      apply get_lot_Some in HL. destruct HL as [HL Hid].
      apply Hdist in Hd. subst d.
      exists s, L. unfold nearby. rewrite Hav. repeat split; assumption.
    + intros (s & L & Hs & Hav & HL & Hid & Hle & ->).
      apply (Permutation_in _ (Permutation_sym (sort_by_perm _ res0))).
      destruct (Hc L HL) as [d Hd]. pose proof (Hdist L d Hd) as Ed.
      rewrite <- Ed in Hle |- *. rewrite <- Hav.
      apply (Hin s L d); try assumption.
      * apply filter_In. now split.
      * unfold get_lot. now apply (find_unique ParkingLot.id).
  - apply (Permutation_NoDup
             (Permutation_map SpotNearby.id
                (Permutation_sym (sort_by_perm SpotNearby.distance_m res0)))).
    apply Hids. now apply available_spot_ids_distinct.
  - apply sort_by_sorted. revert Hall. apply Forall_impl.
    intros x (s & L & d & _ & _ & _ & Hle & ->). cbn. apply Hround.
    now apply float_leb_not_nan in Hle.
  - intros Hlim. apply firstn_all2.
    rewrite (Permutation_length (sort_by_perm SpotNearby.distance_m res0)).
    pose proof (filter_length_le ParkingSpot.is_available (parking_spot db)). lia.
Qed.

Lemma single_stage_filter_total (radius_m : Z) (db : DB) (spots : list ParkingSpot.t) :
  computable lat lng (parking_lot db) ->
  exists res, single_stage_filter lat lng radius_m db spots = Ok res.
Proof.
  intros Hc. induction spots as [|s spots [rest IH]]; [now exists []|].
  cbn [single_stage_filter].
  destruct (get_lot (ParkingSpot.lot_id s) db) as [L|] eqn:G; [|now exists rest].
  apply get_lot_Some in G. destruct G as [HL _].
  destruct (Hc L HL) as [d Hd]. unfold lot_distance in Hd. rewrite Hd, IH.
  cbn [obind]. eexists. reflexivity.
Qed.

(** When the search answers.  For distinct lot ids and a radius the query
    accepts, search_spots returns a list exactly when the distance of every
    lot of the table can be computed (no [math] function raises on it);
    otherwise the request ends with that exception. *)
Theorem search_spots_returns (radius_m limit : Z) (db : DB) :
  NoDup (map ParkingLot.id (parking_lot db)) ->
  1 <= radius_m <= 20000 ->
  ((exists res, search_spots lat lng radius_m limit db = Ok res)
   <-> forall L, In L (parking_lot db) ->
         exists d, haversine_m lat lng (ParkingLot.latitude L) (ParkingLot.longitude L)
                   = Ok d).
Proof.
  intros Hnd Hr. split.
  - intros [res H]. unfold search_spots in H.
    apply obind_Ok in H. destruct H as [ids [H _]].
    now apply candidate_lots_Ok in H.
  - intros Hc.
    rewrite (search_spots_single_stage_computable lat lng radius_m limit db Hnd Hr Hc).
    unfold single_stage_search.
    destruct (single_stage_filter_total radius_m db
                (filter ParkingSpot.is_available (parking_spot db)) Hc) as [res0 H0].
    rewrite H0. cbn [obind]. eexists. reflexivity.
Qed.

(** A smaller limit returns a prefix of what a larger limit returns. *)
Theorem search_spots_limit_prefix (radius_m l1 l2 : Z) (db : DB)
  (res : list SpotNearby.t) :
  0 <= l1 <= l2 ->
  search_spots lat lng radius_m l2 db = Ok res ->
  search_spots lat lng radius_m l1 db = Ok (firstn (Z.to_nat l1) res).
Proof.
  intros Hl H. unfold search_spots in *.
  destruct (candidate_lots lat lng radius_m (parking_lot db) []) as [ids| | |];
    try discriminate. cbn [obind] in *.
  destruct ids as [|k ids].
  - injection H as <-. now rewrite firstn_nil.
  - destruct (attach_distance _ _ _ _ _ _) as [res0| | |]; try discriminate.
    cbn [obind] in *. injection H as <-.
    rewrite firstn_firstn. do 2 f_equal. lia.
Qed.

(** The distances in a result are numbers, never NaN (as long as [round]
    does not make one): a lot whose distance is NaN is never within the
    radius. *)
Theorem search_spots_distances_not_nan (radius_m limit : Z) (db : DB)
  (res : list SpotNearby.t) :
  (forall d, PrimFloat.is_nan d = false -> PrimFloat.is_nan (round2 d) = false) ->
  search_spots lat lng radius_m limit db = Ok res ->
  Forall (fun x => PrimFloat.is_nan (SpotNearby.distance_m x) = false) res.
Proof.
  intros Hround H. unfold search_spots in H.
  apply obind_Ok in H. destruct H as [ids [_ H]].
  destruct ids as [|k ids]; [injection H as <-; constructor|].
  apply obind_Ok in H. destruct H as [res0 [H E]]. injection E as <-.
  apply attach_distance_Ok in H. destruct H as [added [-> Hadd]]. cbn [app].
  apply Forall_firstn.
  apply (Permutation_Forall (Permutation_sym (sort_by_perm _ added))).
  revert Hadd. apply Forall_impl. intros x (s & L & d & _ & _ & _ & Hle & ->).
  cbn. apply Hround. now apply float_leb_not_nan in Hle.
Qed.

(** The query parameters: a radius outside 1..20000 or a limit outside
    1..100 is a validation error; a parameter left out has its default
    (1000 and 20); and no search request changes the database. *)
Theorem searchSpots_query (radius_m limit : option Z) (db : DB) :
  snd (searchSpots lat lng radius_m limit db) = db
  /\ searchSpots lat lng None limit db = searchSpots lat lng (Some 1000) limit db
  /\ searchSpots lat lng radius_m None db = searchSpots lat lng radius_m (Some 20) db
  /\ (forall r l, radius_m = Some r -> limit = Some l ->
        ~ (1 <= r <= 20000 /\ 1 <= l <= 100) ->
        error_kind (fst (searchSpots lat lng radius_m limit db)) = Some ValidationError).
Proof.
  split; [|split; [|split]].
  - rewrite searchSpots_unfold. now destruct (search_query radius_m limit).
  - reflexivity.
  - reflexivity.
  - intros r l -> -> Hbad. rewrite searchSpots_unfold. unfold search_query.
    destruct (Z.leb_spec 1 r), (Z.leb_spec r 20000); cbn [andb negb]; try reflexivity.
    destruct (Z.leb_spec 1 l), (Z.leb_spec l 100); cbn [andb negb]; try reflexivity.
    exfalso. apply Hbad. lia.
Qed.

End SearchProperties.

Lemma search_spots_complete_witness :
  let rad := fun x => (x * (0x1.921fb54442d18p+1 / 180))%float in
  let distance := fun L =>
    (2 * 6371000
     * @c_asin series_libm (PrimFloat.sqrt
         (@c_pow series_libm (@c_sin series_libm (rad (ParkingLot.latitude L - 0) / 2)) 2
          + @c_cos series_libm (rad 0) * @c_cos series_libm (rad (ParkingLot.latitude L))
            * @c_pow series_libm
                (@c_sin series_libm (rad (ParkingLot.longitude L - 0) / 2)) 2)))%float in
  exists ranking,
    firstn 2 city_nearby = firstn (Z.to_nat 2) ranking
    /\ (forall x, In x ranking <->
          exists s L,
            In s (parking_spot db_city) /\ ParkingSpot.is_available s = true
            /\ In L (parking_lot db_city) /\ ParkingLot.id L = ParkingSpot.lot_id s
            /\ (distance L <=? float_of_int 1000)%float = true
            /\ x = SpotNearby.mk (ParkingSpot.id s) (ParkingSpot.lot_id s)
                     (ParkingSpot.number s) (ParkingSpot.type s) true
                     (@round2 series_libm (distance L)))
    /\ NoDup (map SpotNearby.id ranking)
    /\ Sorted (fun a b => (SpotNearby.distance_m a <=? SpotNearby.distance_m b)%float = true)
              ranking
    /\ (Z.of_nat (List.length (parking_spot db_city)) <= 2
        -> firstn 2 city_nearby = ranking).
Proof.
  apply (@search_spots_complete series_libm 0 0 1000 2 db_city (firstn 2 city_nearby)).
  - exact db_city_lot_ids.
  - exact db_city_spot_ids.
  - lia.
  - exact series_round2_not_nan.
  - vm_compute. reflexivity.
Defined.

Lemma search_spots_limit_prefix_witness :
  @search_spots series_libm 0 0 1000 2 db_city = Ok (firstn (Z.to_nat 2) city_nearby).
Proof.
  apply (@search_spots_limit_prefix series_libm 0 0 1000 2 20 db_city city_nearby).
  - lia.
  - vm_compute. reflexivity.
Defined.

Lemma search_spots_returns_witness :
  (exists res, @search_spots series_libm 0 0 1000 20 db_city = Ok res)
  <-> forall L, In L (parking_lot db_city) ->
        exists d, @haversine_m series_libm 0 0 (ParkingLot.latitude L)
                    (ParkingLot.longitude L) = Ok d.
Proof.
  apply (@search_spots_returns series_libm 0 0 1000 20 db_city).
  - exact db_city_lot_ids.
  - lia.
Defined.

Lemma search_spots_distances_not_nan_witness :
  Forall (fun x => PrimFloat.is_nan (SpotNearby.distance_m x) = false)
         [SpotNearby.mk 1 1 "X" "car" true 0].
Proof.
  apply (@search_spots_distances_not_nan small_angle_libm 0 0 1000 20 db_setup
           [SpotNearby.mk 1 1 "X" "car" true 0]).
  - intros d H. exact H.
  - vm_compute. reflexivity.
Defined.
